(** * libminizinc: parameter evaluator, flattener fragments and JSON lexer

    A shallow embedding of the parts of libminizinc that the specification's
    testable properties talk about:

    - [lib/eval_par.cpp]: [eval_par], [eval_int_internal], [eval_float],
      [eval_bool], [eval_array_lit], [eval_arrayaccess] and the bounds
      visitor [ComputeIntBounds] with [compute_int_bounds];
    - [lib/flatten.cpp]: [EnvI::fail], [EnvI::addWarning],
      [EnvI::surroundingCall];
    - [lib/flatten/flatten_par.cpp], [flatten_comp.cpp], [flatten_let.cpp];
    - [lib/json_parser.cpp]: [JSONParser::readToken].

    Expressions are values of an inductive type; every node carries its
    [Type_] and its annotations (source locations are left out: no modelled
    function branches on them).  A [VarDecl] is a mutable object in the C++
    code, so declarations live in a store inside [EnvI] and are referred to
    by index.  Functions that throw are written in a state-and-exception
    monad [M]; recursion that follows identifiers and function bodies is
    bounded by a fuel argument. *)

From Stdlib Require Import ZArith List String Ascii Bool Lia.
From Stdlib Require Import Floats.SpecFloat.
From Stdlib Require Import DecimalString.
Import ListNotations.
Local Open Scope string_scope.
Local Open Scope list_scope.
Local Open Scope Z_scope.

Set Implicit Arguments.
Set Warnings "-register-all".

(* ================================================================== *)
(** * Values *)

(** Modelled from the spec: [IntVal] (declared in values.hh, which is not
    among the sources).  "Integers and floats use extended values with
    ±∞ sentinels"; "arithmetic is performed in a bignum-backed IntVal that
    tracks ±∞; overflow is a hard arithmetic error".  Arithmetic on an
    infinite operand is an [ArithmeticError]; so is an operation whose
    result does not fit the 64-bit signed integer that holds a finite
    value. *)
Inductive IntVal : Type :=
| IntFin (v : Z)
| IntPlusInf
| IntMinusInf.

(** Modelled from the spec: [FloatVal] wraps a C++ [double]; the IEEE 754
    binary64 datum is Rocq's [spec_float]. *)
Definition FloatVal : Type := spec_float.

(** The exception classes of the library (§7 of the specification). *)
Inductive Exception : Type :=
| EvalError (msg : string)
| ResultUndefinedError (msg : string)
| ArithmeticError (msg : string)
| InternalError (msg : string)
| FlatteningError (msg : string)
| ModelInconsistent.

(** Outcome of a computation: a value, a thrown exception, or the fuel of
    the model ran out (the C++ code would still be running). *)
Inductive Result (A : Type) : Type :=
| Ok (a : A)
| Throw (ex : Exception)
| Diverge.
Arguments Ok {A} a.
Arguments Throw {A} ex.
Arguments Diverge {A}.

Module IntVal_.

Definition infinity : IntVal := IntPlusInf.
Definition of_Z (z : Z) : IntVal := IntFin z.

Definition isFinite (a : IntVal) : bool :=
  match a with IntFin _ => true | _ => false end.

Definition infinite_operand : Exception :=
  ArithmeticError "arithmetic operation on infinite value".

(** The range of a finite value. *)
Definition min_int : Z := - 2 ^ 63.
Definition max_int : Z := 2 ^ 63 - 1.
Definition in_range (z : Z) : bool := (min_int <=? z) && (z <=? max_int).

Definition overflow : Exception := ArithmeticError "integer overflow".

(** The result [z] of an operation on finite values. *)
Definition checked (z : Z) : Result IntVal :=
  if in_range z then Ok (IntFin z) else Throw overflow.

Definition lift2 (f : Z -> Z -> Z) (a b : IntVal) : Result IntVal :=
  match a, b with
  | IntFin x, IntFin y => checked (f x y)
  | _, _ => Throw infinite_operand
  end.

Definition plus := lift2 Z.add.
Definition minus := lift2 Z.sub.
Definition mult := lift2 Z.mul.

(** C++ integer division truncates towards zero: [Z.quot] and [Z.rem]. *)
Definition div (a b : IntVal) : Result IntVal :=
  match a, b with
  | IntFin x, IntFin y =>
      if y =? 0 then Throw (ArithmeticError "integer division by zero")
      else checked (Z.quot x y)
  | _, _ => Throw infinite_operand
  end.

Definition mod_ (a b : IntVal) : Result IntVal :=
  match a, b with
  | IntFin x, IntFin y =>
      if y =? 0 then Throw (ArithmeticError "integer division by zero")
      else checked (Z.rem x y)
  | _, _ => Throw infinite_operand
  end.

Definition neg (a : IntVal) : IntVal :=
  match a with
  | IntFin x => IntFin (- x)
  | IntPlusInf => IntMinusInf
  | IntMinusInf => IntPlusInf
  end.

Definition eqb (a b : IntVal) : bool :=
  match a, b with
  | IntFin x, IntFin y => x =? y
  | IntPlusInf, IntPlusInf => true
  | IntMinusInf, IntMinusInf => true
  | _, _ => false
  end.

Definition ltb (a b : IntVal) : bool :=
  match a, b with
  | IntFin x, IntFin y => x <? y
  | IntMinusInf, IntMinusInf => false
  | IntMinusInf, _ => true
  | _, IntMinusInf => false
  | IntPlusInf, _ => false
  | _, IntPlusInf => true
  end.

Definition leb (a b : IntVal) : bool := negb (ltb b a).

(** [std::min(a, b)] is [(b < a) ? b : a]; [std::max(a, b)] is
    [(a < b) ? b : a]. *)
Definition min (a b : IntVal) : IntVal := if ltb b a then b else a.
Definition max (a b : IntVal) : IntVal := if ltb a b then b else a.

Definition toInt (a : IntVal) : Result Z :=
  match a with
  | IntFin x => Ok x
  | _ => Throw infinite_operand
  end.

(** [static_cast<int>(v)] of the [long long] that [toInt] returns: the
    32-bit signed integer congruent to [v] modulo 2^32. *)
Definition static_cast_int (z : Z) : Z := (z + 2 ^ 31) mod 2 ^ 32 - 2 ^ 31.

(** Decimal rendering of a C++ integer. *)
Definition show_Z (z : Z) : string := NilZero.string_of_int (Z.to_int z).

(** [operator<<] on an [IntVal]. *)
Definition show (a : IntVal) : string :=
  match a with
  | IntFin x => show_Z x
  | IntPlusInf => "infinity"
  | IntMinusInf => "-infinity"
  end.

End IntVal_.

(* ================================================================== *)
(** * Types *)

(** Modelled from the spec: [Type] (type.hh is not among the sources).
    "Type is a compact value: base kind, set-flag, optional-flag, dim (array
    rank), variability (par|var), a 32-bit interned typeId"; the [cv] flag
    marks a par expression that contains variables. *)
Inductive BaseType : Type :=
| BT_BOOL | BT_INT | BT_FLOAT | BT_STRING | BT_ANN
| BT_TUPLE | BT_RECORD | BT_TOP | BT_BOT | BT_UNKNOWN.

Inductive SetType : Type := ST_PLAIN | ST_SET.
Inductive OptType : Type := OT_PRESENT | OT_OPTIONAL.
Inductive Inst : Type := TI_PAR | TI_VAR.

Record Type_ : Type := mkType {
  ti : Inst;
  bt : BaseType;
  st : SetType;
  ot : OptType;
  cv : bool;
  dim : Z;
  typeId : N
}.

Module Ty.

Definition BaseType_eqb (a b : BaseType) : bool :=
  match a, b with
  | BT_BOOL, BT_BOOL | BT_INT, BT_INT | BT_FLOAT, BT_FLOAT
  | BT_STRING, BT_STRING | BT_ANN, BT_ANN | BT_TUPLE, BT_TUPLE
  | BT_RECORD, BT_RECORD | BT_TOP, BT_TOP | BT_BOT, BT_BOT
  | BT_UNKNOWN, BT_UNKNOWN => true
  | _, _ => false
  end.
Definition SetType_eqb (a b : SetType) : bool :=
  match a, b with ST_PLAIN, ST_PLAIN | ST_SET, ST_SET => true | _, _ => false end.
Definition OptType_eqb (a b : OptType) : bool :=
  match a, b with
  | OT_PRESENT, OT_PRESENT | OT_OPTIONAL, OT_OPTIONAL => true
  | _, _ => false
  end.
Definition Inst_eqb (a b : Inst) : bool :=
  match a, b with TI_PAR, TI_PAR | TI_VAR, TI_VAR => true | _, _ => false end.

(** [Type::operator==] compares variability, base type, set type,
    optionality and dimension; the interned [typeId] and the [cv] flag do
    not take part. *)
Definition eqb (a b : Type_) : bool :=
  Inst_eqb (ti a) (ti b) && BaseType_eqb (bt a) (bt b)
  && SetType_eqb (st a) (st b) && OptType_eqb (ot a) (ot b)
  && (dim a =? dim b).

Definition mk (i : Inst) (b : BaseType) (s : SetType) (d : Z) : Type_ :=
  mkType i b s OT_PRESENT false d 0%N.

Definition parint := mk TI_PAR BT_INT ST_PLAIN 0.
Definition parbool := mk TI_PAR BT_BOOL ST_PLAIN 0.
Definition parfloat := mk TI_PAR BT_FLOAT ST_PLAIN 0.
Definition parstring := mk TI_PAR BT_STRING ST_PLAIN 0.
Definition parsetint := mk TI_PAR BT_INT ST_SET 0.
Definition parsetbool := mk TI_PAR BT_BOOL ST_SET 0.
Definition parsetfloat := mk TI_PAR BT_FLOAT ST_SET 0.
Definition varint := mk TI_VAR BT_INT ST_PLAIN 0.
Definition varbool := mk TI_VAR BT_BOOL ST_PLAIN 0.
Definition varfloat := mk TI_VAR BT_FLOAT ST_PLAIN 0.
Definition varsetint := mk TI_VAR BT_INT ST_SET 0.
Definition ann := mk TI_PAR BT_ANN ST_PLAIN 0.
Definition bot := mk TI_PAR BT_BOT ST_PLAIN 0.
(** The type of the absent value [<>]: par opt bot. *)
Definition optbot := mkType TI_PAR BT_BOT ST_PLAIN OT_OPTIONAL false 0 0%N.
Definition parbool1 (d : Z) := mk TI_PAR BT_BOOL ST_PLAIN d.
Definition varbool1 (d : Z) := mk TI_VAR BT_BOOL ST_PLAIN d.

Definition isPar (t : Type_) : bool := Inst_eqb (ti t) TI_PAR.
Definition isvar (t : Type_) : bool := Inst_eqb (ti t) TI_VAR.
Definition isOpt (t : Type_) : bool := OptType_eqb (ot t) OT_OPTIONAL.
Definition isPresent (t : Type_) : bool := OptType_eqb (ot t) OT_PRESENT.
Definition isPlain (t : Type_) : bool :=
  (dim t =? 0) && SetType_eqb (st t) ST_PLAIN && OptType_eqb (ot t) OT_PRESENT.
Definition isSet (t : Type_) : bool := (dim t =? 0) && SetType_eqb (st t) ST_SET.
Definition isint (t : Type_) : bool :=
  (dim t =? 0) && SetType_eqb (st t) ST_PLAIN && BaseType_eqb (bt t) BT_INT.
Definition isbool (t : Type_) : bool :=
  (dim t =? 0) && SetType_eqb (st t) ST_PLAIN && BaseType_eqb (bt t) BT_BOOL.
Definition isfloat (t : Type_) : bool :=
  (dim t =? 0) && SetType_eqb (st t) ST_PLAIN && BaseType_eqb (bt t) BT_FLOAT.
Definition isstring (t : Type_) : bool :=
  (dim t =? 0) && SetType_eqb (st t) ST_PLAIN && BaseType_eqb (bt t) BT_STRING.
Definition isbot (t : Type_) : bool := BaseType_eqb (bt t) BT_BOT.
Definition isAnn (t : Type_) : bool := isPlain t && BaseType_eqb (bt t) BT_ANN.
Definition istuple (t : Type_) : bool := BaseType_eqb (bt t) BT_TUPLE.
Definition isrecord (t : Type_) : bool := BaseType_eqb (bt t) BT_RECORD.
Definition structBT (t : Type_) : bool := istuple t || isrecord t.
Definition isIntSet (t : Type_) : bool :=
  isSet t && (BaseType_eqb (bt t) BT_INT || BaseType_eqb (bt t) BT_BOT).
Definition isFloatSet (t : Type_) : bool := isSet t && BaseType_eqb (bt t) BT_FLOAT.

Definition set_ti (t : Type_) (x : Inst) : Type_ :=
  mkType x (bt t) (st t) (ot t) (cv t) (dim t) (typeId t).
Definition set_bt (t : Type_) (x : BaseType) : Type_ :=
  mkType (ti t) x (st t) (ot t) (cv t) (dim t) (typeId t).
Definition set_st (t : Type_) (x : SetType) : Type_ :=
  mkType (ti t) (bt t) x (ot t) (cv t) (dim t) (typeId t).
Definition set_ot (t : Type_) (x : OptType) : Type_ :=
  mkType (ti t) (bt t) (st t) x (cv t) (dim t) (typeId t).
Definition set_cv (t : Type_) (x : bool) : Type_ :=
  mkType (ti t) (bt t) (st t) (ot t) x (dim t) (typeId t).
Definition set_dim (t : Type_) (x : Z) : Type_ :=
  mkType (ti t) (bt t) (st t) (ot t) (cv t) x (typeId t).
Definition set_typeId (t : Type_) (x : N) : Type_ :=
  mkType (ti t) (bt t) (st t) (ot t) (cv t) (dim t) x.

(** The special typeId marking the index tuple of an indexed
    comprehension. *)
Definition COMP_INDEX : N := 4294967295%N.

End Ty.

(* ================================================================== *)
(** * Abstract syntax *)

Inductive BinOpType : Type :=
| BOT_PLUS | BOT_MINUS | BOT_MULT | BOT_DIV | BOT_IDIV | BOT_MOD | BOT_POW
| BOT_DOTDOT | BOT_LE | BOT_LQ | BOT_GR | BOT_GQ | BOT_EQ | BOT_NQ | BOT_IN
| BOT_SUBSET | BOT_SUPERSET | BOT_UNION | BOT_DIFF | BOT_SYMDIFF
| BOT_INTERSECT | BOT_PLUSPLUS | BOT_EQUIV | BOT_IMPL | BOT_RIMPL | BOT_OR
| BOT_AND | BOT_XOR.

Inductive UnOpType : Type := UOT_NOT | UOT_PLUS | UOT_MINUS.


(** Modelled from the spec: [IntSetVal] and [FloatSetVal], "ordered disjoint
    ranges" (values.hh is not among the sources). *)
Definition IntSetVal : Type := list (IntVal * IntVal).
Definition FloatSetVal : Type := list (FloatVal * FloatVal).

(** A [VarDecl*] and a [FunctionI*] are indices into the stores of [EnvI]. *)
Definition VarDeclRef : Type := nat.
Definition FnRef : Type := nat.

(** Expression nodes.  [Expr ty anns node]: every node carries a type and an
    annotation set.  For a set literal, [isv]/[fsv] hold the evaluated
    range representation when there is one, [v] the element expressions
    otherwise. *)
Inductive Expression : Type :=
| Expr (ty : Type_) (anns : list Expression) (node : ExprNode)
with ExprNode : Type :=
| IntLit (v : IntVal)
| FloatLit (v : FloatVal)
| BoolLit (v : bool)
| StringLit (v : string)
| SetLit (v : list Expression) (isv : option IntSetVal) (fsv : option FloatSetVal)
| ArrayLit (v : list Expression) (dims : list (Z * Z)) (flat : bool) (isTuple : bool)
| Id (v : string) (decl : option VarDeclRef)
| AnonVar
| Comprehension (set : bool) (e : Expression) (gens : list Generator)
| ArrayAccess (v : Expression) (idx : list Expression)
| FieldAccess (v : Expression) (field : Expression)
| ITE (e_if_then : list (Expression * Expression)) (e_else : Expression)
| BinOp (lhs : Expression) (op : BinOpType) (rhs : Expression) (decl : option FnRef)
| UnOp (op : UnOpType) (e : Expression) (decl : option FnRef)
| Call (id : string) (args : list Expression) (decl : option FnRef)
| VarDecl (r : VarDeclRef)
| Let (let_ : list Expression) (in_ : Expression)
| TypeInst (ranges : list Expression) (domain : option Expression)
| TIId (v : string)
with Generator : Type :=
| Gen (decls : list VarDeclRef) (g_in : option Expression) (g_where : option Expression).

Definition type (e : Expression) : Type_ := let 'Expr t _ _ := e in t.
Definition ann (e : Expression) : list Expression := let 'Expr _ a _ := e in a.
Definition node (e : Expression) : ExprNode := let 'Expr _ _ n := e in n.
(** [e->type(t)]: the same node with a new type. *)
Definition with_type (e : Expression) (t : Type_) : Expression :=
  let 'Expr _ a n := e in Expr t a n.


(** ** Literal constructors

    [IntLit::a], [FloatLit::a] and [Constants::boollit] return the interned
    literal of a value, so comparing two of them by address is comparing
    their values; [new StringLit] and [new SetLit] build a fresh node of the
    canonical par type. *)
Module Lit.
Definition IntLit_a (v : IntVal) : Expression := Expr Ty.parint [] (IntLit v).
Definition FloatLit_a (v : FloatVal) : Expression := Expr Ty.parfloat [] (FloatLit v).
Definition boollit (b : bool) : Expression := Expr Ty.parbool [] (BoolLit b).
Definition new_StringLit (s : string) : Expression := Expr Ty.parstring [] (StringLit s).
Definition new_SetLit_isv (s : IntSetVal) : Expression :=
  Expr Ty.parsetint [] (SetLit [] (Some s) None).
Definition new_SetLit_fsv (s : FloatSetVal) : Expression :=
  Expr Ty.parsetfloat [] (SetLit [] None (Some s)).
(** [new SetLit(loc, std::vector<Expression*>)] *)
Definition new_SetLit (v : list Expression) : Expression :=
  Expr (Ty.mk TI_PAR BT_BOT ST_SET 0) [] (SetLit v None None).
(** [new ArrayLit(loc, v)]: one-dimensional, index set [1..|v|]. *)
Definition new_ArrayLit (v : list Expression) : Expression :=
  Expr (Ty.mk TI_PAR BT_BOT ST_PLAIN 1) []
       (ArrayLit v [(1, Z.of_nat (List.length v))] false false).
(** [new ArrayLit(loc, v, dims)] *)
Definition new_ArrayLit_dims (v : list Expression) (dims : list (Z * Z)) : Expression :=
  Expr (Ty.mk TI_PAR BT_BOT ST_PLAIN (Z.of_nat (List.length dims))) []
       (ArrayLit v dims false false).
(** [ArrayLit::constructTuple(loc, v)] *)
Definition constructTuple (v : list Expression) : Expression :=
  Expr (Ty.mk TI_PAR BT_TUPLE ST_PLAIN 0) []
       (ArrayLit v [(1, Z.of_nat (List.length v))] false true).
End Lit.

(** ** The constants pool ([Constants], an immutable singleton) *)
Module constants.
Definition literalTrue : Expression := Lit.boollit true.
Definition literalFalse : Expression := Lit.boollit false.
(** The absent value [<>] is one distinguished [Id] without declaration. *)
Definition absent_name : string := "_absent".
Definition absent : Expression := Expr Ty.optbot [] (Id absent_name None).
(** [varTrue], [varFalse], [varIgnore]: three distinguished declarations,
    the first three cells of the declaration store. *)
Definition varTrue : VarDeclRef := 0%nat.
Definition varFalse : VarDeclRef := 1%nat.
Definition varIgnore : VarDeclRef := 2%nat.
Module ids.
Definition forall_ : string := "forall".
Definition exists_ : string := "exists".
Definition sum : string := "sum".
Definition bool2int : string := "bool2int".
Definition bool2float : string := "bool2float".
Definition deopt : string := "deopt".
Definition lin_exp : string := "lin_exp".
Definition card : string := "card".
Definition abs : string := "abs".
Definition int_times : string := "int_times".
Definition assert_dbg : string := "assert_dbg".
Definition trace_dbg : string := "trace_dbg".
Definition ub : string := "ub".
Definition redundant_constraint : string := "redundant_constraint".
Definition symmetry_breaking_constraint : string := "symmetry_breaking_constraint".
End ids.
Module ann.
Definition promise_total : string := "promise_total".
Definition maybe_partial : string := "maybe_partial".
End ann.
Module ctx.
Definition promise_monotone : string := "promise_ctx_monotone".
Definition promise_antitone : string := "promise_ctx_antitone".
End ctx.
End constants.

(** [e == env.constants.absent] *)
Definition is_absent (e : Expression) : bool :=
  match node e with
  | Id n None => String.eqb n constants.absent_name
  | _ => false
  end.

(** [e->ann().contains(a)] for an annotation identifier [a]. *)
Definition ann_contains (anns : list Expression) (a : string) : bool :=
  existsb (fun x => match node x with
                    | Id n _ => String.eqb n a
                    | _ => false
                    end) anns.

(** [SetLit::evaluated()]: the literal holds a range representation. *)
Definition SetLit_evaluated (isv : option IntSetVal) (fsv : option FloatSetVal) : bool :=
  match isv, fsv with None, None => false | _, _ => true end.


(* ================================================================== *)
(** * Items, models and the environment *)

(** Modelled from the spec: [Location] (ast.hh is not among the sources);
    [Location().introduce()] marks a location as introduced by the
    compiler. *)
Record Location : Type := mkLocation {
  loc_filename : string;
  loc_first_line : Z;
  loc_first_column : Z;
  loc_last_line : Z;
  loc_last_column : Z;
  loc_is_introduced : bool
}.

Definition Location_ : Location := mkLocation EmptyString 0 0 0 0 false.
Definition Location_introduce (l : Location) : Location :=
  mkLocation (loc_filename l) (loc_first_line l) (loc_first_column l)
             (loc_last_line l) (loc_last_column l) true.

Inductive SolveType : Type := ST_SAT | ST_MIN | ST_MAX.

(** Modelled from the spec: the [Item] sum of §3 ([IncludeI], [VarDeclI],
    [AssignI], [ConstraintI], [SolveI], [OutputI], [FunctionI]). *)
Inductive ItemBody : Type :=
| IncludeI (f : string)
| VarDeclI (e : VarDeclRef)
| AssignI (id : string) (e : Expression)
| ConstraintI (e : Expression)
| SolveI (st : SolveType) (e : option Expression)
| OutputI (e : Expression)
| FunctionI_item (f : FnRef).

(** An item with its location and its [removed] mark ("never deleted in
    place; they are marked removed and physically compacted at the end"). *)
Record Item : Type := mkItem {
  i_loc : Location;
  i_body : ItemBody;
  i_removed : bool
}.

Definition Item_remove (i : Item) : Item := mkItem (i_loc i) (i_body i) true.

Definition new_ConstraintI (l : Location) (e : Expression) : Item :=
  mkItem l (ConstraintI e) false.
Definition SolveI_sat (l : Location) : Item := mkItem l (SolveI ST_SAT None) false.
Definition new_OutputI (l : Location) (e : Expression) : Item :=
  mkItem l (OutputI e) false.

(** A [Model] is an ordered sequence of items; [addItem] appends. *)
Definition Model : Type := list Item.
Definition Model_addItem (m : Model) (i : Item) : Model := m ++ [i].

Record Warning : Type := mkWarning {
  w_loc : option Location;
  w_msg : string;
  w_dumpStack : bool
}.

(** A declaration object.  [vd_e] and [vd_flat] are the mutable fields
    [e()] and [flat()]. *)
Record VarDeclRec : Type := mkVarDecl {
  vd_type : Type_;
  vd_ann : list Expression;
  vd_id : string;
  vd_ti : Expression;
  vd_e : option Expression;
  vd_flat : option VarDeclRef;
  vd_evaluated : bool;
  vd_toplevel : bool;
  vd_introduced : bool
}.

(** A function item: parameters, optional body [e()], return type-inst. *)
Record FunctionI : Type := mkFunctionI {
  fi_id : string;
  fi_params : list VarDeclRef;
  fi_e : option Expression;
  fi_ti : Expression;
  fi_ann : list Expression;
  fi_capturedAnnotationsVar : option VarDeclRef
}.

Inductive BCtx : Type := C_ROOT | C_POS | C_NEG | C_MIX.

Definition BCtx_eqb (a b : BCtx) : bool :=
  match a, b with
  | C_ROOT, C_ROOT | C_POS, C_POS | C_NEG, C_NEG | C_MIX, C_MIX => true
  | _, _ => false
  end.

(** [Ctx]: Boolean context, integer context and the [neg] flag; the default
    [Ctx()] is root, mixed, not negated. *)
Record Ctx : Type := mkCtx { ctx_b : BCtx; ctx_i : BCtx; ctx_neg : bool }.
Definition Ctx_ : Ctx := mkCtx C_ROOT C_MIX false.

(** [+c] and [-c] on contexts. *)
Definition BCtx_plus (c : BCtx) : BCtx :=
  match c with C_ROOT => C_POS | C_POS => C_POS | C_NEG => C_NEG | C_MIX => C_MIX end.
Definition BCtx_minus (c : BCtx) : BCtx :=
  match c with C_ROOT => C_NEG | C_POS => C_NEG | C_NEG => C_POS | C_MIX => C_MIX end.

(** The environment of one compilation (the fields the modelled functions
    read or write). *)
Record EnvI : Type := mkEnvI {
  decls : list VarDeclRec;
  functions : list FunctionI;
  flat_ : Model;
  output : Model;
  warnings : list Warning;
  failed_ : bool;
  callStack : list (Expression * bool);
  idStack : list Z;
  maxCallStack : Z;
  inRedundantConstraint : Z;
  inSymmetryBreakingConstraint : Z;
  inMaybePartial : Z;
  fopts_debug : bool;
  arrayEnumDecls : list (list N)
}.

Module Env.
Definition set_decls (env : EnvI) (x : list VarDeclRec) : EnvI :=
  mkEnvI x (functions env) (flat_ env) (output env) (warnings env) (failed_ env)
         (callStack env) (idStack env) (maxCallStack env) (inRedundantConstraint env)
         (inSymmetryBreakingConstraint env) (inMaybePartial env) (fopts_debug env)
         (arrayEnumDecls env).
Definition set_flat (env : EnvI) (x : Model) : EnvI :=
  mkEnvI (decls env) (functions env) x (output env) (warnings env) (failed_ env)
         (callStack env) (idStack env) (maxCallStack env) (inRedundantConstraint env)
         (inSymmetryBreakingConstraint env) (inMaybePartial env) (fopts_debug env)
         (arrayEnumDecls env).
Definition set_output (env : EnvI) (x : Model) : EnvI :=
  mkEnvI (decls env) (functions env) (flat_ env) x (warnings env) (failed_ env)
         (callStack env) (idStack env) (maxCallStack env) (inRedundantConstraint env)
         (inSymmetryBreakingConstraint env) (inMaybePartial env) (fopts_debug env)
         (arrayEnumDecls env).
Definition set_warnings (env : EnvI) (x : list Warning) : EnvI :=
  mkEnvI (decls env) (functions env) (flat_ env) (output env) x (failed_ env)
         (callStack env) (idStack env) (maxCallStack env) (inRedundantConstraint env)
         (inSymmetryBreakingConstraint env) (inMaybePartial env) (fopts_debug env)
         (arrayEnumDecls env).
Definition set_failed (env : EnvI) (x : bool) : EnvI :=
  mkEnvI (decls env) (functions env) (flat_ env) (output env) (warnings env) x
         (callStack env) (idStack env) (maxCallStack env) (inRedundantConstraint env)
         (inSymmetryBreakingConstraint env) (inMaybePartial env) (fopts_debug env)
         (arrayEnumDecls env).
Definition set_callStack (env : EnvI) (x : list (Expression * bool)) : EnvI :=
  mkEnvI (decls env) (functions env) (flat_ env) (output env) (warnings env) (failed_ env)
         x (idStack env) (maxCallStack env) (inRedundantConstraint env)
         (inSymmetryBreakingConstraint env) (inMaybePartial env) (fopts_debug env)
         (arrayEnumDecls env).
Definition set_idStack (env : EnvI) (x : list Z) : EnvI :=
  mkEnvI (decls env) (functions env) (flat_ env) (output env) (warnings env) (failed_ env)
         (callStack env) x (maxCallStack env) (inRedundantConstraint env)
         (inSymmetryBreakingConstraint env) (inMaybePartial env) (fopts_debug env)
         (arrayEnumDecls env).
Definition set_maxCallStack (env : EnvI) (x : Z) : EnvI :=
  mkEnvI (decls env) (functions env) (flat_ env) (output env) (warnings env) (failed_ env)
         (callStack env) (idStack env) x (inRedundantConstraint env)
         (inSymmetryBreakingConstraint env) (inMaybePartial env) (fopts_debug env)
         (arrayEnumDecls env).
Definition set_inRedundantConstraint (env : EnvI) (x : Z) : EnvI :=
  mkEnvI (decls env) (functions env) (flat_ env) (output env) (warnings env) (failed_ env)
         (callStack env) (idStack env) (maxCallStack env) x
         (inSymmetryBreakingConstraint env) (inMaybePartial env) (fopts_debug env)
         (arrayEnumDecls env).
Definition set_inSymmetryBreakingConstraint (env : EnvI) (x : Z) : EnvI :=
  mkEnvI (decls env) (functions env) (flat_ env) (output env) (warnings env) (failed_ env)
         (callStack env) (idStack env) (maxCallStack env) (inRedundantConstraint env)
         x (inMaybePartial env) (fopts_debug env) (arrayEnumDecls env).
Definition set_inMaybePartial (env : EnvI) (x : Z) : EnvI :=
  mkEnvI (decls env) (functions env) (flat_ env) (output env) (warnings env) (failed_ env)
         (callStack env) (idStack env) (maxCallStack env) (inRedundantConstraint env)
         (inSymmetryBreakingConstraint env) x (fopts_debug env) (arrayEnumDecls env).

(** The environment right after construction ([EnvI::EnvI]): empty flat
    and output models, not failed. *)
Definition init (ds : list VarDeclRec) (fs : list FunctionI) : EnvI :=
  mkEnvI ds fs [] [] [] false [] [] 0 0 0 0 false [].
End Env.

(** ** The declaration store *)

Fixpoint list_set {A : Type} (l : list A) (i : nat) (x : A) : list A :=
  match l, i with
  | [], _ => []
  | _ :: t, O => x :: t
  | h :: t, S j => h :: list_set t j x
  end.

Definition get_decl (env : EnvI) (r : VarDeclRef) : option VarDeclRec :=
  nth_error (decls env) r.
Definition get_fn (env : EnvI) (r : FnRef) : option FunctionI :=
  nth_error (functions env) r.

Definition VarDecl_set_e (vd : VarDeclRec) (x : option Expression) : VarDeclRec :=
  mkVarDecl (vd_type vd) (vd_ann vd) (vd_id vd) (vd_ti vd) x (vd_flat vd)
            (vd_evaluated vd) (vd_toplevel vd) (vd_introduced vd).
Definition VarDecl_set_flat (vd : VarDeclRec) (x : option VarDeclRef) : VarDeclRec :=
  mkVarDecl (vd_type vd) (vd_ann vd) (vd_id vd) (vd_ti vd) (vd_e vd) x
            (vd_evaluated vd) (vd_toplevel vd) (vd_introduced vd).
Definition VarDecl_set_evaluated (vd : VarDeclRec) (x : bool) : VarDeclRec :=
  mkVarDecl (vd_type vd) (vd_ann vd) (vd_id vd) (vd_ti vd) (vd_e vd) (vd_flat vd)
            x (vd_toplevel vd) (vd_introduced vd).

Definition update_decl (env : EnvI) (r : VarDeclRef) (f : VarDeclRec -> VarDeclRec) : EnvI :=
  match get_decl env r with
  | Some vd => Env.set_decls env (list_set (decls env) r (f vd))
  | None => env
  end.

(** [domain()] and [ranges()] of a type-inst expression. *)
Definition ti_domain (ti : Expression) : option Expression :=
  match node ti with TypeInst _ d => d | _ => None end.
Definition ti_ranges (ti : Expression) : list Expression :=
  match node ti with TypeInst r _ => r | _ => [] end.

(* ================================================================== *)
(** * The state-and-exception monad *)

Definition M (A : Type) : Type := EnvI -> Result A * EnvI.

Definition ret {A : Type} (a : A) : M A := fun env => (Ok a, env).
Definition throw {A : Type} (ex : Exception) : M A := fun env => (Throw ex, env).
Definition diverge {A : Type} : M A := fun env => (Diverge, env).

Definition mbind {A B : Type} (m : M A) (k : A -> M B) : M B :=
  fun env =>
    match m env with
    | (Ok a, env') => k a env'
    | (Throw ex, env') => (Throw ex, env')
    | (Diverge, env') => (Diverge, env')
    end.

Declare Scope monad_scope.
Delimit Scope monad_scope with monad.
Notation "x <- m ;; k" := (mbind m (fun x => k))
  (at level 61, m at next level, right associativity) : monad_scope.
Notation "m ;;; k" := (mbind m (fun _ => k))
  (at level 61, right associativity) : monad_scope.
Local Open Scope monad_scope.

Definition get_env : M EnvI := fun env => (Ok env, env).
Definition modify (f : EnvI -> EnvI) : M unit := fun env => (Ok tt, f env).
Definition lift {A : Type} (r : Result A) : M A := fun env => (r, env).

(** [try { m } catch (ResultUndefinedError&) { h }] *)
Definition catch_undefined {A : Type} (m : M A) (h : M A) : M A :=
  fun env =>
    match m env with
    | (Throw (ResultUndefinedError _), env') => h env'
    | r => r
    end.

(** [try { m } catch (ArithmeticError& err) { throw EvalError(err.msg()) }] *)
Definition arith_to_eval {A : Type} (m : M A) : M A :=
  fun env =>
    match m env with
    | (Throw (ArithmeticError msg), env') => (Throw (EvalError msg), env')
    | r => r
    end.

(** A scope guard: [fin] runs when [m] is left, normally or by exception
    (a C++ destructor). *)
Definition finally {A : Type} (m : M A) (fin : EnvI -> EnvI) : M A :=
  fun env => let '(r, env') := m env in (r, fin env').

Fixpoint mapM {A B : Type} (f : A -> M B) (l : list A) : M (list B) :=
  match l with
  | [] => ret []
  | x :: t => y <- f x ;; ys <- mapM f t ;; ret (y :: ys)
  end.

Fixpoint forM_ {A : Type} (f : A -> M unit) (l : list A) : M unit :=
  match l with
  | [] => ret tt
  | x :: t => f x ;;; forM_ f t
  end.

(** [env.getArrayEnum(id)] (flatten.cpp): the vector registered under the
    1-based [id]. *)
Definition getArrayEnum (env : EnvI) (i : N) : list N :=
  nth (N.to_nat i - 1) (arrayEnumDecls env) [].

(** ** [CallStackItem] (flatten.cpp)

    The constructor pushes the expression on the call stack and bumps the
    counters; the destructor undoes this.  ([checkCancel] is an external
    cancellation request and is not modelled.) *)
Inductive CSIType : Type := CSI_NONE | CSI_VD | CSI_REDUNDANT | CSI_SYMMETRY.

Definition CallStackItem_enter (e : Expression) (env : EnvI) : (CSIType * bool) * EnvI :=
  let '(csiType, env1) :=
    match node e with
    | VarDecl _ =>
        (CSI_VD, Env.set_idStack env (idStack env ++ [Z.of_nat (List.length (callStack env))]))
    | Call id _ _ =>
        if String.eqb id constants.ids.redundant_constraint then
          (CSI_REDUNDANT, Env.set_inRedundantConstraint env (inRedundantConstraint env + 1))
        else if String.eqb id constants.ids.symmetry_breaking_constraint then
          (CSI_SYMMETRY,
           Env.set_inSymmetryBreakingConstraint env (inSymmetryBreakingConstraint env + 1))
        else (CSI_NONE, env)
    | _ => (CSI_NONE, env)
    end in
  let '(maybePartial, env2) :=
    if ann_contains (ann e) constants.ann.maybe_partial
    then (true, Env.set_inMaybePartial env1 (inMaybePartial env1 + 1))
    else (false, env1) in
  let env3 := Env.set_callStack env2 (callStack env2 ++ [(e, false)]) in
  let env4 := Env.set_maxCallStack env3
                (Z.max (maxCallStack env3) (Z.of_nat (List.length (callStack env3)))) in
  ((csiType, maybePartial), env4).

Definition CallStackItem_leave (c : CSIType * bool) (env : EnvI) : EnvI :=
  let env1 :=
    match fst c with
    | CSI_NONE => env
    | CSI_VD => Env.set_idStack env (removelast (idStack env))
    | CSI_REDUNDANT => Env.set_inRedundantConstraint env (inRedundantConstraint env - 1)
    | CSI_SYMMETRY =>
        Env.set_inSymmetryBreakingConstraint env (inSymmetryBreakingConstraint env - 1)
    end in
  let env2 := if snd c then Env.set_inMaybePartial env1 (inMaybePartial env1 - 1) else env1 in
  Env.set_callStack env2 (removelast (callStack env2)).

(** [CallStackItem csi(env, e); m] *)
Definition with_csi {A : Type} (e : Expression) (m : M A) : M A :=
  fun env =>
    let '(c, env1) := CallStackItem_enter e env in
    finally m (CallStackItem_leave c) env1.

(** [EnvI::surroundingCall] *)
Definition surroundingCall (env : EnvI) : option Expression :=
  let n := List.length (callStack env) in
  if (2 <=? n)%nat then
    match nth_error (callStack env) (n - 2) with
    | Some (e, _) => match node e with Call _ _ _ => Some e | _ => None end
    | None => None
    end
  else None.

(** [EnvI::addWarning(loc, msg, dumpStack)] *)
Definition addWarning (loc : Location) (msg : string) (dumpStack : bool) (env : EnvI)
  : Z * EnvI :=
  let n := List.length (warnings env) in
  if (20 <=? n)%nat then
    if (n =? 20)%nat then
      (-1, Env.set_warnings env
             (warnings env ++ [mkWarning None "Further warnings have been suppressed." false]))
    else (-1, env)
  else
    let env' := Env.set_warnings env (warnings env ++ [mkWarning (Some loc) msg dumpStack]) in
    (Z.of_nat (List.length (warnings env')) - 1, env').

(** [EnvI::fail(msg, loc)] *)
Definition fail (msg : string) (loc : Location) : M unit :=
  fun env =>
    if negb (failed_ env) then
      let '(_, env1) :=
        addWarning loc
          (String.append "model inconsistency detected"
             (if String.eqb msg EmptyString then EmptyString else String.append ": " msg))
          true env in
      let env2 := Env.set_failed env1 true in
      let env3 := Env.set_flat env2 (map Item_remove (flat_ env2)) in
      let failedConstraint :=
        new_ConstraintI (Location_introduce Location_) constants.literalFalse in
      let env4 := Env.set_flat env3 (Model_addItem (flat_ env3) failedConstraint) in
      let env5 := Env.set_flat env4
                    (Model_addItem (flat_ env4) (SolveI_sat (Location_introduce Location_))) in
      let env6 := Env.set_output env5 (map Item_remove (output env5)) in
      let env7 := Env.set_output env6
                    (Model_addItem (output env6)
                       (new_OutputI (Location_introduce Location_) (Lit.new_ArrayLit []))) in
      (Throw ModelInconsistent, env7)
    else (Ok tt, env).

(** [EnvI::failed] *)
Definition failed (env : EnvI) : bool := failed_ env.

(* ================================================================== *)
(** * The parameter evaluator (lib/eval_par.cpp) *)

(** The evaluators call each other; [Evals] bundles them so that each body
    below is an ordinary definition taking the bundle for its recursive
    calls.  [evals fuel] ties the knot. *)
Record Evals : Type := mkEvals {
  ev_par : Expression -> M Expression;
  ev_int : Expression -> M IntVal;
  ev_bool : Expression -> M bool;
  ev_float : Expression -> M FloatVal;
  ev_string : Expression -> M string;
  ev_intset : Expression -> M IntSetVal;
  ev_floatset : Expression -> M FloatSetVal;
  ev_boolset : Expression -> M IntSetVal;
  ev_array_lit : Expression -> M Expression
}.

(** What the evaluator takes from code that is not among the sources
    (builtins.cpp, values.hh, iter.hh, ast.cpp, copy.cpp, the newer
    eval_par.hh) or lies outside the properties studied here (the index-set
    and domain checks of declarations, which only ever return or throw).
    All results below hold for every choice of these. *)
Record Oracles : Type := mkOracles {
  (** [FunctionI::builtins.{e,i,b,f,s,fs,str}]: a builtin implementation,
      when the function has one. *)
  builtins_e : FnRef -> option (Evals -> Expression -> M Expression);
  builtins_i : FnRef -> option (Evals -> Expression -> M IntVal);
  builtins_b : FnRef -> option (Evals -> Expression -> M bool);
  builtins_f : FnRef -> option (Evals -> Expression -> M FloatVal);
  builtins_s : FnRef -> option (Evals -> Expression -> M IntSetVal);
  builtins_fs : FnRef -> option (Evals -> Expression -> M FloatSetVal);
  builtins_str : FnRef -> option (Evals -> Expression -> M string);
  (** [eval_comp<Eval>]: the elements of a comprehension, each evaluated by
      [Eval::e], and the index sets of the result. *)
  eval_comp : forall V : Type,
      Evals -> (Expression -> M V) -> Expression -> M (list V * list (Z * Z));
  (** [IntVal::pow] and the arithmetic of [FloatVal]. *)
  IntVal_pow : IntVal -> IntVal -> Result IntVal;
  FloatVal_plus : FloatVal -> FloatVal -> Result FloatVal;
  FloatVal_minus : FloatVal -> FloatVal -> Result FloatVal;
  FloatVal_mult : FloatVal -> FloatVal -> Result FloatVal;
  FloatVal_div : FloatVal -> FloatVal -> Result FloatVal;
  FloatVal_neg : FloatVal -> Result FloatVal;
  std_pow : FloatVal -> FloatVal -> Result FloatVal;
  (** Construction of range sets and the range iterators of iter.hh. *)
  IntSetVal_a : list IntVal -> IntSetVal;
  FloatSetVal_a : list FloatVal -> FloatSetVal;
  FloatSetVal_a_range : FloatVal -> FloatVal -> FloatSetVal;
  FloatSetVal_ai : IntSetVal -> FloatSetVal;
  Ranges_union : IntSetVal -> IntSetVal -> IntSetVal;
  Ranges_diff : IntSetVal -> IntSetVal -> IntSetVal;
  Ranges_inter : IntSetVal -> IntSetVal -> IntSetVal;
  Ranges_less : IntSetVal -> IntSetVal -> bool;
  Ranges_less_eq : IntSetVal -> IntSetVal -> bool;
  Ranges_equal : IntSetVal -> IntSetVal -> bool;
  Ranges_subset : IntSetVal -> IntSetVal -> bool;
  Ranges_cardinality : IntSetVal -> IntVal;
  FRanges_union : FloatSetVal -> FloatSetVal -> FloatSetVal;
  FRanges_diff : FloatSetVal -> FloatSetVal -> FloatSetVal;
  FRanges_inter : FloatSetVal -> FloatSetVal -> FloatSetVal;
  (** [Expression::equal], [follow_id], [follow_id_to_value] (ast.cpp). *)
  Expression_equal : Expression -> Expression -> bool;
  (** [operator<<] on an expression (prettyprinter.cpp). *)
  print_expr : EnvI -> Expression -> string;
  follow_id : EnvI -> Expression -> Expression;
  follow_id_to_value : EnvI -> Expression -> Expression;
  (** Struct types: [env.getStructType(t)] and the field names of
      [env.getRecordType(t)], with the order [RecordFieldSort]. *)
  getStructType : EnvI -> Type_ -> list Type_;
  getRecordType_fieldNames : EnvI -> Type_ -> list string;
  RecordFieldSort : string -> string -> bool;
  (** [check_index_sets] (flatten.cpp), [check_par_domain] and
      [Eval::checkRetVal] (eval_par.cpp): checks that return or throw. *)
  check_index_sets : Evals -> VarDeclRef -> Expression -> bool -> M unit;
  check_par_domain : Evals -> VarDeclRef -> Expression -> bool -> M unit;
  checkRetVal_IntVal : Evals -> IntVal -> FnRef -> M unit;
  checkRetVal_FloatVal : Evals -> FloatVal -> FnRef -> M unit;
  checkRetVal_ArrayLitCopy : Evals -> Expression -> FnRef -> M unit;
  checkRetVal_IntSet : Evals -> IntSetVal -> FnRef -> M unit;
  checkRetVal_FloatSet : Evals -> FloatSetVal -> FnRef -> M unit;
  check_struct_retval : Evals -> Expression -> FnRef -> M unit;
  (** [EnvI::createAnnotationArray] and [EnvI::enumToString] (flatten.cpp);
      both run the flattener or the string evaluator on a library call. *)
  createAnnotationArray : BCtx -> M Expression;
  enumToString : N -> Z -> M string;
  (** [compute_intset_bounds] (the set-of-int bounds visitor). *)
  compute_intset_bounds : Evals -> Expression -> M (option IntSetVal)
}.

Module IntSetVal_.
Definition empty (s : IntSetVal) : bool :=
  match s with [] => true | _ => false end.
Definition size (s : IntSetVal) : nat := List.length s.
(** [min(i)] and [max(i)] of the i-th range. *)
Definition min_i (s : IntSetVal) (i : nat) : IntVal := fst (nth i s (IntPlusInf, IntMinusInf)).
Definition max_i (s : IntSetVal) (i : nat) : IntVal := snd (nth i s (IntPlusInf, IntMinusInf)).
(** [min()] and [max()]: the least and the greatest element; an empty set
    has them swapped ([infinity] and [-infinity]). *)
Definition min (s : IntSetVal) : IntVal := min_i s 0.
Definition max (s : IntSetVal) : IntVal := max_i s (size s - 1).
Definition contains (s : IntSetVal) (v : IntVal) : bool :=
  existsb (fun r => IntVal_.leb (fst r) v && IntVal_.leb v (snd r)) s.
(** [IntSetVal::a(l, u)]: the inclusive range [l..u]. *)
Definition a_range (l u : IntVal) : IntSetVal :=
  if IntVal_.ltb u l then [] else [(l, u)].
End IntSetVal_.

Module FloatVal_.
Definition prec : Z := 53.
Definition emax : Z := 1024.
(** [static_cast<double>(z)] *)
Definition of_Z (z : Z) : FloatVal := binary_normalize prec emax z 0 false.
Definition of_bool (b : bool) : FloatVal := of_Z (if b then 1 else 0).
Definition zero : FloatVal := S754_zero false.
(** [a == b], [a < b], [a <= b] on doubles. *)
Definition eqb (a b : FloatVal) : bool := SFeqb a b.
Definition ltb (a b : FloatVal) : bool := SFltb a b.
Definition leb (a b : FloatVal) : bool := SFleb a b.
End FloatVal_.

Module FloatSetVal_.
Definition min (s : FloatSetVal) : FloatVal :=
  fst (nth 0 s (S754_infinity false, S754_infinity true)).
Definition max (s : FloatSetVal) : FloatVal :=
  snd (nth (List.length s - 1) s (S754_infinity false, S754_infinity true)).
Definition contains (s : FloatSetVal) (v : FloatVal) : bool :=
  existsb (fun r => FloatVal_.leb (fst r) v && FloatVal_.leb v (snd r)) s.
End FloatSetVal_.

(** Dereferencing a declaration or function pointer.  A dangling index has
    no counterpart in the C++ program; the model reports it as an internal
    error. *)
Definition deref (r : VarDeclRef) : M VarDeclRec :=
  fun env => match get_decl env r with
             | Some vd => (Ok vd, env)
             | None => (Throw (InternalError "invalid VarDecl pointer"), env)
             end.
Definition deref_fn (r : FnRef) : M FunctionI :=
  fun env => match get_fn env r with
             | Some f => (Ok f, env)
             | None => (Throw (InternalError "invalid FunctionI pointer"), env)
             end.

(** [while (vd->flat() && vd->flat() != vd) vd = vd->flat();]
    A chain longer than [n] steps is a cycle: the loop does not end. *)
Fixpoint follow_flat (n : nat) (env : EnvI) (r : VarDeclRef) : Result VarDeclRef :=
  match get_decl env r with
  | None => Throw (InternalError "invalid VarDecl pointer")
  | Some vd =>
      match vd_flat vd with
      | None => Ok r
      | Some r' =>
          if Nat.eqb r' r then Ok r
          else match n with
               | O => Diverge
               | S n' => follow_flat n' env r'
               end
      end
  end.

(** The [Eval] policy classes: result type, [e], [exp] and [checkRetVal]
    (classes without [checkRetVal] are never used with [eval_call]; theirs
    is the empty check here). *)
Record EvalClass (V : Type) : Type := mkEvalClass {
  E_e : Expression -> M V;
  E_exp : V -> Expression;
  E_checkRetVal : V -> FnRef -> M unit
}.
Arguments mkEvalClass {V} _ _ _.

Definition no_check {V : Type} : V -> FnRef -> M unit := fun _ _ => ret tt.

Section EvalClasses.
Variable orc : Oracles.
Variable rec : Evals.

(** [copy(env, e, true)]: a deep copy; values are immutable here. *)
Definition copy (e : Expression) : Expression := e.

(** [eval_set_lit] *)
Definition eval_set_lit (e : Expression) : M Expression :=
  match bt (type e) with
  | BT_INT | BT_BOT =>
      s <- ev_intset rec e ;;
      let sl := Lit.new_SetLit_isv s in
      if negb (typeId (type e) =? 0)%N
      then ret (with_type sl (Ty.set_typeId (type sl) (typeId (type e))))
      else ret sl
  | BT_BOOL =>
      s <- ev_boolset rec e ;;
      ret (with_type (Lit.new_SetLit_isv s) Ty.parsetbool)
  | BT_FLOAT =>
      s <- ev_floatset rec e ;;
      ret (Lit.new_SetLit_fsv s)
  | _ => throw (InternalError "invalid set literal type")
  end.

Definition EvalIntLit : EvalClass Expression :=
  mkEvalClass (fun e => v <- ev_int rec e ;; ret (Lit.IntLit_a v)) (fun e => e) no_check.
Definition EvalIntVal : EvalClass IntVal :=
  mkEvalClass (ev_int rec) Lit.IntLit_a (checkRetVal_IntVal orc rec).
Definition EvalFloatVal : EvalClass FloatVal :=
  mkEvalClass (ev_float rec) Lit.FloatLit_a (checkRetVal_FloatVal orc rec).
Definition EvalFloatLit : EvalClass Expression :=
  mkEvalClass (fun e => v <- ev_float rec e ;; ret (Lit.FloatLit_a v)) (fun e => e) no_check.
Definition EvalString : EvalClass string :=
  mkEvalClass (ev_string rec) Lit.new_StringLit no_check.
Definition EvalStringLit : EvalClass Expression :=
  mkEvalClass (fun e => s <- ev_string rec e ;; ret (Lit.new_StringLit s)) (fun e => e) no_check.
Definition EvalBoolLit : EvalClass Expression :=
  mkEvalClass (fun e => b <- ev_bool rec e ;; ret (Lit.boollit b)) (fun e => e) no_check.
Definition EvalBoolVal : EvalClass bool :=
  mkEvalClass (ev_bool rec) Lit.boollit no_check.
Definition EvalArrayLit : EvalClass Expression :=
  mkEvalClass (ev_array_lit rec) (fun e => e) no_check.
Definition EvalArrayLitCopy : EvalClass Expression :=
  mkEvalClass (fun e => al <- ev_array_lit rec e ;; ret (copy al)) (fun e => e)
              (checkRetVal_ArrayLitCopy orc rec).
Definition EvalIntSet : EvalClass IntSetVal :=
  mkEvalClass (ev_intset rec) Lit.new_SetLit_isv (checkRetVal_IntSet orc rec).
Definition EvalFloatSet : EvalClass FloatSetVal :=
  mkEvalClass (ev_floatset rec) Lit.new_SetLit_fsv (checkRetVal_FloatSet orc rec).
Definition EvalBoolSet : EvalClass IntSetVal :=
  mkEvalClass (ev_boolset rec)
              (fun s => with_type (Lit.new_SetLit_isv s) Ty.parsetbool) no_check.
Definition EvalSetLit : EvalClass Expression :=
  mkEvalClass eval_set_lit (fun e => e) no_check.
Definition EvalFloatSetLit : EvalClass Expression :=
  mkEvalClass (fun e => s <- ev_floatset rec e ;; ret (Lit.new_SetLit_fsv s))
              (fun e => e) no_check.
Definition EvalBoolSetLit : EvalClass Expression :=
  mkEvalClass (fun e => s <- ev_boolset rec e ;;
                        ret (with_type (Lit.new_SetLit_isv s) Ty.parsetbool))
              (fun e => e) no_check.
Definition EvalCopy : EvalClass Expression :=
  mkEvalClass (fun e => ret (copy e)) (fun e => e) no_check.
Definition EvalPar : EvalClass Expression :=
  mkEvalClass (ev_par rec) (fun e => e)
              (fun v fi =>
                 f <- deref_fn fi ;;
                 if Ty.structBT (type (fi_ti f)) then check_struct_retval orc rec v fi
                 else ret tt).

(** [eval_id<E>] *)
Definition eval_id {V : Type} (E : EvalClass V) (e : Expression) : M V :=
  match node e with
  | Id _ None => throw (EvalError "undeclared identifier")
  | Id _ (Some d) =>
      env <- get_env ;;
      vdr <- lift (follow_flat (List.length (decls env)) env d) ;;
      vd <- deref vdr ;;
      match vd_e vd with
      | None => throw (EvalError "cannot evaluate expression")
      | Some vde =>
          r <- E_e E vde ;;
          vd' <- deref vdr ;;
          let e_is_id :=
            match vd_e vd' with
            | Some x => match node x with Id _ _ => true | _ => false end
            | None => false
            end in
          (if negb (vd_evaluated vd')
              && (vd_toplevel vd' || (negb e_is_id && (0 <? dim (vd_type vd'))))
           then modify (fun env =>
                  update_decl env vdr (fun x =>
                    VarDecl_set_evaluated (VarDecl_set_e x (Some (E_exp E r))) true))
           else ret tt) ;;;
          ret r
      end
  | _ => throw (InternalError "bad cast to Id")
  end.

(** The callee and the arguments of a [Call], [BinOp] or [UnOp]. *)
Definition call_decl (ce : Expression) : option FnRef :=
  match node ce with
  | Call _ _ d => d
  | BinOp _ _ _ d => d
  | UnOp _ _ d => d
  | _ => None
  end.
Definition call_args (ce : Expression) : list Expression :=
  match node ce with
  | Call _ a _ => a
  | BinOp l _ r _ => [l; r]
  | UnOp _ x _ => [x]
  | _ => []
  end.

(** [(decl() != nullptr) && (decl()->e() != nullptr)] *)
Definition has_body (env : EnvI) (d : option FnRef) : bool :=
  match d with
  | Some f => match get_fn env f with
              | Some fi => match fi_e fi with Some _ => true | None => false end
              | None => false
              end
  | None => false
  end.

(** [~EvalCallCleanup]: every parameter gets its previous right-hand side
    back. *)
Definition EvalCallCleanup_restore (ps : list VarDeclRef) (prev : list (option Expression))
           (cap : option VarDeclRef) (prevCap : option Expression) (env : EnvI) : EnvI :=
  let env1 :=
    fold_left (fun env pr =>
                 update_decl env (fst pr) (fun vd =>
                   VarDecl_set_flat (VarDecl_set_e vd (snd pr))
                     (match snd pr with None => None | Some _ => Some (fst pr) end)))
              (combine ps prev) env in
  match cap with
  | Some c =>
      update_decl env1 c (fun vd =>
        VarDecl_set_flat (VarDecl_set_e vd prevCap)
          (match prevCap with None => None | Some _ => Some c end))
  | None => env1
  end.

(** [eval_call<Eval, CallClass>] *)
Definition eval_call {V : Type} (E : EvalClass V) (ce : Expression) : M V :=
  match call_decl ce with
  | None => throw (InternalError "call without declaration")
  | Some f =>
      fi <- deref_fn f ;;
      let n := List.length (fi_params fi) in
      params <- mapM (ev_par rec) (firstn n (call_args ce)) ;;
      (if Nat.ltb (List.length params) n
       then throw (InternalError "missing argument") else ret tt) ;;;
      (* EvalCallCleanup ecc(env, ce) *)
      prev <- mapM (fun p => vd <- deref p ;; ret (vd_e vd)) (fi_params fi) ;;
      prevCap <- match fi_capturedAnnotationsVar fi with
                 | Some c =>
                     vd <- deref c ;;
                     modify (fun env => update_decl env c (fun x =>
                               VarDecl_set_flat x (Some c))) ;;;
                     a <- createAnnotationArray orc C_MIX ;;
                     modify (fun env => update_decl env c (fun x =>
                               VarDecl_set_e x (Some a))) ;;;
                     ret (vd_e vd)
                 | None => ret None
                 end ;;
      finally
        (forM_ (fun pr : VarDeclRef * Expression =>
                  let '(vd, p) := pr in
                  check_index_sets orc rec vd p true ;;;
                  modify (fun env => update_decl env vd (fun x =>
                            VarDecl_set_e (VarDecl_set_flat x (Some vd)) (Some p))) ;;;
                  if Ty.isPar (type p) then check_par_domain orc rec vd p true else ret tt)
               (rev (combine (fi_params fi) params)) ;;;
         match fi_e fi with
         | None => throw (InternalError "function without body")
         | Some body =>
             r <- E_e E body ;;
             E_checkRetVal E r f ;;;
             ret r
         end)
        (EvalCallCleanup_restore (fi_params fi) prev (fi_capturedAnnotationsVar fi) prevCap)
  end.

(** The element vector, index sets and flags of an evaluated array. *)
Definition al_v (al : Expression) : list Expression :=
  match node al with ArrayLit v _ _ _ => v | _ => [] end.
Definition al_dims (al : Expression) : list (Z * Z) :=
  match node al with ArrayLit _ d _ _ => d | _ => [] end.
Definition al_flat (al : Expression) : bool :=
  match node al with ArrayLit _ _ f _ => f | _ => false end.
Definition al_isTuple (al : Expression) : bool :=
  match node al with ArrayLit _ _ _ t => t | _ => false end.
Definition al_set_flat (al : Expression) (f : bool) : Expression :=
  match al with
  | Expr t a (ArrayLit v d _ tup) => Expr t a (ArrayLit v d f tup)
  | _ => al
  end.

(** [eval_fieldaccess] *)
Definition eval_fieldaccess (fa : Expression) : M Expression :=
  match node fa with
  | FieldAccess v field =>
      al <- ev_array_lit rec v ;;
      match node al with
      | ArrayLit elems _ _ _ =>
          i <- ev_int rec field ;;
          if IntVal_.ltb i (IntFin 1)
             || IntVal_.ltb (IntFin (Z.of_nat (List.length elems))) i
          then throw (EvalError "Internal error: accessing invalid field")
          else
            iz <- lift (IntVal_.toInt i) ;;
            match nth_error elems (Z.to_nat (iz - 1)) with
            | Some x => ret x
            | None => throw (InternalError "index out of range")
            end
      | _ => throw (EvalError "Internal error: could not evaluate structural type")
      end
  | _ => throw (InternalError "bad cast to FieldAccess")
  end.

End EvalClasses.

(** ** Array access *)

(** [ArrayAccessSucess] (sic): the record of a failed access. *)
Record ArrayAccessSucess : Type := mkArrayAccessSucess {
  aas_failed : bool;
  aas_dim : nat;
  aas_dimMin : IntVal;
  aas_dimMax : IntVal;
  aas_idx : IntVal
}.
Definition ArrayAccessSucess_ : ArrayAccessSucess :=
  mkArrayAccessSucess false 0 (IntFin 0) (IntFin 0) (IntFin 0).
(** [success()] *)
Definition success (s : ArrayAccessSucess) : bool := negb (aas_failed s).

Section ArrayAccess.
Variable orc : Oracles.
Variable rec : Evals.

(** [ArrayAccessSucess::errorMessage] *)
Definition errorMessage (s : ArrayAccessSucess) (e : Expression) : M string :=
  env <- get_env ;;
  let oss := "array access out of bounds, " in
  let oss :=
    if 1 <? dim (type e)
    then String.append oss
           (String.append "dimension "
              (String.append (IntVal_.show_Z (Z.of_nat (aas_dim s) + 1)) " of "))
    else oss in
  let oss := String.append oss "array" in
  let oss :=
    match node e with
    | Id _ _ => String.append oss (String.append " `" (String.append (print_expr orc env e) "'"))
    | _ => oss
    end in
  let enumId := typeId (type e) in
  let enumId :=
    if negb (enumId =? 0)%N then nth (aas_dim s) (getArrayEnum env enumId) 0%N
    else enumId in
  if negb (enumId =? 0)%N then
    lo <- lift (IntVal_.toInt (aas_dimMin s)) ;;
    s_lo <- enumToString orc enumId (IntVal_.static_cast_int lo) ;;
    hi <- lift (IntVal_.toInt (aas_dimMax s)) ;;
    s_hi <- enumToString orc enumId (IntVal_.static_cast_int hi) ;;
    ix <- lift (IntVal_.toInt (aas_idx s)) ;;
    s_ix <- enumToString orc enumId (IntVal_.static_cast_int ix) ;;
    ret (String.append oss
           (String.append " has index set "
              (String.append s_lo
                 (String.append ".."
                    (String.append s_hi
                       (String.append ", but given index is " s_ix))))))
  else
    ret (String.append oss
           (String.append " has index set "
              (String.append (IntVal_.show (aas_dimMin s))
                 (String.append ".."
                    (String.append (IntVal_.show (aas_dimMax s))
                       (String.append ", but given index is "
                          (IntVal_.show (aas_idx s)))))))).

(** [ArrayAccessSucess::dummyLiteral]; the recursion through struct types
    is bounded by [n]. *)
Fixpoint dummyLiteral (n : nat) (env : EnvI) (t : Type_) : Result Expression :=
  if Ty.isint t then Ok (Lit.IntLit_a (IntFin 0))
  else if Ty.isbool t then Ok constants.literalFalse
  else if Ty.isfloat t then Ok (Lit.FloatLit_a (FloatVal_.of_Z 0))
  else if Ty.SetType_eqb (st t) ST_SET || Ty.isbot t
  then Ok (with_type (Lit.new_SetLit []) t)
  else if Ty.isstring t then Ok (Lit.new_StringLit EmptyString)
  else if Ty.structBT t then
    match n with
    | O => Diverge
    | S n' =>
        let fix fields (ts : list Type_) : Result (list Expression) :=
          match ts with
          | [] => Ok []
          | x :: r =>
              match dummyLiteral n' env x with
              | Ok d => match fields r with
                        | Ok ds => Ok (d :: ds)
                        | Throw ex => Throw ex
                        | Diverge => Diverge
                        end
              | Throw ex => Throw ex
              | Diverge => Diverge
              end
          end in
        match fields (getStructType orc env t) with
        | Ok fs => Ok (with_type (Lit.constructTuple fs) t)
        | Throw ex => Throw ex
        | Diverge => Diverge
        end
    end
  else Throw (InternalError "unexpected type in array access expression").

(** Modelled from the spec: the index computation of
    [eval_arrayaccess(env, al, idx, success)], a template of the newer
    eval_par.hh which is not among the sources.  "An out-of-bounds access
    raises undefined and the error message includes the offending
    dimension": the indices are evaluated dimension by dimension; the
    first one outside its index set [min..max] is recorded in [success];
    otherwise the row-major position is returned. *)
Fixpoint eval_arrayaccess_index (dims : list (Z * Z)) (idx : list (M IntVal))
         (d : nat) (realidx : Z) : M (ArrayAccessSucess + Z) :=
  match dims, idx with
  | [], [] => ret (inr realidx)
  | (lo, hi) :: dims', ix_m :: idx' =>
      ix <- ix_m ;;
      if IntVal_.ltb ix (IntFin lo) || IntVal_.ltb (IntFin hi) ix
      then ret (inl (mkArrayAccessSucess true d (IntFin lo) (IntFin hi) ix))
      else
        iz <- lift (IntVal_.toInt ix) ;;
        eval_arrayaccess_index dims' idx' (S d) (realidx * (hi - lo + 1) + (iz - lo))
  | _, _ => throw (InternalError "assertion failed: al->dims() == idx.size()")
  end.

(** Modelled from the spec: [eval_arrayaccess(env, al, idx, success)]. *)
Definition eval_arrayaccess_al (al : Expression) (idx : list (M IntVal))
  : M (Expression * ArrayAccessSucess) :=
  r <- eval_arrayaccess_index (al_dims al) idx 0 0 ;;
  match r with
  | inl s =>
      env <- get_env ;;
      d <- lift (dummyLiteral (List.length (decls env)) env (Ty.set_dim (type al) 0)) ;;
      ret (d, s)
  | inr realidx =>
      match nth_error (al_v al) (Z.to_nat realidx) with
      | Some x => ret (x, ArrayAccessSucess_)
      | None => throw (InternalError "assertion failed: realidx <= al->size()")
      end
  end.

(** The loop over the optional indices of an access. *)
Fixpoint any_absent_index (idx : list Expression) : M bool :=
  match idx with
  | [] => ret false
  | i :: t =>
      if Ty.isOpt (type i) then
        v <- ev_par rec i ;;
        if is_absent v then ret true else any_absent_index t
      else any_absent_index t
  end.

(** [eval_arrayaccess(env, e, success)] *)
Definition eval_arrayaccess_success (e : Expression) : M (Expression * ArrayAccessSucess) :=
  match node e with
  | ArrayAccess v idx =>
      al <- ev_array_lit rec v ;;
      hit <- (if Ty.isOpt (type e) then any_absent_index idx else ret false) ;;
      if hit then ret (constants.absent, ArrayAccessSucess_)
      else eval_arrayaccess_al al (map (ev_int rec) idx)
  | _ => throw (InternalError "bad cast to ArrayAccess")
  end.

(** [eval_arrayaccess(env, e)] *)
Definition eval_arrayaccess (e : Expression) : M Expression :=
  r <- eval_arrayaccess_success e ;;
  let '(x, s) := r in
  if success s then ret x
  else
    match node e with
    | ArrayAccess v _ =>
        msg <- errorMessage s v ;;
        throw (ResultUndefinedError msg)
    | _ => throw (InternalError "bad cast to ArrayAccess")
    end.

End ArrayAccess.

(** ** The evaluators *)

Section Evaluator.
Variable orc : Oracles.
Variable rec : Evals.

Let eval_arrayaccess := eval_arrayaccess orc rec.
Let eval_fieldaccess := eval_fieldaccess rec.

(** [for (i...) if (eval_bool(env, ite->ifExpr(i))) return E(ite->thenExpr(i));
    return E(ite->elseExpr());]: the branch that is evaluated. *)
Fixpoint ite_select (its : list (Expression * Expression)) (els : Expression)
  : M Expression :=
  match its with
  | [] => ret els
  | (c, t) :: r => b <- ev_bool rec c ;; if b then ret t else ite_select r els
  end.

(** [eval_par] accepts a null pointer and returns it. *)
Definition eval_par_nullable (e : option Expression) : M (option Expression) :=
  match e with
  | None => ret None
  | Some x => y <- ev_par rec x ;; ret (Some y)
  end.

(** [check_par_declaration] *)
Definition check_par_declaration (r : VarDeclRef) : M unit :=
  vd <- deref r ;;
  match vd_e vd with
  | None => throw (InternalError "null pointer dereference")
  | Some e =>
      check_index_sets orc rec r e false ;;;
      check_par_domain orc rec r e false
  end.

Definition let_decls (items : list Expression) : list VarDeclRef :=
  flat_map (fun i => match node i with VarDecl r => [r] | _ => [] end) items.

(** Modelled from the spec: [LetPushBindings] (ast.hh is not among the
    sources), the scope guard of a let: "a let pushes its declarations
    onto the scope stack"; when the scope is left the declarations get
    their right-hand sides back. *)
Definition LetPushBindings {A : Type} (items : list Expression) (m : M A) : M A :=
  fun env =>
    let saved := map (fun r => (r, get_decl env r)) (let_decls items) in
    finally m
      (fun env' =>
         fold_left (fun e p =>
                      match snd p with
                      | Some vd => update_decl e (fst p) (fun x => VarDecl_set_e x (vd_e vd))
                      | None => e
                      end) saved env')
      env.

(** [vdi->e(eval_par(env, vdi->e())); check_par_declaration(env, vdi);] *)
Definition eval_let_decl (r : VarDeclRef) : M unit :=
  vd <- deref r ;;
  ne <- eval_par_nullable (vd_e vd) ;;
  modify (fun env => update_decl env r (fun x => VarDecl_set_e x ne)) ;;;
  check_par_declaration r.

(** The loop over the items of a par let (all evaluators but
    [eval_bool]). *)
Definition eval_let_items (items : list Expression) : M unit :=
  forM_ (fun item =>
           match node item with
           | VarDecl r => eval_let_decl r
           | _ =>
               b <- ev_bool rec item ;;
               if b then ret tt
               else throw (ResultUndefinedError "constraint in let failed")
           end) items.

(** [eval_array_comp] *)
Definition eval_array_comp (e : Expression) : M Expression :=
  let t := type e in
  let plainParNonAbsent :=
    Ty.Inst_eqb (ti t) TI_PAR && Ty.SetType_eqb (st t) ST_PLAIN
    && Ty.OptType_eqb (ot t) OT_PRESENT in
  a <- (if plainParNonAbsent && Ty.BaseType_eqb (bt t) BT_INT
        then eval_comp orc rec (E_e (EvalIntLit rec)) e
        else if plainParNonAbsent && Ty.BaseType_eqb (bt t) BT_BOOL
        then eval_comp orc rec (E_e (EvalBoolLit rec)) e
        else if plainParNonAbsent && Ty.BaseType_eqb (bt t) BT_FLOAT
        then eval_comp orc rec (E_e (EvalFloatLit rec)) e
        else if Ty.SetType_eqb (st t) ST_SET
        then eval_comp orc rec (E_e (EvalSetLit rec)) e
        else if Ty.BaseType_eqb (bt t) BT_STRING
        then eval_comp orc rec (E_e (EvalStringLit rec)) e
        else eval_comp orc rec (E_e (EvalCopy)) e) ;;
  ret (with_type (Lit.new_ArrayLit_dims (fst a) (snd a)) (type e)).

(** [eval_record_merge]: merge of two field vectors sorted by name. *)
Fixpoint record_merge (n : nat) (names1 names2 : list string) (lhs rhs : list Expression)
  : Result (list Expression) :=
  match n with
  | O => Ok []
  | S n' =>
      let take_rhs :=
        match rhs with
        | x :: rhs' =>
            match record_merge n' names1 (tl names2) lhs rhs' with
            | Ok l => Ok (x :: l)
            | r => r
            end
        | [] => Throw (InternalError "index out of range")
        end in
      let take_lhs :=
        match lhs with
        | x :: lhs' =>
            match record_merge n' (tl names1) names2 lhs' rhs with
            | Ok l => Ok (x :: l)
            | r => r
            end
        | [] => Throw (InternalError "index out of range")
        end in
      match names1, names2 with
      | [], _ => take_rhs
      | _ :: _, [] => take_lhs
      | lhsN :: _, rhsN :: _ =>
          if RecordFieldSort orc lhsN rhsN then take_lhs else take_rhs
      end
  end.

Definition eval_record_merge (lhs rhs : Expression) : M Expression :=
  env <- get_env ;;
  let fields1 := getRecordType_fieldNames orc env (type lhs) in
  let fields2 := getRecordType_fieldNames orc env (type rhs) in
  all_fields <- lift (record_merge (List.length fields1 + List.length fields2)
                                   fields1 fields2 (al_v lhs) (al_v rhs)) ;;
  ret (Lit.constructTuple all_fields).

Definition missing_builtin (id : string) : Exception :=
  EvalError (String.append "internal error: missing builtin '" (String.append id "'")).

(** The [E_CALL] case shared by the typed evaluators: a typed builtin, the
    generic builtin [builtins.e], or the function body. *)
Definition eval_call_case {V : Type} (E : EvalClass V) (self : Expression -> M V)
           (typed : FnRef -> option (Evals -> Expression -> M V))
           (typed_first : bool) (e : Expression) : M V :=
  match node e with
  | Call id _ None => throw (EvalError "undeclared function")
  | Call id _ (Some f) =>
      fi <- deref_fn f ;;
      let generic := match builtins_e orc f with
                     | Some b => Some (x <- b rec e ;; self x)
                     | None => None
                     end in
      let specific := match typed f with
                      | Some b => Some (b rec e)
                      | None => None
                      end in
      match (if typed_first then specific else generic) with
      | Some m => m
      | None =>
          match (if typed_first then generic else specific) with
          | Some m => m
          | None =>
              match fi_e fi with
              | None => throw (missing_builtin id)
              | Some _ => eval_call orc rec E e
              end
          end
      end
  | _ => throw (InternalError "bad cast to Call")
  end.

(** [eval_array_lit] *)
Definition eval_array_lit (e : Expression) : M Expression :=
  with_csi e
    match node e with
    | IntLit _ | FloatLit _ | BoolLit _ | StringLit _ | SetLit _ _ _
    | AnonVar | TypeInst _ _ | TIId _ | VarDecl _ =>
        throw (EvalError "not an array expression")
    | Id _ _ => eval_id (EvalArrayLit rec) e
    | ArrayLit _ _ _ _ => ret e
    | ArrayAccess _ _ =>
        if negb (Ty.structBT (type e))
        then throw (EvalError "arrays of arrays not supported")
        else x <- eval_arrayaccess e ;; ev_array_lit rec x
    | FieldAccess _ _ => x <- eval_fieldaccess e ;; ev_array_lit rec x
    | Comprehension _ _ _ => eval_array_comp e
    | ITE its els => x <- ite_select its els ;; ev_array_lit rec x
    | BinOp lhs op rhs d =>
        match op with
        | BOT_PLUSPLUS =>
            al0 <- ev_array_lit rec lhs ;;
            al1 <- ev_array_lit rec rhs ;;
            let r := Lit.new_ArrayLit (al_v al0 ++ al_v al1) in
            ret (with_type (al_set_flat r (al_flat al0 && al_flat al1)) (type e))
        | _ =>
            env <- get_env ;;
            if has_body env d then eval_call orc rec (EvalArrayLitCopy orc rec) e
            else throw (EvalError "not an array expression")
        end
    | UnOp _ _ d =>
        env <- get_env ;;
        if has_body env d then eval_call orc rec (EvalArrayLitCopy orc rec) e
        else throw (EvalError "not an array expression")
    | Call _ _ _ =>
        eval_call_case (EvalArrayLitCopy orc rec) (ev_array_lit rec) (fun _ => None) true e
    | Let items in_ =>
        LetPushBindings items
          (eval_let_items items ;;;
           l_in <- ev_array_lit rec in_ ;;
           ret (al_set_flat (copy l_in) (al_flat l_in)))
    end.

(** The loop building the value vector of a set literal: absent elements
    are skipped. *)
Definition setlit_values {V : Type} (ev : Expression -> M V) (v : list Expression)
  : M (list V) :=
  l <- mapM (fun x => vi <- ev_par rec x ;;
                      if is_absent vi then ret None
                      else y <- ev vi ;; ret (Some y)) v ;;
  ret (flat_map (fun o => match o with Some y => [y] | None => [] end) l).

(** [eval_intset] *)
Definition eval_intset (e : Expression) : M IntSetVal :=
  match node e with
  | SetLit _ (Some s) _ => ret s
  | _ =>
    with_csi e
      match node e with
      | SetLit v _ _ => vals <- setlit_values (ev_int rec) v ;; ret (IntSetVal_a orc vals)
      | BoolLit _ | IntLit _ | FloatLit _ | StringLit _ | AnonVar | TIId _
      | VarDecl _ | TypeInst _ _ =>
          throw (EvalError "not a set of int expression")
      | ArrayLit v _ _ _ => vals <- mapM (ev_int rec) v ;; ret (IntSetVal_a orc vals)
      | Comprehension _ _ _ =>
          a <- eval_comp orc rec (E_e (EvalIntVal orc rec)) e ;;
          ret (IntSetVal_a orc (fst a))
      | Id _ _ =>
          sl <- eval_id (EvalSetLit rec) e ;;
          match node sl with
          | SetLit _ (Some s) _ => ret s
          | _ => throw (InternalError "null pointer dereference")
          end
      | ArrayAccess _ _ => x <- eval_arrayaccess e ;; ev_intset rec x
      | FieldAccess _ _ => x <- eval_fieldaccess e ;; ev_intset rec x
      | ITE its els => x <- ite_select its els ;; ev_intset rec x
      | BinOp l op r d =>
          env <- get_env ;;
          if has_body env d then eval_call orc rec (EvalIntSet orc rec) e
          else
            lhs <- ev_par rec l ;;
            rhs <- ev_par rec r ;;
            if Ty.isIntSet (type lhs) && Ty.isIntSet (type rhs) then
              v0 <- ev_intset rec lhs ;;
              v1 <- ev_intset rec rhs ;;
              match op with
              | BOT_UNION => ret (Ranges_union orc v0 v1)
              | BOT_DIFF => ret (Ranges_diff orc v0 v1)
              | BOT_SYMDIFF =>
                  ret (Ranges_diff orc (Ranges_union orc v0 v1) (Ranges_inter orc v0 v1))
              | BOT_INTERSECT => ret (Ranges_inter orc v0 v1)
              | _ => throw (EvalError "not a set of int expression")
              end
            else if Ty.isint (type lhs) && Ty.isint (type rhs) then
              match op with
              | BOT_DOTDOT =>
                  a <- ev_int rec lhs ;;
                  b <- ev_int rec rhs ;;
                  ret (IntSetVal_.a_range a b)
              | _ => throw (EvalError "not a set of int expression")
              end
            else throw (EvalError "not a set of int expression")
      | UnOp _ _ d =>
          env <- get_env ;;
          if has_body env d then eval_call orc rec (EvalIntSet orc rec) e
          else throw (EvalError "not a set of int expression")
      | Call _ _ _ =>
          eval_call_case (EvalIntSet orc rec) (ev_intset rec) (builtins_s orc) true e
      | Let items in_ =>
          LetPushBindings items (eval_let_items items ;;; ev_intset rec in_)
      end
  end.

(** [eval_floatset] *)
Definition eval_floatset (e : Expression) : M FloatSetVal :=
  match node e with
  | SetLit _ _ (Some s) => ret s
  | SetLit _ (Some s) None => ret (FloatSetVal_ai orc s)
  | _ =>
    with_csi e
      match node e with
      | SetLit v _ _ => vals <- setlit_values (ev_float rec) v ;; ret (FloatSetVal_a orc vals)
      | BoolLit _ | IntLit _ | FloatLit _ | StringLit _ | AnonVar | TIId _
      | VarDecl _ | TypeInst _ _ =>
          throw (EvalError "not a set of float expression")
      | ArrayLit v _ _ _ => vals <- mapM (ev_float rec) v ;; ret (FloatSetVal_a orc vals)
      | Comprehension _ _ _ =>
          a <- eval_comp orc rec (E_e (EvalFloatVal orc rec)) e ;;
          ret (FloatSetVal_a orc (fst a))
      | Id _ _ => sl <- eval_id (EvalFloatSetLit rec) e ;; ev_floatset rec sl
      | ArrayAccess _ _ => x <- eval_arrayaccess e ;; ev_floatset rec x
      | FieldAccess _ _ => x <- eval_fieldaccess e ;; ev_floatset rec x
      | ITE its els => x <- ite_select its els ;; ev_floatset rec x
      | BinOp l op r d =>
          env <- get_env ;;
          if has_body env d then eval_call orc rec (EvalFloatSet orc rec) e
          else
            lhs <- ev_par rec l ;;
            rhs <- ev_par rec r ;;
            if Ty.isFloatSet (type lhs) && Ty.isFloatSet (type rhs) then
              v0 <- ev_floatset rec lhs ;;
              v1 <- ev_floatset rec rhs ;;
              match op with
              | BOT_UNION => ret (FRanges_union orc v0 v1)
              | BOT_DIFF => ret (FRanges_diff orc v0 v1)
              | BOT_SYMDIFF =>
                  ret (FRanges_diff orc (FRanges_union orc v0 v1) (FRanges_inter orc v0 v1))
              | BOT_INTERSECT => ret (FRanges_inter orc v0 v1)
              | _ => throw (EvalError "not a set of int expression")
              end
            else if Ty.isfloat (type lhs) && Ty.isfloat (type rhs) then
              match op with
              | BOT_DOTDOT =>
                  a <- ev_float rec lhs ;;
                  b <- ev_float rec rhs ;;
                  ret (FloatSetVal_a_range orc a b)
              | _ => throw (EvalError "not a set of float expression")
              end
            else throw (EvalError "not a set of float expression")
      | UnOp _ _ d =>
          env <- get_env ;;
          if has_body env d then eval_call orc rec (EvalFloatSet orc rec) e
          else throw (EvalError "not a set of float expression")
      | Call _ _ _ =>
          eval_call_case (EvalFloatSet orc rec) (ev_floatset rec) (builtins_fs orc) false e
      | Let items in_ =>
          LetPushBindings items (eval_let_items items ;;; ev_floatset rec in_)
      end
  end.

Definition IntVal_of_bool (b : bool) : IntVal := IntFin (if b then 1 else 0).

(** [eval_boolset] *)
Definition eval_boolset (e : Expression) : M IntSetVal :=
  with_csi e
    match node e with
    | SetLit _ (Some s) _ => ret s
    | SetLit v None _ => vals <- setlit_values (ev_int rec) v ;; ret (IntSetVal_a orc vals)
    | BoolLit _ | IntLit _ | FloatLit _ | StringLit _ | AnonVar | TIId _
    | VarDecl _ | TypeInst _ _ =>
        throw (EvalError "not a set of bool expression")
    | ArrayLit v _ _ _ =>
        vals <- mapM (fun x => b <- ev_bool rec x ;; ret (IntVal_of_bool b)) v ;;
        ret (IntSetVal_a orc vals)
    | Comprehension _ _ _ =>
        a <- eval_comp orc rec (E_e (EvalIntVal orc rec)) e ;;
        ret (IntSetVal_a orc (fst a))
    | Id _ _ =>
        sl <- eval_id (EvalBoolSetLit rec) e ;;
        match node sl with
        | SetLit _ (Some s) _ => ret s
        | _ => throw (InternalError "null pointer dereference")
        end
    | ArrayAccess _ _ => x <- eval_arrayaccess e ;; ev_boolset rec x
    | FieldAccess _ _ => x <- eval_fieldaccess e ;; ev_boolset rec x
    | ITE its els => x <- ite_select its els ;; ev_boolset rec x
    | BinOp l op r d =>
        env <- get_env ;;
        if has_body env d then eval_call orc rec (EvalBoolSet rec) e
        else
          lhs <- ev_par rec l ;;
          rhs <- ev_par rec r ;;
          if Ty.isIntSet (type lhs) && Ty.isIntSet (type rhs) then
            v0 <- ev_boolset rec lhs ;;
            v1 <- ev_boolset rec rhs ;;
            match op with
            | BOT_UNION => ret (Ranges_union orc v0 v1)
            | BOT_DIFF => ret (Ranges_diff orc v0 v1)
            | BOT_SYMDIFF =>
                ret (Ranges_diff orc (Ranges_union orc v0 v1) (Ranges_inter orc v0 v1))
            | BOT_INTERSECT => ret (Ranges_inter orc v0 v1)
            | _ => throw (EvalError "not a set of bool expression")
            end
          else if Ty.isbool (type lhs) && Ty.isbool (type rhs) then
            match op with
            | BOT_DOTDOT =>
                a <- ev_bool rec lhs ;;
                b <- ev_bool rec rhs ;;
                ret (IntSetVal_.a_range (IntVal_of_bool a) (IntVal_of_bool b))
            | _ => throw (EvalError "not a set of bool expression")
            end
          else throw (EvalError "not a set of bool expression")
    | UnOp _ _ d =>
        env <- get_env ;;
        if has_body env d then eval_call orc rec (EvalBoolSet rec) e
        else throw (EvalError "not a set of bool expression")
    | Call _ _ _ =>
        eval_call_case (EvalBoolSet rec) (ev_boolset rec) (builtins_s orc) true e
    | Let items in_ =>
        LetPushBindings items (eval_let_items items ;;; ev_boolset rec in_)
    end.

End Evaluator.

Section Evaluator2.
Variable orc : Oracles.
Variable rec : Evals.

Let eval_arrayaccess := eval_arrayaccess orc rec.
Let eval_fieldaccess := eval_fieldaccess rec.
Let ite_select := ite_select rec.
Let eval_let_items := eval_let_items orc rec.

Definition not_a_bool : Exception := EvalError "not a bool expression".

(** The lambdas [struct_equal] and [struct_less] of [eval_bool]. *)
Fixpoint struct_equal (structA structB : list Expression) : M bool :=
  match structA with
  | [] => ret true
  | a :: ra =>
      match structB with
      | [] => throw (InternalError "index out of range")
      | b :: rb =>
          pa <- ev_par rec a ;;
          pb <- ev_par rec b ;;
          if negb (Expression_equal orc pa pb) then ret false
          else struct_equal ra rb
      end
  end.

Fixpoint struct_less (structA structB : list Expression) (allow_equal : bool) : M bool :=
  match structA with
  | [] => ret allow_equal
  | a :: ra =>
      match structB with
      | [] => throw (InternalError "index out of range")
      | b :: rb =>
          parA <- ev_par rec a ;;
          parB <- ev_par rec b ;;
          if negb (Expression_equal orc parA parB)
          then ev_bool rec (Expr Ty.parbool [] (BinOp parA BOT_LE parB None))
          else struct_less ra rb allow_equal
      end
  end.

(** The [BOT_IN] loop of the struct case: every round compares with
    element 0 of [struct1]. *)
Fixpoint struct_in (n : nat) (struct0 struct1 : list Expression) : M bool :=
  match n with
  | O => ret false
  | S n' =>
      match struct1 with
      | [] => throw (InternalError "index out of range")
      | x :: _ =>
          b <- struct_equal struct0 (al_v x) ;;
          if b then ret true else struct_in n' struct0 struct1
      end
  end.

Fixpoint array_equal (a0 a1 : list Expression) : M bool :=
  match a0, a1 with
  | x :: r0, y :: r1 =>
      px <- ev_par rec x ;;
      py <- ev_par rec y ;;
      if negb (Expression_equal orc px py) then ret false else array_equal r0 r1
  | _, _ => ret true
  end.

(** The [E_LET] case of [eval_bool]. *)
Fixpoint eval_bool_let_items (items : list Expression) (r : bool) : M bool :=
  match items with
  | [] => ret r
  | item :: rest =>
      match node item with
      | VarDecl d =>
          vd <- deref d ;;
          ne <- eval_par_nullable rec (vd_e vd) ;;
          modify (fun env => update_decl env d (fun x => VarDecl_set_e x ne)) ;;;
          let maybe_partial := ann_contains (vd_ann vd) constants.ann.maybe_partial in
          (if maybe_partial
           then modify (fun env => Env.set_inMaybePartial env (inMaybePartial env + 1))
           else ret tt) ;;;
          r' <- catch_undefined (check_par_declaration orc rec d ;;; ret r) (ret false) ;;
          (if maybe_partial
           then modify (fun env => Env.set_inMaybePartial env (inMaybePartial env - 1))
           else ret tt) ;;;
          eval_bool_let_items rest r'
      | _ =>
          b <- ev_bool rec item ;;
          if negb b then
            if ann_contains (ann item) constants.ann.maybe_partial
            then eval_bool_let_items rest false
            else throw (ResultUndefinedError "constraint in let failed")
          else eval_bool_let_items rest r
      end
  end.

(** [eval_bool] *)
Definition eval_bool (e : Expression) : M bool :=
  with_csi e
    (catch_undefined
       match node e with
       | BoolLit v => ret v
       | IntLit _ | FloatLit _ | StringLit _ | AnonVar | TIId _ | SetLit _ _ _
       | ArrayLit _ _ _ _ | Comprehension _ _ _ | VarDecl _ | TypeInst _ _ =>
           throw not_a_bool
       | Id _ _ =>
           bl <- eval_id (EvalBoolLit rec) e ;;
           match node bl with
           | BoolLit v => ret v
           | _ => throw (InternalError "bad cast to BoolLit")
           end
       | ArrayAccess _ _ => x <- eval_arrayaccess e ;; ev_bool rec x
       | FieldAccess _ _ => x <- eval_fieldaccess e ;; ev_bool rec x
       | ITE its els => x <- ite_select its els ;; ev_bool rec x
       | BinOp l op r d =>
           lhs <- (if Ty.BaseType_eqb (bt (type l)) BT_TOP then ev_par rec l else ret l) ;;
           rhs <- (if Ty.BaseType_eqb (bt (type r)) BT_TOP then ev_par rec r else ret r) ;;
           env <- get_env ;;
           if has_body env d then eval_call orc rec (EvalBoolVal rec) e
           else if Ty.isbool (type lhs) && Ty.isbool (type rhs) then
             catch_undefined
               match op with
               | BOT_LE => a <- ev_bool rec lhs ;; b <- ev_bool rec rhs ;; ret (negb a && b)
               | BOT_LQ => a <- ev_bool rec lhs ;; b <- ev_bool rec rhs ;; ret (negb a || b)
               | BOT_GR => a <- ev_bool rec lhs ;; b <- ev_bool rec rhs ;; ret (a && negb b)
               | BOT_GQ => a <- ev_bool rec lhs ;; b <- ev_bool rec rhs ;; ret (a || negb b)
               | BOT_EQ => a <- ev_bool rec lhs ;; b <- ev_bool rec rhs ;; ret (Bool.eqb a b)
               | BOT_NQ => a <- ev_bool rec lhs ;; b <- ev_bool rec rhs ;; ret (negb (Bool.eqb a b))
               | BOT_EQUIV => a <- ev_bool rec lhs ;; b <- ev_bool rec rhs ;; ret (Bool.eqb a b)
               | BOT_IMPL => a <- ev_bool rec lhs ;; if negb a then ret true else ev_bool rec rhs
               | BOT_RIMPL => b <- ev_bool rec rhs ;; if negb b then ret true else ev_bool rec lhs
               | BOT_OR => a <- ev_bool rec lhs ;; if a then ret true else ev_bool rec rhs
               | BOT_AND => a <- ev_bool rec lhs ;; if a then ev_bool rec rhs else ret false
               | BOT_XOR => a <- ev_bool rec lhs ;; b <- ev_bool rec rhs ;; ret (xorb a b)
               | _ => throw not_a_bool
               end
               (ret false)
           else if Ty.isint (type lhs) && Ty.isint (type rhs) then
             catch_undefined
               (v0 <- ev_int rec lhs ;;
                v1 <- ev_int rec rhs ;;
                match op with
                | BOT_LE => ret (IntVal_.ltb v0 v1)
                | BOT_LQ => ret (IntVal_.leb v0 v1)
                | BOT_GR => ret (IntVal_.ltb v1 v0)
                | BOT_GQ => ret (IntVal_.leb v1 v0)
                | BOT_EQ => ret (IntVal_.eqb v0 v1)
                | BOT_NQ => ret (negb (IntVal_.eqb v0 v1))
                | _ => throw not_a_bool
                end)
               (ret false)
           else if Ty.isfloat (type lhs) && Ty.isfloat (type rhs) then
             catch_undefined
               (v0 <- ev_float rec lhs ;;
                v1 <- ev_float rec rhs ;;
                match op with
                | BOT_LE => ret (FloatVal_.ltb v0 v1)
                | BOT_LQ => ret (FloatVal_.leb v0 v1)
                | BOT_GR => ret (FloatVal_.ltb v1 v0)
                | BOT_GQ => ret (FloatVal_.leb v1 v0)
                | BOT_EQ => ret (FloatVal_.eqb v0 v1)
                | BOT_NQ => ret (negb (FloatVal_.eqb v0 v1))
                | _ => throw not_a_bool
                end)
               (ret false)
           else if Ty.isint (type lhs) && Ty.isIntSet (type rhs) then
             catch_undefined
               (v0 <- ev_int rec lhs ;;
                v1 <- ev_intset rec rhs ;;
                match op with
                | BOT_IN => ret (IntSetVal_.contains v1 v0)
                | _ => throw not_a_bool
                end)
               (ret false)
           else if Ty.isfloat (type lhs) && Ty.isFloatSet (type rhs) then
             catch_undefined
               (v0 <- ev_float rec lhs ;;
                v1 <- ev_floatset rec rhs ;;
                match op with
                | BOT_IN => ret (FloatSetVal_.contains v1 v0)
                | _ => throw not_a_bool
                end)
               (ret false)
           else if Ty.isSet (type lhs) && Ty.isSet (type rhs) then
             catch_undefined
               (v0 <- ev_intset rec lhs ;;
                v1 <- ev_intset rec rhs ;;
                match op with
                | BOT_LE => ret (Ranges_less orc v0 v1)
                | BOT_LQ => ret (Ranges_less_eq orc v0 v1)
                | BOT_GR => ret (Ranges_less orc v1 v0)
                | BOT_GQ => ret (Ranges_less_eq orc v1 v0)
                | BOT_EQ => ret (Ranges_equal orc v0 v1)
                | BOT_NQ => ret (negb (Ranges_equal orc v0 v1))
                | BOT_SUBSET => ret (Ranges_subset orc v0 v1)
                | BOT_SUPERSET => ret (Ranges_subset orc v1 v0)
                | _ => throw not_a_bool
                end)
               (ret false)
           else if Ty.isstring (type lhs) && Ty.isstring (type rhs) then
             catch_undefined
               (s0 <- ev_string rec lhs ;;
                s1 <- ev_string rec rhs ;;
                match op with
                | BOT_EQ => ret (String.eqb s0 s1)
                | BOT_NQ => ret (negb (String.eqb s0 s1))
                | BOT_LE => ret (String.ltb s0 s1)
                | BOT_LQ => ret (String.leb s0 s1)
                | BOT_GR => ret (String.ltb s1 s0)
                | BOT_GQ => ret (String.leb s1 s0)
                | _ => throw not_a_bool
                end)
               (ret false)
           else if (match op with BOT_EQ => true | _ => false end) && Ty.isAnn (type lhs) then
             ret (Expression_equal orc (follow_id_to_value orc env lhs)
                                       (follow_id_to_value orc env rhs))
           else if Ty.structBT (type lhs) then
             catch_undefined
               (struct0 <- ev_array_lit rec lhs ;;
                struct1 <- ev_array_lit rec rhs ;;
                let s0 := al_v struct0 in
                let s1 := al_v struct1 in
                match op with
                | BOT_EQ => struct_equal s0 s1
                | BOT_NQ => b <- struct_equal s0 s1 ;; ret (negb b)
                | BOT_LE => struct_less s0 s1 false
                | BOT_LQ => struct_less s0 s1 true
                | BOT_GR => struct_less s1 s0 false
                | BOT_GQ => struct_less s1 s0 true
                | BOT_IN => struct_in (List.length s1) s0 s1
                | _ => throw not_a_bool
                end)
               (ret false)
           else if (match op with BOT_EQ => true | _ => false end)
                   && (0 <? dim (type lhs)) && (0 <? dim (type rhs)) then
             catch_undefined
               (al0 <- ev_array_lit rec lhs ;;
                al1 <- ev_array_lit rec rhs ;;
                if negb (Nat.eqb (List.length (al_v al0)) (List.length (al_v al1)))
                then ret false
                else array_equal (al_v al0) (al_v al1))
               (ret false)
           else throw not_a_bool
       | UnOp op x d =>
           env <- get_env ;;
           if has_body env d then eval_call orc rec (EvalBoolVal rec) e
           else
             v0 <- ev_bool rec x ;;
             match op with
             | UOT_NOT => ret (negb v0)
             | _ => throw not_a_bool
             end
       | Call id _ d =>
           catch_undefined
             match d with
             | None => throw (EvalError "undeclared function")
             | Some f =>
                 fi <- deref_fn f ;;
                 env <- get_env ;;
                 match builtins_b orc f with
                 | Some b =>
                     if negb (fopts_debug env)
                        && (String.eqb id constants.ids.assert_dbg
                            || String.eqb id constants.ids.trace_dbg)
                     then ret true
                     else b rec e
                 | None =>
                     match builtins_e orc f with
                     | Some b => x <- b rec e ;; ev_bool rec x
                     | None =>
                         match fi_e fi with
                         | None => throw (missing_builtin id)
                         | Some _ => eval_call orc rec (EvalBoolVal rec) e
                         end
                     end
                 end
             end
             (ret false)
       | Let items in_ =>
           LetPushBindings items
             (r <- eval_bool_let_items items true ;;
              if r then ev_bool rec in_ else ret false)
       end
       (ret false)).

(** [eval_int_internal] *)
Definition eval_int_internal (e : Expression) : M IntVal :=
  if Ty.isbool (type e) then b <- ev_bool rec e ;; ret (IntVal_of_bool b)
  else
    match node e with
    | IntLit v => ret v
    | _ =>
      with_csi e
        (arith_to_eval
           match node e with
           | IntLit _ | FloatLit _ | BoolLit _ | StringLit _ | AnonVar | TIId _
           | SetLit _ _ _ | ArrayLit _ _ _ _ | Comprehension _ _ _ | VarDecl _
           | TypeInst _ _ =>
               throw (EvalError "not an integer expression")
           | Id _ _ =>
               il <- eval_id (EvalIntLit rec) e ;;
               match node il with
               | IntLit v => ret v
               | _ => throw (InternalError "bad cast to IntLit")
               end
           | ArrayAccess _ _ => x <- eval_arrayaccess e ;; ev_int rec x
           | FieldAccess _ _ => x <- eval_fieldaccess e ;; ev_int rec x
           | ITE its els => x <- ite_select its els ;; ev_int rec x
           | BinOp lhs op rhs d =>
               env <- get_env ;;
               if has_body env d then eval_call orc rec (EvalIntVal orc rec) e
               else
                 v0 <- ev_int rec lhs ;;
                 v1 <- ev_int rec rhs ;;
                 match op with
                 | BOT_PLUS => lift (IntVal_.plus v0 v1)
                 | BOT_MINUS => lift (IntVal_.minus v0 v1)
                 | BOT_MULT => lift (IntVal_.mult v0 v1)
                 | BOT_POW =>
                     if IntVal_.eqb v0 (IntFin 0) && IntVal_.ltb v1 (IntFin 0)
                     then throw (ResultUndefinedError "negative power of zero is undefined")
                     else lift (IntVal_pow orc v0 v1)
                 | BOT_IDIV =>
                     if IntVal_.eqb v1 (IntFin 0)
                     then throw (ResultUndefinedError "division by zero")
                     else lift (IntVal_.div v0 v1)
                 | BOT_MOD =>
                     if IntVal_.eqb v1 (IntFin 0)
                     then throw (ResultUndefinedError "division by zero")
                     else lift (IntVal_.mod_ v0 v1)
                 | _ => throw (EvalError "not an integer expression")
                 end
           | UnOp op x d =>
               env <- get_env ;;
               if has_body env d then eval_call orc rec (EvalIntVal orc rec) e
               else
                 v0 <- ev_int rec x ;;
                 match op with
                 | UOT_PLUS => ret v0
                 | UOT_MINUS => ret (IntVal_.neg v0)
                 | _ => throw (EvalError "not an integer expression")
                 end
           | Call _ _ _ =>
               eval_call_case orc rec (EvalIntVal orc rec) (ev_int rec) (builtins_i orc) true e
           | Let items in_ =>
               LetPushBindings items (eval_let_items items ;;; ev_int rec in_)
           end)
    end.

(** [eval_float] *)
Definition eval_float (e : Expression) : M FloatVal :=
  if Ty.isint (type e) then
    v <- ev_int rec e ;; z <- lift (IntVal_.toInt v) ;; ret (FloatVal_.of_Z z)
  else if Ty.isbool (type e) then
    b <- ev_bool rec e ;; ret (FloatVal_.of_bool b)
  else
    with_csi e
      (arith_to_eval
         match node e with
         | FloatLit v => ret v
         | IntLit _ | BoolLit _ | StringLit _ | AnonVar | TIId _ | SetLit _ _ _
         | ArrayLit _ _ _ _ | Comprehension _ _ _ | VarDecl _ | TypeInst _ _ =>
             throw (EvalError "not a float expression")
         | Id _ _ =>
             fl <- eval_id (EvalFloatLit rec) e ;;
             match node fl with
             | FloatLit v => ret v
             | _ => throw (InternalError "bad cast to FloatLit")
             end
         | ArrayAccess _ _ => x <- eval_arrayaccess e ;; ev_float rec x
         | FieldAccess _ _ => x <- eval_fieldaccess e ;; ev_float rec x
         | ITE its els => x <- ite_select its els ;; ev_float rec x
         | BinOp lhs op rhs d =>
             env <- get_env ;;
             if has_body env d then eval_call orc rec (EvalFloatVal orc rec) e
             else
               v0 <- ev_float rec lhs ;;
               v1 <- ev_float rec rhs ;;
               match op with
               | BOT_PLUS => lift (FloatVal_plus orc v0 v1)
               | BOT_MINUS => lift (FloatVal_minus orc v0 v1)
               | BOT_MULT => lift (FloatVal_mult orc v0 v1)
               | BOT_POW => lift (std_pow orc v0 v1)
               | BOT_DIV =>
                   if FloatVal_.eqb v1 FloatVal_.zero
                   then throw (ResultUndefinedError "division by zero")
                   else lift (FloatVal_div orc v0 v1)
               | _ => throw (EvalError "not a float expression")
               end
         | UnOp op x d =>
             env <- get_env ;;
             if has_body env d then eval_call orc rec (EvalFloatVal orc rec) e
             else
               v0 <- ev_float rec x ;;
               match op with
               | UOT_PLUS => ret v0
               | UOT_MINUS => lift (FloatVal_neg orc v0)
               | _ => throw (EvalError "not a float expression")
               end
         | Call _ _ _ =>
             eval_call_case orc rec (EvalFloatVal orc rec) (ev_float rec) (builtins_f orc) true e
         | Let items in_ =>
             LetPushBindings items (eval_let_items items ;;; ev_float rec in_)
         end).

(** [eval_string] *)
Definition eval_string (e : Expression) : M string :=
  with_csi e
    match node e with
    | StringLit s => ret s
    | FloatLit _ | IntLit _ | BoolLit _ | AnonVar | TIId _ | SetLit _ _ _
    | ArrayLit _ _ _ _ | Comprehension _ _ _ | VarDecl _ | TypeInst _ _ =>
        throw (EvalError "not a string expression")
    | Id _ _ =>
        sl <- eval_id (EvalStringLit rec) e ;;
        match node sl with
        | StringLit s => ret s
        | _ => throw (InternalError "bad cast to StringLit")
        end
    | ArrayAccess _ _ => x <- eval_arrayaccess e ;; ev_string rec x
    | FieldAccess _ _ => x <- eval_fieldaccess e ;; ev_string rec x
    | ITE its els => x <- ite_select its els ;; ev_string rec x
    | BinOp lhs op rhs d =>
        env <- get_env ;;
        if has_body env d then eval_call orc rec (EvalString rec) e
        else
          v0 <- ev_string rec lhs ;;
          v1 <- ev_string rec rhs ;;
          match op with
          | BOT_PLUSPLUS => ret (String.append v0 v1)
          | _ => throw (EvalError "not a string expression")
          end
    | UnOp _ _ d =>
        env <- get_env ;;
        if has_body env d then eval_call orc rec (EvalString rec) e
        else throw (EvalError "not a string expression")
    | Call _ _ _ =>
        eval_call_case orc rec (EvalString rec) (ev_string rec) (builtins_str orc) true e
    | Let items in_ =>
        LetPushBindings items (eval_let_items items ;;; ev_string rec in_)
    end.

End Evaluator2.

Section EvalPar.
Variable orc : Oracles.
Variable rec : Evals.

Let eval_arrayaccess := eval_arrayaccess orc rec.
Let eval_fieldaccess := eval_fieldaccess rec.
Let eval_let_items := eval_let_items orc rec.

(** [!ali->isa<IntLit>() && !ali->isa<FloatLit>() && !ali->isa<BoolLit>() &&
    !(ali->isa<SetLit>() && ali->cast<SetLit>()->evaluated())] *)
Definition is_flat_element (ali : Expression) : bool :=
  match node ali with
  | IntLit _ | FloatLit _ | BoolLit _ => true
  | SetLit _ isv fsv => SetLit_evaluated isv fsv
  | _ => false
  end.

(** The loop of the [E_ARRAYLIT] case: evaluated elements and [allFlat]. *)
Fixpoint eval_par_elements (v : list Expression) : M (list Expression * bool) :=
  match v with
  | [] => ret ([], true)
  | ali :: r =>
      x <- (if negb (is_flat_element ali)
            then y <- ev_par rec ali ;; ret (y, false)
            else ret (ali, true)) ;;
      rs <- eval_par_elements r ;;
      ret (fst x :: fst rs, snd x && snd rs)
  end.

(** [for (unsigned int i = n; (i--) != 0U;) args[i] = eval_par(env, v[i]);]
    evaluates the last element first. *)
Definition mapM_rev {A B : Type} (f : A -> M B) (l : list A) : M (list B) :=
  r <- mapM f (rev l) ;; ret (rev r).

Definition first_bt (v : list Expression) (t : Type_) : Type_ :=
  match v with
  | x :: _ => Ty.set_bt t (bt (type x))
  | [] => t
  end.

(** The [E_ITE] case of [eval_par]. *)
Fixpoint eval_par_ite (t : Type_) (all its : list (Expression * Expression))
         (els : Expression) : M Expression :=
  match its with
  | [] => ev_par rec els
  | (c, th) :: r =>
      if Ty.eqb (type c) Ty.parbool then
        b <- ev_bool rec c ;;
        if b then ev_par rec th else eval_par_ite t all r els
      else
        e_ifthen <- mapM (fun p : Expression * Expression =>
                            i <- ev_par rec (fst p) ;;
                            th' <- ev_par rec (snd p) ;;
                            ret (i, th')) all ;;
        els' <- ev_par rec els ;;
        ret (Expr t [] (ITE e_ifthen els'))
  end.

(** [eval_par] (for a non-null expression; see [eval_par_nullable]). *)
Definition eval_par (e : Expression) : M Expression :=
  let array_case :=
    al <- ev_array_lit rec e ;;
    r <- eval_par_elements (al_v al) ;;
    let '(args, allFlat) := r in
    if allFlat then ret al
    else
      let ret_ :=
        if al_isTuple al then Lit.constructTuple args
        else Lit.new_ArrayLit_dims args (al_dims al) in
      let t := type al in
      let t := if Ty.isbot t then first_bt args t else t in
      ret (with_type ret_ t) in
  match node e with
  | AnonVar | TIId _ => ret e
  | Comprehension true _ _ => eval_set_lit rec e
  | Comprehension false _ _ => array_case
  | ArrayLit _ _ _ _ => array_case
  | VarDecl _ => throw (EvalError "cannot evaluate variable declaration")
  | TypeInst ranges domain =>
      r <- mapM_rev (ev_par rec) ranges ;;
      d <- eval_par_nullable rec domain ;;
      ret (Expr (type e) [] (TypeInst r d))
  | Id _ decl =>
      if is_absent e then ret e
      else
        match decl with
        | None =>
            if Ty.isAnn (type e) then ret e
            else throw (EvalError "undefined identifier")
        | Some d =>
            vd <- deref d ;;
            shortcut <-
              match ti_domain (vd_ti vd) with
              | Some dom =>
                  if Ty.isPresent (vd_type vd) then
                    match node dom with
                    | BoolLit _ => ret (Some dom)
                    | _ =>
                        if Ty.isint (type (vd_ti vd)) then
                          match node dom with
                          | SetLit _ (Some isv) _ =>
                              if IntVal_.eqb (IntSetVal_.min isv) (IntSetVal_.max isv)
                              then ret (Some (Lit.IntLit_a (IntSetVal_.min isv)))
                              else ret None
                          | _ => ret None
                          end
                        else if Ty.isfloat (type (vd_ti vd)) then
                          fsv <- ev_floatset rec dom ;;
                          if FloatVal_.eqb (FloatSetVal_.min fsv) (FloatSetVal_.max fsv)
                          then ret (Some (Lit.FloatLit_a (FloatSetVal_.min fsv)))
                          else ret None
                        else ret None
                    end
                  else ret None
              | None => ret None
              end ;;
            match shortcut with
            | Some r => ret r
            | None =>
                vd' <- deref d ;;
                match vd_e vd' with
                | None => ret e
                | Some x => ev_par rec x
                end
            end
        end
  | StringLit _ => ret e
  | _ =>
      if negb (dim (type e) =? 0) then
        al <- ev_array_lit rec e ;;
        args <- mapM_rev (ev_par rec) (al_v al) ;;
        let ret_ := Lit.new_ArrayLit_dims args (al_dims al) in
        let t := type al in
        let t := if Ty.BaseType_eqb (bt t) BT_BOT || Ty.BaseType_eqb (bt t) BT_TOP
                 then first_bt args t else t in
        ret (with_type ret_ t)
      else if Ty.isPar (type e) && Ty.isSet (type e) then eval_set_lit rec e
      else if Ty.isPar (type e) && Ty.eqb (type e) Ty.parint then E_e (EvalIntLit rec) e
      else if Ty.isPar (type e) && Ty.eqb (type e) Ty.parbool then E_e (EvalBoolLit rec) e
      else if Ty.isPar (type e) && Ty.eqb (type e) Ty.parfloat then E_e (EvalFloatLit rec) e
      else if Ty.isPar (type e) && Ty.eqb (type e) Ty.parstring
      then E_e (EvalStringLit rec) e
      else
        match node e with
        | ITE its els => eval_par_ite (type e) its its els
        | Call id args d =>
            match d with
            | Some f =>
                fi <- deref_fn f ;;
                match builtins_e orc f with
                | Some b => x <- b rec e ;; ev_par rec x
                | None =>
                    match fi_e fi with
                    | None =>
                        if String.eqb id constants.ids.deopt
                           && match args with
                              | a0 :: _ => Expression_equal orc a0 constants.absent
                              | [] => false
                              end
                        then throw (ResultUndefinedError "deopt(<>) is undefined")
                        else ret e
                    | Some _ => eval_call orc rec (EvalPar orc rec) e
                    end
                end
            | None =>
                args' <- mapM (ev_par rec) args ;;
                ret (Expr (type e) [] (Call id args' None))
            end
        | BinOp lhs op rhs d =>
            env <- get_env ;;
            if has_body env d then eval_call orc rec (EvalPar orc rec) e
            else
              l <- ev_par rec lhs ;;
              r <- ev_par rec rhs ;;
              let nbo := Expr (type e) [] (BinOp l op r None) in
              if (match op with BOT_PLUSPLUS => true | _ => false end)
                 && Ty.structBT (type nbo) then
                if Ty.isrecord (type nbo) then
                  a <- ev_array_lit rec l ;;
                  b <- ev_array_lit rec r ;;
                  m <- eval_record_merge orc a b ;;
                  ret (with_type m (type nbo))
                else
                  al <- ev_array_lit rec nbo ;;
                  ret (with_type (Lit.constructTuple (al_v al)) (type nbo))
              else ret nbo
        | UnOp op x d =>
            env <- get_env ;;
            if has_body env d then eval_call orc rec (EvalPar orc rec) e
            else
              x' <- ev_par rec x ;;
              ret (Expr (type e) [] (UnOp op x' None))
        | ArrayAccess v idx =>
            if forallb (fun i => Ty.isPar (type i)) idx then
              x <- eval_arrayaccess e ;; ev_par rec x
            else
              idx' <- mapM (ev_par rec) idx ;;
              v' <- ev_par rec v ;;
              ret (Expr (type e) [] (ArrayAccess v' idx'))
        | FieldAccess _ _ => x <- eval_fieldaccess e ;; ev_par rec x
        | Let items in_ =>
            LetPushBindings items (eval_let_items items ;;; ev_par rec in_)
        | _ => ret e
        end
  end.

(** One unfolding of all evaluators over [rec]. *)
Definition evals_step : Evals :=
  mkEvals eval_par
          (eval_int_internal orc rec)
          (eval_bool orc rec)
          (eval_float orc rec)
          (eval_string orc rec)
          (eval_intset orc rec)
          (eval_floatset orc rec)
          (eval_boolset orc rec)
          (eval_array_lit orc rec).

End EvalPar.

(** Evaluators that never return: fuel exhausted. *)
Definition evals_bottom : Evals :=
  mkEvals (fun _ => diverge) (fun _ => diverge) (fun _ => diverge) (fun _ => diverge)
          (fun _ => diverge) (fun _ => diverge) (fun _ => diverge) (fun _ => diverge)
          (fun _ => diverge).

(** The evaluators with recursion depth at most [fuel]. *)
Fixpoint evals (orc : Oracles) (fuel : nat) : Evals :=
  match fuel with
  | O => evals_bottom
  | S n => evals_step orc (evals orc n)
  end.

(** [eval_int] is declared in eval_par.hh; it is [eval_int_internal]. *)
Definition eval_int (orc : Oracles) (fuel : nat) : Expression -> M IntVal :=
  ev_int (evals orc fuel).

(* ================================================================== *)
(** * Bounds inference (lib/eval_par.cpp, §4.3.1) *)

(** [IntBounds] (eval_par.hh) *)
Record IntBounds : Type := mkIntBounds {
  ib_l : IntVal;
  ib_u : IntVal;
  ib_valid : bool
}.

Definition Bounds : Type := (IntVal * IntVal)%type.

(** The state of the visitor [ComputeIntBounds]: the stack [bounds] (its
    back is the head of the list) and the flag [valid]. *)
Record ComputeIntBounds : Type := mkCIB {
  cb_bounds : list Bounds;
  cb_valid : bool
}.

Definition ComputeIntBounds_ : ComputeIntBounds := mkCIB [] true.

Module CIB.
(** [bounds.emplace_back(l, u)] *)
Definition push (cb : ComputeIntBounds) (l u : IntVal) : ComputeIntBounds :=
  mkCIB ((l, u) :: cb_bounds cb) (cb_valid cb).
(** [valid = false] *)
Definition invalidate (cb : ComputeIntBounds) : ComputeIntBounds :=
  mkCIB (cb_bounds cb) false.
(** [valid = false; bounds.emplace_back(0, 0)] *)
Definition invalid (cb : ComputeIntBounds) : ComputeIntBounds :=
  push (invalidate cb) (IntFin 0) (IntFin 0).
(** [bounds.back()] then [bounds.pop_back()]; on an empty vector the C++
    behaviour is undefined, reported here as an internal error. *)
Definition pop (cb : ComputeIntBounds) : M (Bounds * ComputeIntBounds) :=
  match cb_bounds cb with
  | b :: r => ret (b, mkCIB r (cb_valid cb))
  | [] => throw (InternalError "back() of an empty vector")
  end.
Fixpoint popn (n : nat) (cb : ComputeIntBounds) : M ComputeIntBounds :=
  match n with
  | O => ret cb
  | S n' => r <- pop cb ;; popn n' (snd r)
  end.
End CIB.

Definition min4 (x0 x1 x2 x3 : IntVal) : IntVal :=
  IntVal_.min x0 (IntVal_.min x1 (IntVal_.min x2 x3)).
Definition max4 (x0 x1 x2 x3 : IntVal) : IntVal :=
  IntVal_.max x0 (IntVal_.max x1 (IntVal_.max x2 x3)).

(** The four corner values [op(b0.first, b1.first)], [op(b0.first,
    b1.second)], [op(b0.second, b1.first)], [op(b0.second, b1.second)]
    followed by [std::min] and [std::max] over them. *)
Definition corners (op : IntVal -> IntVal -> Result IntVal) (b0f b0s b1f b1s : IntVal)
  : M Bounds :=
  x0 <- lift (op b0f b1f) ;;
  x1 <- lift (op b0f b1s) ;;
  x2 <- lift (op b0s b1f) ;;
  x3 <- lift (op b0s b1s) ;;
  ret (min4 x0 x1 x2 x3, max4 x0 x1 x2 x3).

(** [b == 0 ? 1 : b] and [b == 0 ? -1 : b] *)
Definition zero_to_one (b : IntVal) : IntVal :=
  if IntVal_.eqb b (IntFin 0) then IntFin 1 else b.
Definition zero_to_minus_one (b : IntVal) : IntVal :=
  if IntVal_.eqb b (IntFin 0) then IntFin (-1) else b.

(** [ComputeIntBounds::vBinOp] *)
Definition vBinOp (op : BinOpType) (cb : ComputeIntBounds) : M ComputeIntBounds :=
  r1 <- CIB.pop cb ;;
  let '(b1, cb) := r1 in
  r0 <- CIB.pop cb ;;
  let '(b0, cb) := r0 in
  if negb (IntVal_.isFinite (fst b1)) || negb (IntVal_.isFinite (snd b1))
     || negb (IntVal_.isFinite (fst b0)) || negb (IntVal_.isFinite (snd b0))
  then ret (CIB.invalid cb)
  else
    match op with
    | BOT_PLUS =>
        lo <- lift (IntVal_.plus (fst b0) (fst b1)) ;;
        hi <- lift (IntVal_.plus (snd b0) (snd b1)) ;;
        ret (CIB.push cb lo hi)
    | BOT_MINUS =>
        lo <- lift (IntVal_.minus (fst b0) (snd b1)) ;;
        hi <- lift (IntVal_.minus (snd b0) (fst b1)) ;;
        ret (CIB.push cb lo hi)
    | BOT_MULT =>
        mn <- corners IntVal_.mult (fst b0) (snd b0) (fst b1) (snd b1) ;;
        ret (CIB.push cb (fst mn) (snd mn))
    | BOT_IDIV =>
        let b0f := zero_to_one (fst b0) in
        let b0s := zero_to_minus_one (snd b0) in
        let b1f := zero_to_one (fst b1) in
        let b1s := zero_to_minus_one (snd b1) in
        mn <- corners IntVal_.div b0f b0s b1f b1s ;;
        ret (CIB.push cb (fst mn) (snd mn))
    | BOT_MOD =>
        let b0f := zero_to_one (fst b0) in
        let b0s := zero_to_minus_one (snd b0) in
        let b1f := zero_to_one (fst b1) in
        let b1s := zero_to_minus_one (snd b1) in
        mn <- corners IntVal_.mod_ b0f b0s b1f b1s ;;
        ret (CIB.push cb (fst mn) (snd mn))
    | _ => ret (CIB.invalid cb)
    end.

(** [ComputeIntBounds::vUnOp] *)
Definition vUnOp (op : UnOpType) (cb : ComputeIntBounds) : M ComputeIntBounds :=
  match op with
  | UOT_PLUS => ret cb
  | UOT_MINUS =>
      r <- CIB.pop cb ;;
      let '(b, cb') := r in
      ret (CIB.push cb' (IntVal_.neg (snd b)) (IntVal_.neg (fst b)))
  | UOT_NOT => ret (CIB.invalidate cb)
  end.

Section ComputeIntBoundsVisitor.
Variable orc : Oracles.
Variable ev : Evals.
(** [cbi.run(e)] for a [BottomUpIterator<ComputeIntBounds> cbi] on this
    visitor. *)
Variable run : Expression -> ComputeIntBounds -> M ComputeIntBounds.

(** [back.first = std::min(itebounds.first, back.first);
    back.second = std::max(itebounds.second, back.second);] *)
Definition merge_back (itebounds : Bounds) (cb : ComputeIntBounds) : M ComputeIntBounds :=
  r <- CIB.pop cb ;;
  let '(back, cb') := r in
  ret (CIB.push cb' (IntVal_.min (fst itebounds) (fst back))
                    (IntVal_.max (snd itebounds) (snd back))).

(** The if-then-else loop of [enter]. *)
Fixpoint enter_ite (its : list (Expression * Expression)) (els : Expression)
         (itebounds : Bounds) (cb : ComputeIntBounds) : M ComputeIntBounds :=
  match its with
  | [] => cb' <- run els cb ;; merge_back itebounds cb'
  | (c, th) :: r =>
      if Ty.isPar (type c) && negb (cv (type c)) then
        b <- ev_bool ev c ;;
        if b then cb' <- run th cb ;; merge_back itebounds cb'
        else enter_ite r els itebounds cb
      else
        cb' <- run th cb ;;
        p <- CIB.pop cb' ;;
        let '(back, cb'') := p in
        enter_ite r els (IntVal_.min (fst itebounds) (fst back),
                         IntVal_.max (snd itebounds) (snd back)) cb''
  end.

(** [ComputeIntBounds::enter] *)
Definition enter (e : Expression) (cb : ComputeIntBounds) : M (bool * ComputeIntBounds) :=
  if Ty.isAnn (type e) then ret (false, cb)
  else if (match node e with VarDecl _ => true | _ => false end) then ret (false, cb)
  else if 0 <? dim (type e) then ret (false, cb)
  else if Ty.isPar (type e) && negb (cv (type e)) then
    exp <- ev_par ev e ;;
    if Ty.isint (type e) && negb (is_absent exp) then
      match node exp with
      | IntLit v => ret (false, CIB.push cb v v)
      | _ => throw (InternalError "bad cast to IntLit")
      end
    else ret (false, CIB.invalidate cb)
  else if Ty.isint (type e) then
    match node e with
    | ITE its els =>
        cb' <- enter_ite its els (IntPlusInf, IntMinusInf) cb ;;
        ret (false, cb')
    | _ => ret (true, cb)
    end
  else ret (false, cb).

(** The bounds of a declared domain: [isv->min(0)] and
    [isv->max(isv->size() - 1)]. *)
Definition domain_bounds (isv : IntSetVal) : Bounds :=
  (IntSetVal_.min_i isv 0, IntSetVal_.max_i isv (IntSetVal_.size isv - 1)).

(** [ComputeIntBounds::vId] *)
Definition vId (e : Expression) (cb : ComputeIntBounds) : M ComputeIntBounds :=
  match node e with
  | Id _ (Some d) =>
      env <- get_env ;;
      vdr <- lift (follow_flat (List.length (decls env)) env d) ;;
      vd <- deref vdr ;;
      match ti_domain (vd_ti vd) with
      | Some dom =>
          isv <- ev_intset ev dom ;;
          if IntSetVal_.empty isv then ret (CIB.invalid cb)
          else ret (CIB.push cb (fst (domain_bounds isv)) (snd (domain_bounds isv)))
      | None =>
          match vd_e vd with
          | Some x => run x cb
          | None => ret (CIB.push cb IntMinusInf IntPlusInf)
          end
      end
  | _ => throw (InternalError "null pointer dereference")
  end.

(** [while (id->decl()->e() != nullptr && id->decl()->e()->isa<Id>())
      id = id->decl()->e()->cast<Id>();] *)
Fixpoint follow_id_chain (n : nat) (env : EnvI) (d : VarDeclRef) : Result VarDeclRec :=
  match get_decl env d with
  | None => Throw (InternalError "invalid VarDecl pointer")
  | Some vd =>
      match vd_e vd with
      | Some x =>
          match node x with
          | Id _ (Some d') =>
              match n with
              | O => Diverge
              | S n' => follow_id_chain n' env d'
              end
          | Id _ None => Throw (InternalError "null pointer dereference")
          | _ => Ok vd
          end
      | None => Ok vd
      end
  end.

(** [ComputeIntBounds::vArrayAccess] *)
Definition vArrayAccess (aa : Expression) (cb : ComputeIntBounds) : M ComputeIntBounds :=
  match node aa with
  | ArrayAccess v idx =>
      cb1 <- CIB.popn (List.length idx) cb ;;
      let parAccess := forallb (fun i => Ty.isPar (type i)) idx in
      let fallback := ret (CIB.invalid cb1) in
      match node v with
      | Id _ (Some d) =>
          env <- get_env ;;
          vd <- lift (follow_id_chain (List.length (decls env)) env d) ;;
          done <-
            (if parAccess && (match vd_e vd with Some _ => true | None => false end) then
               r <- eval_arrayaccess_success orc ev aa ;;
               if success (snd r) then cb2 <- run (fst r) cb1 ;; ret (Some cb2)
               else ret None
             else ret None) ;;
          match done with
          | Some cb2 => ret cb2
          | None =>
              match ti_domain (vd_ti vd) with
              | Some dom =>
                  isv <- ev_intset ev dom ;;
                  if negb (IntSetVal_.empty isv)
                  then ret (CIB.push cb1 (fst (domain_bounds isv)) (snd (domain_bounds isv)))
                  else fallback
              | None => fallback
              end
          end
      | Id _ None => throw (InternalError "null pointer dereference")
      | _ => fallback
      end
  | _ => throw (InternalError "bad cast to ArrayAccess")
  end.

(** The first loop of the [lin_exp]/[sum] case of [vCall]: the elements
    are visited from the last to the first; when one is invalid, the
    bounds of those already visited are popped. *)
Fixpoint visit_elements (revs : list Expression) (visited : nat) (cb : ComputeIntBounds)
  : M (bool * ComputeIntBounds) :=
  match revs with
  | [] => ret (true, cb)
  | x :: r =>
      cb' <- run x cb ;;
      if negb (cb_valid cb') then
        cb'' <- CIB.popn visited cb' ;; ret (false, cb'')
      else visit_elements r (S visited) cb'
  end.

(** The second loop: the dot product of the bounds with the coefficients. *)
Fixpoint lin_bounds (coeffs : list (M IntVal)) (lb ub : IntVal) (cb : ComputeIntBounds)
  : M (Bounds * ComputeIntBounds) :=
  match coeffs with
  | [] => ret ((lb, ub), cb)
  | c :: r =>
      p <- CIB.pop cb ;;
      let '(b, cb') := p in
      cv <- c ;;
      let add (acc x : IntVal) : M IntVal :=
        if IntVal_.isFinite x then
          if IntVal_.isFinite acc then
            y <- lift (IntVal_.mult cv x) ;; lift (IntVal_.plus acc y)
          else ret acc
        else ret x in
      let add_neg (acc x : IntVal) : M IntVal :=
        if IntVal_.isFinite x then
          if IntVal_.isFinite acc then
            y <- lift (IntVal_.mult cv x) ;; lift (IntVal_.plus acc y)
          else ret acc
        else ret (IntVal_.neg x) in
      if IntVal_.ltb (IntFin 0) cv then
        lb' <- add lb (fst b) ;;
        ub' <- add ub (snd b) ;;
        lin_bounds r lb' ub' cb'
      else
        lb' <- add_neg lb (snd b) ;;
        ub' <- add_neg ub (fst b) ;;
        lin_bounds r lb' ub' cb'
  end.

(** [ComputeIntBounds::vCall] *)
Definition vCall (c : Expression) (cb : ComputeIntBounds) : M ComputeIntBounds :=
  match node c with
  | Call id args decl =>
      if String.eqb id constants.ids.lin_exp || String.eqb id constants.ids.sum then
        let le := String.eqb id constants.ids.lin_exp in
        coeff <- (if le then
                    match nth_error args 0 with
                    | Some a0 => x <- ev_array_lit ev a0 ;; ret (Some x)
                    | None => throw (InternalError "index out of range")
                    end
                  else ret None) ;;
        match nth_error args (if le then 1 else 0)%nat with
        | None => throw (InternalError "index out of range")
        | Some arr =>
            if Ty.isOpt (type arr) then ret (CIB.invalid cb)
            else
              env <- get_env ;;
              let al := follow_id orc env arr in
              match node al with
              | ArrayLit elems _ _ _ =>
                  cb1 <- (if le then p <- CIB.pop cb ;; ret (snd p) else ret cb) ;;
                  d <- (if le then
                          match nth_error args 2 with
                          | Some a2 => match node a2 with
                                       | IntLit v => ret v
                                       | _ => throw (InternalError "bad cast to IntLit")
                                       end
                          | None => throw (InternalError "index out of range")
                          end
                        else ret (IntFin 0)) ;;
                  r <- visit_elements (rev elems) 0 cb1 ;;
                  let '(ok, cb2) := r in
                  if negb ok then ret cb2
                  else
                    let coeffs :=
                      match coeff with
                      | Some cf =>
                          map (fun i => match nth_error (al_v cf) i with
                                        | Some x => ev_int ev x
                                        | None => throw (InternalError "index out of range")
                                        end) (seq 0 (List.length elems))
                      | None => map (fun _ => ret (IntFin 1)) elems
                      end in
                    lu <- lin_bounds coeffs d d cb2 ;;
                    ret (CIB.push (snd lu) (fst (fst lu)) (snd (fst lu)))
              | _ => ret (CIB.invalid cb)
              end
        end
      else if String.eqb id constants.ids.card then
        match args with
        | a0 :: _ =>
            o <- compute_intset_bounds orc ev a0 ;;
            match o with
            | Some isv => ret (CIB.push cb (IntFin 0) (Ranges_cardinality orc isv))
            | None => ret (CIB.invalid cb)
            end
        | [] => throw (InternalError "index out of range")
        end
      else if String.eqb id constants.ids.int_times then
        r1 <- CIB.pop cb ;;
        let '(b1, cb) := r1 in
        r0 <- CIB.pop cb ;;
        let '(b0, cb) := r0 in
        if negb (IntVal_.isFinite (fst b1)) || negb (IntVal_.isFinite (snd b1))
           || negb (IntVal_.isFinite (fst b0)) || negb (IntVal_.isFinite (snd b0))
        then ret (CIB.invalid cb)
        else
          mn <- corners IntVal_.mult (fst b0) (snd b0) (fst b1) (snd b1) ;;
          ret (CIB.push cb (fst mn) (snd mn))
      else if String.eqb id constants.ids.bool2int then
        ret (CIB.push cb (IntFin 0) (IntFin 1))
      else if String.eqb id constants.ids.abs then
        match cb_bounds cb with
        | b0 :: rest =>
            if IntVal_.ltb (fst b0) (IntFin 0) then
              let cb' := mkCIB rest (cb_valid cb) in
              if IntVal_.ltb (snd b0) (IntFin 0)
              then ret (CIB.push cb' (IntVal_.neg (snd b0)) (IntVal_.neg (fst b0)))
              else ret (CIB.push cb' (IntFin 0)
                                 (IntVal_.max (IntVal_.neg (fst b0)) (snd b0)))
            else ret cb
        | [] => throw (InternalError "back() of an empty vector")
        end
      else
        env <- get_env ;;
        let dom :=
          match decl with
          | Some f => match get_fn env f with
                      | Some fi => ti_domain (fi_ti fi)
                      | None => None
                      end
          | None => None
          end in
        match dom with
        | Some dm =>
            if (match node dm with TIId _ => true | _ => false end)
            then ret (CIB.invalid cb)
            else
              cb1 <- CIB.popn (List.length (filter (fun a => Ty.isint (type a)) args)) cb ;;
              isv <- ev_intset ev dm ;;
              ret (CIB.push cb1 (IntSetVal_.min isv) (IntSetVal_.max isv))
        | None => ret (CIB.invalid cb)
        end
  | _ => throw (InternalError "bad cast to Call")
  end.

(** Modelled from the spec: the children of a node in the order in which
    [BottomUpIterator] (astiterator.hh, not among the sources) visits
    them.  "Two post-order visitors": the operands of a binary operator
    are visited left to right ([vBinOp] pops the bounds of the right
    operand first), the array of an access before its indices
    ([vArrayAccess] pops one entry per index), the arguments of a call
    from the last to the first ([vCall] finds the constant, the third
    argument of [lin_exp], on top of the stack). *)
Definition children (e : Expression) : list Expression :=
  match node e with
  | SetLit v _ _ => rev v
  | ArrayLit v _ _ _ => rev v
  | ArrayAccess v idx => v :: rev idx
  | FieldAccess v _ => [v]
  | ITE its els => rev (els :: flat_map (fun p => [fst p; snd p]) its)
  | BinOp l _ r _ => [l; r]
  | UnOp _ x _ => [x]
  | Call _ args _ => rev args
  | Let items in_ => rev (in_ :: items)
  | TypeInst r d => rev (match d with Some x => x :: r | None => r end)
  | _ => []
  end.

(** The dispatch of the iterator to the visit methods. *)
Definition visit (e : Expression) (cb : ComputeIntBounds) : M ComputeIntBounds :=
  match node e with
  | IntLit v => ret (CIB.push cb v v)
  | FloatLit _ | BoolLit _ | SetLit _ _ _ | StringLit _ | AnonVar
  | Comprehension _ _ _ | ITE _ _ | Let _ _ | VarDecl _ | TypeInst _ _
  | TIId _ | FieldAccess _ _ => ret (CIB.invalid cb)
  | Id _ _ => vId e cb
  | ArrayLit _ _ _ _ => ret cb
  | ArrayAccess _ _ => vArrayAccess e cb
  | BinOp _ op _ _ => vBinOp op cb
  | UnOp op _ _ => vUnOp op cb
  | Call _ _ _ => vCall e cb
  end.

Fixpoint run_all (l : list Expression) (cb : ComputeIntBounds) : M ComputeIntBounds :=
  match l with
  | [] => ret cb
  | x :: r => cb' <- run x cb ;; run_all r cb'
  end.

(** Modelled from the spec: [BottomUpIterator<ComputeIntBounds>::run], a
    post-order traversal: when [enter] accepts a node, its children are
    visited, then the node itself. *)
Definition run_step (e : Expression) (cb : ComputeIntBounds) : M ComputeIntBounds :=
  r <- enter e cb ;;
  let '(go, cb1) := r in
  if go then cb2 <- run_all (children e) cb1 ;; visit e cb2
  else ret cb1.

End ComputeIntBoundsVisitor.

Fixpoint BottomUpIterator_run (orc : Oracles) (ev : Evals) (fuel : nat)
  : Expression -> ComputeIntBounds -> M ComputeIntBounds :=
  match fuel with
  | O => fun _ _ => diverge
  | S n => run_step orc ev (BottomUpIterator_run orc ev n)
  end.

(** [compute_int_bounds] *)
Definition compute_int_bounds (orc : Oracles) (ev : Evals) (fuel : nat) (e : Expression)
  : M IntBounds :=
  catch_undefined
    (cb <- BottomUpIterator_run orc ev fuel e ComputeIntBounds_ ;;
     if cb_valid cb then
       match cb_bounds cb with
       | [b] => ret (mkIntBounds (fst b) (snd b) true)
       | _ => throw (InternalError "assertion failed: cb.bounds.size() == 1")
       end
     else ret (mkIntBounds (IntFin 0) (IntFin 0) false))
    (ret (mkIntBounds (IntFin 0) (IntFin 0) false)).

(* ================================================================== *)
(** * The flattener (lib/flatten/*.cpp) *)

(** [EE]: a flat result [r] with its definedness witness [b]. *)
Record EE : Type := mkEE {
  ee_r : option Expression;
  ee_b : option Expression
}.
Definition EE_ : EE := mkEE None None.

(** The functions of flatten.cpp that the three flattening cases below call
    but whose bodies are outside the properties studied here, and the
    declarations they use from headers that are not among the sources.
    All results hold for every choice of these. *)
Record FlatOracles : Type := mkFlatOracles {
  (** [bind(env, ctx, vd, e)] (flatten.cpp) *)
  bind : Ctx -> option VarDeclRef -> option Expression -> M (option Expression);
  (** [flat_exp(env, ctx, e, r, b)] *)
  flat_exp : Ctx -> Expression -> option VarDeclRef -> option VarDeclRef -> M EE;
  (** [flat_cv_exp(env, ctx, e)] (flatten.cpp) *)
  flat_cv_exp : Ctx -> Expression -> M (option Expression);
  (** [create_dummy_value(env, t)]: "the type's dummy value". *)
  create_dummy_value : Type_ -> M Expression;
  (** [conj(env, b, ctx, e)] (flatten.cpp) *)
  conj : option VarDeclRef -> Ctx -> list EE -> M (option Expression);
  (** [new_vardecl(env, ctx, ti, origId, origVd, rhs)] (flatten.cpp) *)
  new_vardecl : Ctx -> Expression -> option Expression -> option VarDeclRef ->
                option Expression -> M VarDeclRef;
  (** [eval_typeinst(env, ctx, vd)] (flatten.cpp) *)
  eval_typeinst : Ctx -> VarDeclRef -> M Expression;
  (** [mk_domain_constraint(env, expr, dom)] (flatten.cpp) *)
  mk_domain_constraint : Expression -> Expression -> M Expression;
  (** [flatten_vardecl_annotations(env, origVd, vdi, toAnnotate)] *)
  flatten_vardecl_annotations : VarDeclRef -> VarDeclRef -> M unit;
  (** [env.model->matchFn(env, call, false)] *)
  matchFn : Expression -> M (option FnRef);
  (** [ctx.partialityVar(env)] (flat_exp.hh) *)
  partialityVar : Ctx -> option VarDeclRef;
  (** [e->loc()]: nodes carry no location in this model. *)
  loc : Expression -> Location;
  (** The array case of [flatten_par] (flatten_par.cpp, lines 38-111):
      look-up in the CSE map or a new array declaration. *)
  flatten_par_array : Ctx -> Expression -> option VarDeclRef -> option VarDeclRef -> M EE;
  (** [Type::mkPar(env)], [Type::mkVar(env)], [Type::arrType(env, t, elem)],
      [FunctionI::rtype(env, args, nullptr, false)] (type.hh, ast.hh). *)
  Type_mkPar : EnvI -> Type_ -> Type_;
  Type_mkVar : EnvI -> Type_ -> Type_;
  Type_arrType : EnvI -> Type_ -> Type_ -> Type_;
  FunctionI_rtype : EnvI -> FnRef -> list Expression -> Type_
}.

(** [result == env.constants.boollit(b)] *)
Definition is_boollit (b : bool) (e : Expression) : bool :=
  match node e with
  | BoolLit v => Bool.eqb v b
  | _ => false
  end.

Definition VarDeclRef_eqb (a : option VarDeclRef) (b : VarDeclRef) : bool :=
  match a with Some x => Nat.eqb x b | None => false end.

(** [vd->id()]: the identifier of a declaration. *)
Definition VarDecl_id (r : VarDeclRef) : M Expression :=
  vd <- deref r ;;
  ret (Expr (vd_type vd) [] (Id (vd_id vd) (Some r))).

Section FlattenPar.
Variable orc : Oracles.
Variable forc : FlatOracles.
Variable ev : Evals.

(** [flatten_par] (flatten_par.cpp) *)
Definition flatten_par (ctx : Ctx) (e : Expression) (r b : option VarDeclRef) : M EE :=
  if cv (type e) then
    with_csi e
      (let nctx := mkCtx (if BCtx_eqb (ctx_b ctx) C_ROOT then C_ROOT else C_MIX)
                         (ctx_i Ctx_) (ctx_neg Ctx_) in
       catch_undefined
         (ka <- flat_cv_exp forc nctx e ;;
          rr <- bind forc ctx r ka ;;
          rb <- bind forc Ctx_ b (Some constants.literalTrue) ;;
          ret (mkEE rr rb))
         (if Ty.isbool (type e) then
            rr <- bind forc ctx r (Some constants.literalFalse) ;;
            rb <- bind forc Ctx_ b (Some constants.literalTrue) ;;
            ret (mkEE rr rb)
          else
            d <- create_dummy_value forc (type e) ;;
            rb <- bind forc Ctx_ b (Some constants.literalFalse) ;;
            ret (mkEE (Some d) rb)))
  else if 0 <? dim (type e) then flatten_par_array forc ctx e r b
  else
    catch_undefined
      (result <- ev_par ev e ;;
       (if Ty.eqb (type result) Ty.parbool then
          if BCtx_eqb (ctx_b ctx) C_ROOT && VarDeclRef_eqb r constants.varTrue
             && is_boollit false result
          then fail "expression evaluated to false" (loc forc e)
          else ret tt
        else ret tt) ;;;
       rr <- bind forc ctx r (Some result) ;;
       rb <- bind forc Ctx_ b (Some constants.literalTrue) ;;
       ret (mkEE rr rb))
      (d <- create_dummy_value forc (type e) ;;
       rb <- bind forc Ctx_ b (Some constants.literalFalse) ;;
       ret (mkEE (Some d) rb)).

End FlattenPar.

Section FlattenLet.
Variable orc : Oracles.
Variable forc : FlatOracles.
Variable ev : Evals.

(** The state of the loop over the let items: [cs] and [flatmap]. *)
Record LetState : Type := mkLetState {
  ls_cs : list EE;
  ls_flatmap : list (option VarDeclRef)
}.

Definition is_Id (e : option Expression) : option (option VarDeclRef) :=
  match e with
  | Some x => match node x with Id _ d => Some d | _ => None end
  | None => None
  end.

(** One round of the loop of [flatten_let] (flatten_let.cpp, lines 25-91). *)
Definition flatten_let_item (let_type : Type_) (ctx : Ctx) (b : option VarDeclRef)
           (le : Expression) (s : LetState) : M LetState :=
  match node le with
  | VarDecl vdr =>
      vd <- deref vdr ;;
      r <-
        match vd_e vd with
        | Some vde =>
            let transfer_ctx :=
              match bt let_type with BT_INT => ctx_i ctx | _ => ctx_b ctx end in
            let is_bool := Ty.BaseType_eqb (bt (type vde)) BT_BOOL in
            let nctx := mkCtx (ctx_b ctx) (ctx_i ctx) false in
            let nctx :=
              if ann_contains (vd_ann vd) constants.ctx.promise_monotone then
                if is_bool then mkCtx (BCtx_plus transfer_ctx) (ctx_i nctx) false
                else mkCtx (ctx_b nctx) (BCtx_plus transfer_ctx) false
              else if ann_contains (vd_ann vd) constants.ctx.promise_antitone then
                if is_bool then mkCtx (BCtx_minus transfer_ctx) (ctx_i nctx) false
                else mkCtx (ctx_b nctx) (BCtx_minus transfer_ctx) false
              else if is_bool then mkCtx C_MIX (ctx_i nctx) false
              else nctx in
            with_csi le
              (ee <- flat_exp forc nctx vde None (partialityVar forc nctx) ;;
               let let_e := ee_r ee in
               let cs := ls_cs s ++ [ee] in
               match let_e with
               | Some x => check_index_sets orc ev vdr x false
               | None => throw (InternalError "null pointer dereference")
               end ;;;
               cs' <-
                 match ti_domain (vd_ti vd) with
                 | Some dom =>
                     match ee_r ee with
                     | None => throw (InternalError "null pointer dereference")
                     | Some er =>
                         c <- mk_domain_constraint forc er dom ;;
                         let root := BCtx_eqb (ctx_b nctx) C_ROOT
                                     && VarDeclRef_eqb b constants.varTrue in
                         let b_b := if root then b else None in
                         let r_r := if root then b else None in
                         ee2 <- flat_exp forc nctx c r_r b_b ;;
                         ret (cs ++ [ee2; mkEE (ee_r ee2) (ee_r ee2)])
                     end
                 | None => ret cs
                 end ;;
               flatten_vardecl_annotations forc vdr vdr ;;;
               ret (let_e, cs'))
        | None =>
            (if (BCtx_eqb (ctx_b ctx) C_NEG || BCtx_eqb (ctx_b ctx) C_MIX)
                && negb (ann_contains (vd_ann vd) constants.ann.promise_total)
             then with_csi le
                    (throw (FlatteningError "free variable in non-positive context"))
             else ret tt) ;;;
            with_csi le
              (ti <- eval_typeinst forc ctx vdr ;;
               nvd <- new_vardecl forc ctx ti None (Some vdr) None ;;
               i <- VarDecl_id nvd ;;
               ret (Some i, ls_cs s))
        end ;;
      let '(let_e, cs) := r in
      vd' <- deref vdr ;;
      modify (fun env => update_decl env vdr (fun x => VarDecl_set_e x let_e)) ;;;
      modify (fun env =>
                update_decl env vdr (fun x =>
                  VarDecl_set_flat x
                    (match is_Id let_e with
                     | Some d => d
                     | None => Some vdr
                     end))) ;;;
      ret (mkLetState cs (ls_flatmap s ++ [vd_flat vd']))
  | _ =>
      if BCtx_eqb (ctx_b ctx) C_ROOT || ann_contains (ann le) constants.ann.promise_total
      then
        flat_exp forc Ctx_ le (Some constants.varTrue) (Some constants.varTrue) ;;;
        ret s
      else
        ee <- flat_exp forc ctx le None (Some constants.varTrue) ;;
        ret (mkLetState (ls_cs s ++ [mkEE (ee_r ee) (ee_r ee)]) (ls_flatmap s))
  end.

Fixpoint flatten_let_items (let_type : Type_) (ctx : Ctx) (b : option VarDeclRef)
         (items : list Expression) (s : LetState) : M LetState :=
  match items with
  | [] => ret s
  | le :: rest =>
      s' <- flatten_let_item let_type ctx b le s ;;
      flatten_let_items let_type ctx b rest s'
  end.



End FlattenLet.

Section FlattenComp.
Variable orc : Oracles.
Variable forc : FlatOracles.
Variable ev : Evals.

(** [Call::a(loc, id, args)] followed by [type(t)] and
    [decl(env.model->matchFn(env, call, false))]. *)
Definition Call_a (id : string) (args : list Expression) (t : Type_) : M Expression :=
  d <- matchFn forc (Expr t [] (Call id args None)) ;;
  ret (Expr t [] (Call id args d)).

(** The first loop of [flatten_comp]: a set comprehension over a variable
    set or with a variable where-clause. *)
Fixpoint isvarset_loop (gens : list Generator) : bool :=
  match gens with
  | [] => false
  | Gen _ None _ :: r => isvarset_loop r
  | Gen _ (Some g_in) w :: r =>
      if Ty.eqb (type g_in) Ty.varsetint then true
      else match w with
           | Some wh => if Ty.eqb (type wh) Ty.varbool then true else isvarset_loop r
           | None => isvarset_loop r
           end
  end.

Definition is_and (e : Expression) : bool :=
  match node e with BinOp _ BOT_AND _ _ => true | _ => false end.

(** The loop over [todo] that splits a conjunction into its par and its
    var conjuncts; [n] bounds the number of rounds. *)
Fixpoint split_where (n : nat) (todo : list Expression)
         (parWhere where_ : list Expression)
  : Result (list Expression * list Expression) :=
  match todo with
  | [] => Ok (parWhere, where_)
  | bo :: todo' =>
      match n with
      | O => Diverge
      | S n' =>
          match node bo with
          | BinOp lhs _ rhs _ =>
              let step (x : Expression)
                       (st : list Expression * list Expression * list Expression) :=
                let '(td, pw, wh) := st in
                if Ty.isPar (type x) then (td, pw ++ [x], wh)
                else if is_and x then (x :: td, pw, wh)
                else (td, pw, wh ++ [x]) in
              let '(td, pw, wh) := step lhs (step rhs (todo', parWhere, where_)) in
              split_where n' td pw wh
          | _ => Throw (InternalError "bad cast to BinOp")
          end
      end
  end.

(** The par part of a split where-clause ([switch (parWhere.size())]). *)
Definition make_orig_where (parWhere : list Expression) : M (option Expression) :=
  match parWhere with
  | [] => ret None
  | [p] => ret (Some p)
  | [p0; p1] => ret (Some (Expr Ty.parbool [] (BinOp p0 BOT_AND p1 None)))
  | _ =>
      let parWhereAl := with_type (Lit.new_ArrayLit parWhere) (Ty.parbool1 1) in
      c <- Call_a constants.ids.forall_ [parWhereAl] Ty.parbool ;;
      ret (Some c)
  end.

(** The loop over the generators (lines 47-124): the new generator
    expressions, the par where-clauses that remain and the var
    conditions [where]. *)
Fixpoint split_generators (n : nat) (gens : list Generator) (where_ : list Expression)
  : M (list Generator * list Expression) :=
  match gens with
  | [] => ret ([], where_)
  | Gen ds g_in g_where :: rest =>
      r <-
        match g_in with
        | None => ret (None, g_where, where_)
        | Some i =>
            p <- (if Ty.isvar (type i) && (dim (type i) =? 0) then
                    ub <- Call_a constants.ids.ub [i] (Ty.set_cv Ty.parsetint true) ;;
                    ids <- mapM VarDecl_id ds ;;
                    ret (ub,
                         where_ ++ map (fun id =>
                                          Expr Ty.varbool [] (BinOp id BOT_IN i None)) ids)
                  else ret (i, where_)) ;;
            let '(in_i, where1) := p in
            match g_where with
            | Some w =>
                if Ty.isvar (type w) then
                  if is_and w then
                    s <- lift (split_where n [w] [] where1) ;;
                    ow <- make_orig_where (fst s) ;;
                    ret (Some in_i, ow, snd s)
                  else ret (Some in_i, None, where1 ++ [w])
                else ret (Some in_i, Some w, where1)
            | None => ret (Some in_i, None, where1)
            end
        end ;;
      let '(in_i, orig_where_i, where') := r in
      rs <- split_generators n rest where' ;;
      ret (Gen ds in_i orig_where_i :: fst rs, snd rs)
  end.

(** [cond]: the conjunction of the var conditions. *)
Definition make_cond (where_ : list Expression) : M Expression :=
  match where_ with
  | [w] => ret w
  | _ =>
      let al := with_type (Lit.new_ArrayLit where_) (Ty.varbool1 1) in
      Call_a constants.ids.forall_ [al] Ty.varbool
  end.

Definition surround_is (surround : option Expression) (id : string) : bool :=
  match surround with
  | Some s => match node s with
              | Call i _ _ => String.eqb i id
              | _ => false
              end
  | None => false
  end.

(** The rewriting of the generated expression according to the
    surrounding call (lines 163-205): the new expression and the new
    comprehension type. *)
Definition rewrite_body (surround : option Expression) (cond generatedExp : Expression)
           (ntype : Type_) : M (Expression * Type_) :=
  if surround_is surround constants.ids.forall_ then
    ret (Expr Ty.varbool [] (BinOp cond BOT_IMPL generatedExp None),
         Ty.set_ot ntype OT_PRESENT)
  else if surround_is surround constants.ids.exists_ then
    ret (Expr Ty.varbool [] (BinOp cond BOT_AND generatedExp None),
         Ty.set_ot ntype OT_PRESENT)
  else if surround_is surround constants.ids.sum then
    let tt := Ty.set_ot (Ty.set_ti (type generatedExp) TI_VAR) OT_PRESENT in
    if Ty.isPar (type generatedExp) then
      let is_int := Ty.BaseType_eqb (bt (type generatedExp)) BT_INT in
      let cid := if is_int then constants.ids.bool2int else constants.ids.bool2float in
      let b2i_t := if is_int then Ty.varint else Ty.varfloat in
      b2i <- Call_a cid [cond] b2i_t ;;
      ret (Expr tt [] (BinOp b2i BOT_MULT generatedExp None), Ty.set_ot ntype OT_PRESENT)
    else
      ret (Expr tt [] (ITE [(cond, generatedExp)] (Lit.IntLit_a (IntFin 0))),
           Ty.set_ot ntype OT_PRESENT)
  else
    let tt := Ty.set_ot (Ty.set_ti (type generatedExp) TI_VAR) OT_OPTIONAL in
    ret (Expr tt [] (ITE [(cond, generatedExp)] constants.absent), ntype).

(** [indexes]: the body of an indexed comprehension is a tuple whose last
    component is the generated expression. *)
Definition comp_indexes (body : Expression) : option (list Expression) :=
  match node body with
  | ArrayLit v _ _ true =>
      if (typeId (type body) =? Ty.COMP_INDEX)%N then Some v else None
  | _ => None
  end.

(** Lines 22-219 of [flatten_comp]: the comprehension that is evaluated. *)
Definition flatten_comp_rewrite (n : nat) (c : Expression) : M Expression :=
  match node c with
  | Comprehension set body gens =>
      let isvarset := if set then isvarset_loop gens else false in
      if Ty.isOpt (type c) || isvarset then
        gw <- split_generators n gens [] ;;
        let '(gs, where_) := gw in
        match where_ with
        | [] => ret c
        | _ :: _ =>
            cond <- make_cond where_ ;;
            env <- get_env ;;
            let surround := surroundingCall env in
            let indexes := comp_indexes body in
            let generatedExp :=
              match indexes with
              | Some v => last v body
              | None => body
              end in
            nb <- rewrite_body surround cond generatedExp (type c) ;;
            let '(new_e, ntype) := nb in
            let new_e :=
              match indexes with
              | Some v => Lit.constructTuple (removelast v ++ [new_e])
              | None => new_e
              end in
            ret (Expr ntype [] (Comprehension set new_e gs))
        end
      else ret c
  | _ => throw (InternalError "bad cast to Comprehension")
  end.

Definition comp_set (c : Expression) : bool :=
  match node c with Comprehension s _ _ => s | _ => false end.

(** The loop over the flattened elements (lines 250-261), from the last
    to the first: [elemType], [allPar], [someOpt]. *)
Fixpoint elems_info (relems : list Expression) (elemType : Type_) (allPar someOpt : bool)
  : Type_ * bool * bool :=
  match relems with
  | [] => (elemType, allPar, someOpt)
  | x :: r =>
      elems_info r
        (if Ty.eqb elemType Ty.bot then type x else elemType)
        (if negb (Ty.isPar (type x)) then false else allPar)
        (if Ty.isOpt (type x) then true else someOpt)
  end.

(** [flatten_comp] (flatten_comp.cpp) *)
Definition flatten_comp (n : nat) (ctx : Ctx) (e : Expression) (r b : option VarDeclRef)
  : M EE :=
  with_csi e
    (c <- flatten_comp_rewrite n e ;;
     let eval_ctx :=
       if BCtx_eqb (ctx_b ctx) C_ROOT && negb (VarDeclRef_eqb r constants.varIgnore)
          && Ty.BaseType_eqb (bt (type c)) BT_BOOL && Ty.SetType_eqb (st (type c)) ST_PLAIN
       then mkCtx C_MIX (ctx_i ctx) (ctx_neg ctx) else ctx in
     let rr := if VarDeclRef_eqb r constants.varIgnore
               then Some constants.varTrue else None in
     let evalf := fun e0 => flat_exp forc eval_ctx e0 rr (partialityVar forc eval_ctx) in
     res <- catch_undefined
              (a <- eval_comp orc ev evalf c ;; ret (Some a))
              (ret None) ;;
     let wasUndefined := match res with None => true | Some _ => false end in
     let elems_ee := match res with Some a => fst a | None => [] end in
     let dims := match res with Some a => snd a | None => [] end in
     elems <- mapM (fun ee => match ee_r ee with
                              | Some x => ret x
                              | None => throw (InternalError "null pointer dereference")
                              end) elems_ee ;;
     env <- get_env ;;
     let '(elemType, allPar, someOpt) := elems_info (rev elems) Ty.bot true false in
     let elemType := if Ty.isbot elemType then Type_mkPar forc env (type c) else elemType in
     let elemType := if negb allPar then Type_mkVar forc env elemType else elemType in
     let elemType := if someOpt then Ty.set_ot elemType OT_OPTIONAL else elemType in
     let elemType := if comp_set c then Ty.set_st elemType ST_SET
                     else Type_arrType forc env (type c) elemType in
     ka <-
       (if comp_set c then
          if Ty.isPar (type c) && allPar then
            let sl := with_type (Lit.new_SetLit elems) elemType in
            slr <- ev_par ev sl ;;
            ret (Some (with_type slr elemType))
          else
            let t := Ty.set_dim (Ty.set_st elemType ST_PLAIN) 1 in
            let alr := al_set_flat (with_type (Lit.new_ArrayLit elems) t) true in
            d <- matchFn forc (Expr (Ty.mk TI_PAR BT_UNKNOWN ST_PLAIN 0) []
                                    (Call "array2set" [alr] None)) ;;
            match d with
            | None => throw (InternalError "null pointer dereference")
            | Some f =>
                env' <- get_env ;;
                let a2s := Expr (FunctionI_rtype forc env' f [alr]) []
                                (Call "array2set" [alr] d) in
                ee <- flat_exp forc Ctx_ a2s None (Some constants.varTrue) ;;
                ret (ee_r ee)
            end
        else
          ret (Some (al_set_flat (with_type (Lit.new_ArrayLit_dims elems dims) elemType)
                                 true))) ;;
     rb <- (if wasUndefined then bind forc Ctx_ b (Some constants.literalFalse)
            else conj forc b Ctx_ elems_ee) ;;
     rr' <- bind forc Ctx_ r ka ;;
     ret (mkEE rr' rb)).

End FlattenComp.

(* ================================================================== *)
(** * The JSON lexer (lib/json_parser.cpp) *)

Module JSONParser.

Inductive TokenT : Type :=
| T_LIST_OPEN | T_LIST_CLOSE | T_OBJ_OPEN | T_OBJ_CLOSE | T_COMMA | T_COLON
| T_STRING | T_INT | T_FLOAT | T_BOOL | T_NULL | T_EOF.

(** [JSONParser::Token]: the tag and the payload the constructor sets. *)
Inductive Token (D : Type) : Type :=
| Token_plain (t : TokenT)
| Token_string (s : string)
| Token_int (i : Z)
| Token_double (d : D)
| Token_bool (b : bool).
Arguments Token_plain {D} t.
Arguments Token_string {D} s.
Arguments Token_int {D} i.
Arguments Token_double {D} d.
Arguments Token_bool {D} b.

Definition Token_t {D : Type} (tok : Token D) : TokenT :=
  match tok with
  | Token_plain t => t
  | Token_string _ => T_STRING
  | Token_int _ => T_INT
  | Token_double _ => T_FLOAT
  | Token_bool _ => T_BOOL
  end.

Inductive LexState : Type := S_NOTHING | S_STRING | S_STRING_ESCAPE | S_INT | S_FLOAT.

(** An input stream: the characters still to be read and [good()]. *)
Record istream : Type := mkIstream {
  is_chars : list ascii;
  is_good : bool
}.

(** The parser object: [_filename], [_line], [_column]. *)
Record Parser : Type := mkParser {
  p_filename : string;
  p_line : Z;
  p_column : Z
}.

(** [JSONParser::errLocation] *)
Definition errLocation (p : Parser) : Location :=
  mkLocation (p_filename p) (p_line p) (p_column p) (p_line p) (p_column p) false.

(** [JSONError(env, loc, msg)] *)
Record JSONError : Type := mkJSONError {
  je_loc : Location;
  je_msg : string
}.

Record Outcome (D : Type) : Type := mkOutcome {
  o_result : Token D + JSONError;
  o_stream : istream;
  o_parser : Parser
}.
Arguments mkOutcome {D} _ _ _.

(** The double quote character. *)
Definition dquote : ascii := "034"%char.

Definition is_digit (c : ascii) : bool :=
  (("0" <=? c) && (c <=? "9"))%char.

Definition string_of_chars (l : list ascii) : string :=
  fold_right String EmptyString l.

Definition unexpected (s : string) : string :=
  String.append "unexpected token `" (String.append s "'").

(** [result += c] *)
Definition push_back (s : string) (c : ascii) : string :=
  String.append s (String c EmptyString).

Section Lexer.
(** [double], and the two conversions [iss >> v] of the C++ standard
    library, for [int v] and for [double v]. *)
Variable D : Type.
Variable istringstream_int : string -> Z.
Variable istringstream_double : string -> D.

(** [is.read(rest, n)] followed by the comparison with the rest of a
    keyword: the token, or the error of a short read or a mismatch. *)
Definition read_keyword (n : nat) (kw : string) (tok : Token D)
           (cs : list ascii) (p : Parser) : Outcome D :=
  let p' := mkParser (p_filename p) (p_line p) (p_column p + Z.of_nat n) in
  let rest := firstn n cs in
  if Nat.ltb (List.length cs) n then
    mkOutcome (inr (mkJSONError (errLocation p') (unexpected (string_of_chars rest))))
              (mkIstream [] false) p'
  else if negb (String.eqb (string_of_chars rest) kw) then
    mkOutcome (inr (mkJSONError (errLocation p') (unexpected (string_of_chars rest))))
              (mkIstream (skipn n cs) true) p'
  else mkOutcome (inl tok) (mkIstream (skipn n cs) true) p'.

(** The loop of [readToken]: every round reads one character. *)
Fixpoint readToken_loop (cs : list ascii) (state : LexState) (result : string)
         (p : Parser) : Outcome D :=
  let p1 := mkParser (p_filename p) (p_line p) (p_column p + 1) in
  match cs with
  | [] =>
      (* is.read fails: is.eof() *)
      mkOutcome (inl (Token_plain T_EOF)) (mkIstream [] false) p1
  | c :: cs' =>
      let here := mkIstream cs' true in
      match state with
      | S_NOTHING =>
          if (c =? "010")%char then
            readToken_loop cs' S_NOTHING result
                           (mkParser (p_filename p) (p_line p + 1) 0)
          else if ((c =? " ") || (c =? "009") || (c =? "013"))%char then
            readToken_loop cs' S_NOTHING result p1
          else if (c =? "[")%char then mkOutcome (inl (Token_plain T_LIST_OPEN)) here p1
          else if (c =? "]")%char then mkOutcome (inl (Token_plain T_LIST_CLOSE)) here p1
          else if (c =? "{")%char then mkOutcome (inl (Token_plain T_OBJ_OPEN)) here p1
          else if (c =? "}")%char then mkOutcome (inl (Token_plain T_OBJ_CLOSE)) here p1
          else if (c =? ",")%char then mkOutcome (inl (Token_plain T_COMMA)) here p1
          else if (c =? ":")%char then mkOutcome (inl (Token_plain T_COLON)) here p1
          else if (c =? dquote)%char then readToken_loop cs' S_STRING EmptyString p1
          else if (c =? "t")%char then read_keyword 3 "rue" (Token_bool true) cs' p1
          else if (c =? "f")%char then read_keyword 4 "alse" (Token_bool false) cs' p1
          else if (c =? "n")%char then read_keyword 3 "ull" (Token_plain T_NULL) cs' p1
          else if is_digit c || (c =? "-")%char then
            readToken_loop cs' S_INT (String c EmptyString) p1
          else
            mkOutcome (inr (mkJSONError (errLocation p1)
                                        (unexpected (String c EmptyString))))
                      here p1
      | S_STRING_ESCAPE =>
          let result' :=
            if (c =? "n")%char then String.append result (String "010" EmptyString)
            else if (c =? "t")%char then String.append result (String "009" EmptyString)
            else if (c =? dquote)%char then String.append result (String dquote EmptyString)
            else if (c =? "\")%char then String.append result (String "\" EmptyString)
            else push_back (String.append result (String "\" EmptyString)) c in
          readToken_loop cs' S_STRING result' p1
      | S_STRING =>
          if (c =? dquote)%char then mkOutcome (inl (Token_string result)) here p1
          else if (c =? "\")%char then readToken_loop cs' S_STRING_ESCAPE result p1
          else readToken_loop cs' S_STRING (push_back result c) p1
      | S_INT =>
          if (c =? ".")%char then readToken_loop cs' S_FLOAT (push_back result c) p1
          else if is_digit c then readToken_loop cs' S_INT (push_back result c) p1
          else
            (* is.unget() *)
            mkOutcome (inl (Token_int (istringstream_int result)))
                      (mkIstream cs true) p1
      | S_FLOAT =>
          if is_digit c then readToken_loop cs' S_FLOAT (push_back result c) p1
          else
            mkOutcome (inl (Token_double (istringstream_double result)))
                      (mkIstream cs true) p1
      end
  end.

(** [JSONParser::readToken] *)
Definition readToken (strm : istream) (p : Parser) : Outcome D :=
  if is_good strm then readToken_loop (is_chars strm) S_NOTHING EmptyString p
  else
    (* the loop is not entered; result.empty() *)
    mkOutcome (inl (Token_plain T_EOF)) strm p.

End Lexer.

(** ** The escape sequences as the specification words them

    The string escapes recognized are backslash-n, backslash-t,
    backslash-quote and backslash-backslash; unknown escapes are kept
    verbatim, prefixed by the backslash. *)
Definition spec_escape (c : ascii) : string :=
  if (c =? "n")%char then String "010" EmptyString
  else if (c =? "t")%char then String "009" EmptyString
  else if (c =? dquote)%char then String dquote EmptyString
  else if (c =? "\")%char then String "\" EmptyString
  else String "\" (String c EmptyString).

(** The value of the raw text between the quotes of a string token. *)
Fixpoint spec_unescape (raw : list ascii) : string :=
  match raw with
  | [] => EmptyString
  | c :: rest =>
      if (c =? "\")%char then
        match rest with
        | [] => EmptyString
        | e :: rest' => String.append (spec_escape e) (spec_unescape rest')
        end
      else String c (spec_unescape rest)
  end.

(** The raw text of a complete string token: no unescaped quote, no
    backslash left open at the end. *)
Fixpoint string_body (raw : list ascii) : bool :=
  match raw with
  | [] => true
  | c :: rest =>
      if (c =? "\")%char then
        match rest with
        | [] => false
        | _ :: rest' => string_body rest'
        end
      else if (c =? dquote)%char then false
      else string_body rest
  end.

End JSONParser.

(* ================================================================== *)
(** * A small instance

    One choice of the external functions and a small environment, used to
    run the model on concrete models. *)
Module Sample.

(** Integer power for the exponents of the examples. *)
Definition pow (a b : IntVal) : Result IntVal :=
  match a, b with
  | IntFin x, IntFin y => Ok (IntFin (Z.pow x y))
  | _, _ => Throw IntVal_.infinite_operand
  end.

Definition fop (f : spec_float -> spec_float -> spec_float) (a b : FloatVal)
  : Result FloatVal := Ok (f a b).

Definition orc : Oracles :=
  mkOracles
    (fun _ => None) (fun _ => None) (fun _ => None) (fun _ => None)
    (fun _ => None) (fun _ => None) (fun _ => None)
    (fun V _ _ _ => ret ([], []))
    pow
    (fop (SFadd FloatVal_.prec FloatVal_.emax))
    (fop (SFsub FloatVal_.prec FloatVal_.emax))
    (fop (SFmul FloatVal_.prec FloatVal_.emax))
    (fop (SFdiv FloatVal_.prec FloatVal_.emax))
    (fun a => Ok (SFopp a))
    (fun a _ => Ok a)
    (fun vals => map (fun v => (v, v)) vals)
    (fun vals => map (fun v => (v, v)) vals)
    (fun a b => [(a, b)])
    (fun _ => [])
    (fun a b => a ++ b) (fun a _ => a) (fun a _ => a)
    (fun _ _ => false) (fun _ _ => false) (fun _ _ => false) (fun _ _ => false)
    (fun s => IntFin (Z.of_nat (List.length s)))
    (fun a b => a ++ b) (fun a _ => a) (fun a _ => a)
    (fun _ _ => false)
    (fun _ e => match node e with Id n _ => n | _ => "<expr>" end)
    (fun _ e => e) (fun _ e => e)
    (fun _ _ => []) (fun _ _ => []) (fun a b => String.ltb a b)
    (fun _ _ _ _ => ret tt) (fun _ _ _ _ => ret tt)
    (fun _ _ _ => ret tt) (fun _ _ _ => ret tt) (fun _ _ _ => ret tt)
    (fun _ _ _ => ret tt) (fun _ _ _ => ret tt) (fun _ _ _ => ret tt)
    (fun _ => ret (Lit.new_ArrayLit []))
    (fun enumId i => ret (String.append "E" (IntVal_.show_Z i)))
    (fun _ _ => ret None).

Definition int_ti : Expression := Expr Ty.varint [] (TypeInst [] None).
Definition bool_ti : Expression := Expr Ty.varbool [] (TypeInst [] None).

Definition decl (t : Type_) (name : string) (tinst : Expression) (e : option Expression)
  : VarDeclRec :=
  mkVarDecl t [] name tinst e None false true false.

(** The three constant declarations, then [x] (var int, no domain, no
    right-hand side) and [y] (a let-local var int with [promise_total]). *)
Definition decls0 : list VarDeclRec :=
  [ decl Ty.varbool "varTrue" bool_ti (Some constants.literalTrue);
    decl Ty.varbool "varFalse" bool_ti (Some constants.literalFalse);
    decl Ty.varbool "varIgnore" bool_ti None;
    decl Ty.varint "x" int_ti None;
    mkVarDecl Ty.varint [Expr Ty.ann [] (Id constants.ann.promise_total None)]
              "y" int_ti None None false false false ].

Definition x_ref : VarDeclRef := 3%nat.
Definition x : Expression := Expr Ty.varint [] (Id "x" (Some x_ref)).

Definition env0 : EnvI := Env.init decls0 [].

(** An environment whose flat and output models already hold items. *)
Definition env1 : EnvI :=
  Env.set_output
    (Env.set_flat env0
       [ mkItem Location_ (VarDeclI x_ref) false;
         mkItem Location_ (ConstraintI constants.literalTrue) false;
         mkItem Location_ (SolveI ST_MIN (Some x)) false ])
    [ mkItem Location_ (OutputI (Lit.new_ArrayLit [Lit.new_StringLit "x"])) false ].

Definition int (z : Z) : Expression := Lit.IntLit_a (IntFin z).
Definition binop (t : Type_) (l : Expression) (op : BinOpType) (r : Expression)
  : Expression := Expr t [] (BinOp l op r None).

(** The flattener functions: evaluation of a type-inst returns the
    declared one; a new declaration is appended to the store; binding
    returns the expression. *)
Definition forc : FlatOracles :=
  mkFlatOracles
    (fun _ _ e => ret e)
    (fun _ e _ _ => ret (mkEE (Some e) (Some constants.literalTrue)))
    (fun _ e => ret (Some e))
    (fun t => ret (if Ty.isbool t then constants.literalFalse
                   else Lit.IntLit_a (IntFin 0)))
    (fun _ _ _ => ret (Some constants.literalTrue))
    (fun _ tinst _ _ rhs env =>
       (Ok (List.length (decls env)),
        Env.set_decls env
          (decls env ++ [mkVarDecl (type tinst) [] "X_INTRODUCED" tinst rhs
                                   (Some (List.length (decls env))) false false true])))
    (fun _ r => vd <- deref r ;; ret (vd_ti vd))
    (fun e _ => ret e)
    (fun _ _ => ret tt)
    (fun _ => ret None)
    (fun c => match ctx_b c with C_ROOT => Some constants.varTrue | _ => None end)
    (fun _ => Location_)
    (fun _ e _ _ => ret (mkEE (Some e) (Some constants.literalTrue)))
    (fun _ t => Ty.set_ti t TI_PAR)
    (fun _ t => Ty.set_ti t TI_VAR)
    (fun _ t elem => Ty.set_dim elem (dim t))
    (fun _ _ _ => Ty.varsetint).

End Sample.
(* ================================================================== *)
(** * Notions used by the properties, and sample inputs *)

Unset Implicit Arguments.

(** The three items of the post-fail skeleton. *)
Definition constraint_false : Item :=
  new_ConstraintI (Location_introduce Location_) constants.literalFalse.
Definition solve_satisfy : Item := SolveI_sat (Location_introduce Location_).
Definition empty_output : Item :=
  new_OutputI (Location_introduce Location_) (Lit.new_ArrayLit []).

(** A sequence of calls to [fail]; exceptions are caught by the caller. *)
Definition fail_calls (calls : list (string * Location)) (env : EnvI) : EnvI :=
  fold_left (fun e c => snd (fail (fst c) (snd c) e)) calls env.

(** The environment in which the body of a function runs after
    [CallStackItem csi(env, e)]. *)
Definition csi_env (e : Expression) (env : EnvI) : EnvI :=
  snd (CallStackItem_enter e env).
(** The environment after the destructor of that [csi]. *)
Definition csi_leave (e : Expression) (env env' : EnvI) : EnvI :=
  CallStackItem_leave (fst (CallStackItem_enter e env)) env'.




Section ArrayAccessRelations.
Variable rec : Evals.



(** [first_outside dims idx d env k lo hi ix env']: evaluating the indices
    from dimension [d] on, the index of dimension [k] is the first one that
    lies outside its index set [lo..hi]; its value is [ix]. *)
Inductive first_outside :
  list (Z * Z) -> list Expression -> nat -> EnvI -> nat -> Z -> Z -> IntVal -> EnvI -> Prop :=
| outside_here lo hi dims i idx d env ix env' :
    ev_int rec i env = (Ok ix, env') ->
    IntVal_.ltb ix (IntFin lo) || IntVal_.ltb (IntFin hi) ix = true ->
    first_outside ((lo, hi) :: dims) (i :: idx) d env d lo hi ix env'
| outside_later lo hi dims i idx d env iz env1 k lo' hi' ix env' :
    ev_int rec i env = (Ok (IntFin iz), env1) ->
    lo <= iz <= hi ->
    first_outside dims idx (S d) env1 k lo' hi' ix env' ->
    first_outside ((lo, hi) :: dims) (i :: idx) d env k lo' hi' ix env'.

End ArrayAccessRelations.

(** Sample arrays: [arr1 = [10, 20, 30]] with index set 1..3, [arr2] with
    index sets 1..2 and 0..1, and [arr_enum], [arr1] indexed by the enum with
    identifier 5 (the first array-enum declaration of [env_enum]). *)
Definition arr1 : Expression :=
  with_type (Lit.new_ArrayLit [Sample.int 10; Sample.int 20; Sample.int 30])
            (Ty.mk TI_PAR BT_INT ST_PLAIN 1).

(** The corner rule in the words of the specification, on plain integers:
    a zero lower corner becomes 1, a zero upper corner becomes -1; the
    bounds are the least and the greatest of the four corner values of the
    operation [q]. *)
Definition nonzero_lower (z : Z) : Z := if z =? 0 then 1 else z.
Definition nonzero_upper (z : Z) : Z := if z =? 0 then -1 else z.
Definition corner_min (q : Z -> Z -> Z) (a b c d : Z) : Z :=
  Z.min (q a c) (Z.min (q a d) (Z.min (q b c) (q b d))).
Definition corner_max (q : Z -> Z -> Z) (a b c d : Z) : Z :=
  Z.max (q a c) (Z.max (q a d) (Z.max (q b c) (q b d))).
Definition corner_bounds (q : Z -> Z -> Z) (l0 u0 l1 u1 : Z) : Z * Z :=
  (corner_min q (nonzero_lower l0) (nonzero_upper u0) (nonzero_lower l1) (nonzero_upper u1),
   corner_max q (nonzero_lower l0) (nonzero_upper u0) (nonzero_lower l1) (nonzero_upper u1)).

(** The operation of the corner rule for [div] and [mod]. *)
Definition corner_op (op : BinOpType) : Z -> Z -> Z :=
  match op with BOT_MOD => Z.rem | _ => Z.quot end.

(** The four corner values of the operation [q] lie within the range of a
    finite [IntVal]: none of them overflows. *)
Definition corner_fit (q : Z -> Z -> Z) (l0 u0 l1 u1 : Z) : bool :=
  IntVal_.in_range (q (nonzero_lower l0) (nonzero_lower l1))
  && IntVal_.in_range (q (nonzero_lower l0) (nonzero_upper u1))
  && IntVal_.in_range (q (nonzero_upper u0) (nonzero_lower l1))
  && IntVal_.in_range (q (nonzero_upper u0) (nonzero_upper u1)).

(** The four bounds of two operands are finite. *)
Definition finite_bounds (b0 b1 : Bounds) : bool :=
  IntVal_.isFinite (fst b0) && IntVal_.isFinite (snd b0)
  && IntVal_.isFinite (fst b1) && IntVal_.isFinite (snd b1).

(** An expression that [enter] hands to the visit methods: a scalar
    integer expression that is not a parameter, an annotation, a
    declaration or an if-then-else. *)
Definition entered (e : Expression) : bool :=
  negb (Ty.isAnn (type e))
  && negb (match node e with VarDecl _ => true | _ => false end)
  && negb (0 <? dim (type e))
  && negb (Ty.isPar (type e) && negb (cv (type e)))
  && Ty.isint (type e)
  && negb (match node e with ITE _ _ => true | _ => false end).

(** The kinds of expression for which the visitor has no rule. *)
Definition uncovered (e : Expression) : bool :=
  match node e with
  | FloatLit _ | BoolLit _ | SetLit _ _ _ | StringLit _ | AnonVar
  | Comprehension _ _ _ | ITE _ _ | Let _ _ | TypeInst _ _ | TIId _
  | FieldAccess _ _ => true
  | BinOp _ op _ _ =>
      match op with
      | BOT_PLUS | BOT_MINUS | BOT_MULT | BOT_IDIV | BOT_MOD => false
      | _ => true
      end
  | UnOp op _ _ => match op with UOT_NOT => true | _ => false end
  | _ => false
  end.

(** The operands of a binary operator have left their bounds on the stack. *)
Definition operands_visited (e : Expression) (cb : ComputeIntBounds) : bool :=
  match node e with
  | BinOp _ _ _ _ => (2 <=? List.length (cb_bounds cb))%nat
  | _ => true
  end.

(** A variable [z] declared with the domain 0..6. *)
Definition dom06 : Expression := Lit.new_SetLit_isv [(IntFin 0, IntFin 6)].
Definition z_ti : Expression := Expr Ty.varint [] (TypeInst [] (Some dom06)).
Definition env_z : EnvI :=
  Env.init (Sample.decls0 ++ [Sample.decl Ty.varint "z" z_ti None]) [].
Definition z : Expression := Expr Ty.varint [] (Id "z" (Some 5%nat)).













(** The test that precedes the call of [fail] in [flatten_par]: the context
    is ROOT, the target is [varTrue] and the result is the literal false. *)
Definition root_false (ctx : Ctx) (r : option VarDeclRef) (result : Expression) : bool :=
  Ty.eqb (type result) Ty.parbool
  && (BCtx_eqb (ctx_b ctx) C_ROOT && VarDeclRef_eqb r constants.varTrue
      && is_boollit false result).


(** [let { var int: x } in true] and [let { var int: y ::promise_total } in
    true], flattened in the context MIX. *)
Definition decl_x : Expression := Expr Ty.varint [] (VarDecl Sample.x_ref).

(** The product and the conditional of the [sum] case, in the words of the
    specification: [bool2int(where) * body] (with [bool2float] when the
    body is not an integer) and [if where then body else 0 endif]; both have
    the type of the body made var and present. *)
Definition sum_body_type (body : Expression) : Type_ :=
  Ty.set_ot (Ty.set_ti (type body) TI_VAR) OT_PRESENT.
Definition sum_coercion (body : Expression) : string * Type_ :=
  if Ty.BaseType_eqb (bt (type body)) BT_INT
  then (constants.ids.bool2int, Ty.varint)
  else (constants.ids.bool2float, Ty.varfloat).
Definition sum_product (cond body : Expression) (d : option FnRef) : Expression :=
  Expr (sum_body_type body) []
       (BinOp (Expr (snd (sum_coercion body)) []
                    (Call (fst (sum_coercion body)) [cond] d))
              BOT_MULT body None).
Definition sum_conditional (cond body : Expression) : Expression :=
  Expr (sum_body_type body) [] (ITE [(cond, body)] (Lit.IntLit_a (IntFin 0))).

(** [sum([5 | i in 1..3 where p])] and [sum([x | i in 1..3 where p])] for a
    Boolean variable [p], with the call of [sum] below the comprehension on
    the call stack. *)
Definition where_p : Expression := Expr Ty.varbool [] (Id "p" None).
Definition gen_i : Generator :=
  Gen [Sample.x_ref] (Some (Lit.new_SetLit_isv [(IntFin 1, IntFin 3)])) (Some where_p).
Definition opt_array : Type_ := Ty.set_ot (Ty.mk TI_VAR BT_INT ST_PLAIN 1) OT_OPTIONAL.
Definition comp_par : Expression :=
  Expr opt_array [] (Comprehension false (Sample.int 5) [gen_i]).
Definition comp_var : Expression :=
  Expr opt_array [] (Comprehension false Sample.x [gen_i]).
Definition env_sum (c : Expression) : EnvI :=
  Env.set_callStack Sample.env0
    [(Expr Ty.varint [] (Call constants.ids.sum [c] None), false); (c, false)].

(** The indexed comprehension [sum([1: 5 | i in 1..3 where p])]: its body is
    the tuple of the index [1] and the generated expression [5]. *)
Definition index_body : Expression :=
  Expr (Ty.set_typeId (Ty.mk TI_PAR BT_TUPLE ST_PLAIN 0) Ty.COMP_INDEX) []
       (ArrayLit [Sample.int 1; Sample.int 5] [(1, 2)] false true).
Definition comp_indexed : Expression :=
  Expr opt_array [] (Comprehension false index_body [gen_i]).


(* ================================================================== *)
(** * Notions used by the further properties *)

From Stdlib Require Import Permutation.

(** The integer [x] lies within the bounds [b]. *)
Definition in_bounds (x : Z) (b : Bounds) : Prop :=
  IntVal_.leb (fst b) (IntFin x) = true /\ IntVal_.leb (IntFin x) (snd b) = true.

(** The integer operation of [+], [-] and [*]. *)
Definition arith_op (op : BinOpType) : Z -> Z -> Z :=
  match op with
  | BOT_MINUS => Z.sub
  | BOT_MULT => Z.mul
  | _ => Z.add
  end.

(** The values that [vBinOp] computes for [+], [-] and [*] from the operand
    bounds [l0..u0] and [l1..u1] lie within the range of a finite [IntVal]. *)
Definition arith_fit (op : BinOpType) (l0 u0 l1 u1 : Z) : bool :=
  match op with
  | BOT_MINUS => IntVal_.in_range (l0 - u1) && IntVal_.in_range (u0 - l1)
  | BOT_MULT =>
      IntVal_.in_range (l0 * l1) && IntVal_.in_range (l0 * u1)
      && IntVal_.in_range (u0 * l1) && IntVal_.in_range (u0 * u1)
  | _ => IntVal_.in_range (l0 + l1) && IntVal_.in_range (u0 + u1)
  end.

(** A scalar parameter expression, which [ComputeIntBounds::enter] evaluates
    instead of visiting. *)
Definition entered_par (e : Expression) : bool :=
  negb (Ty.isAnn (type e))
  && negb (match node e with VarDecl _ => true | _ => false end)
  && negb (0 <? dim (type e))
  && (Ty.isPar (type e) && negb (cv (type e))).

(** The union of bounds as [ComputeIntBounds::enter] accumulates it over the
    branches of an if-then-else, starting from the empty interval. *)
Definition join_bounds (ib b : Bounds) : Bounds :=
  (IntVal_.min (fst ib) (fst b), IntVal_.max (snd ib) (snd b)).
Definition union_bounds (l : list Bounds) : Bounds :=
  fold_left join_bounds l (IntPlusInf, IntMinusInf).

Section IteBranches.
Variable run : Expression -> ComputeIntBounds -> M ComputeIntBounds.

(** [ite_branches its cb env bs cb' env']: no condition of [its] is a
    cv-free parameter, and the traversal of each then-branch, in turn, pushes
    one entry; [bs] are these entries. *)
Inductive ite_branches :
  list (Expression * Expression) -> ComputeIntBounds -> EnvI ->
  list Bounds -> ComputeIntBounds -> EnvI -> Prop :=
| ite_branches_nil cb env : ite_branches [] cb env [] cb env
| ite_branches_cons c th r cb env b v' env1 bs cb2 env2 :
    Ty.isPar (type c) && negb (cv (type c)) = false ->
    run th cb env = (Ok (mkCIB (b :: cb_bounds cb) v'), env1) ->
    ite_branches r (mkCIB (cb_bounds cb) v') env1 bs cb2 env2 ->
    ite_branches ((c, th) :: r) cb env (b :: bs) cb2 env2.
End IteBranches.

Section ConditionsFalse.
Variable rec : Evals.

(** [conds_false its env env']: the conditions of the branches [its],
    evaluated in turn by [eval_bool], are all false. *)
Inductive conds_false : list (Expression * Expression) -> EnvI -> EnvI -> Prop :=
| conds_false_nil env : conds_false [] env env
| conds_false_cons c th r env env1 env' :
    ev_bool rec c env = (Ok false, env1) ->
    conds_false r env1 env' ->
    conds_false ((c, th) :: r) env env'.
End ConditionsFalse.

(** An item of a let that is a constraint: not a declaration. *)
Definition is_constraint_item (item : Expression) : bool :=
  match node item with VarDecl _ => false | _ => true end.

(** A top-level parameter [k = 7 + 2]. *)
Definition k_rhs : Expression :=
  Sample.binop Ty.parint (Sample.int 7) BOT_PLUS (Sample.int 2).
Definition env_k : EnvI :=
  Env.init (Sample.decls0
            ++ [Sample.decl Ty.parint "k" (Expr Ty.parint [] (TypeInst [] None))
                            (Some k_rhs)]) [].
Definition k : Expression := Expr Ty.parint [] (Id "k" (Some 5%nat)).

(** The right-hand side of the declaration [p] in [env] (null when there is
    none). *)
Definition rhs_of (env : EnvI) (p : VarDeclRef) : option Expression :=
  match get_decl env p with Some vd => vd_e vd | None => None end.

(** A function [f(int: n) = n + 1] and the call [f(41)]. *)
Definition n_decl : VarDeclRec :=
  mkVarDecl Ty.parint [] "n" (Expr Ty.parint [] (TypeInst [] None)) None None
            false false false.
Definition n_id : Expression := Expr Ty.parint [] (Id "n" (Some 5%nat)).
Definition f_fn : FunctionI :=
  mkFunctionI "f" [5%nat] (Some (Sample.binop Ty.parint n_id BOT_PLUS (Sample.int 1)))
              (Expr Ty.parint [] (TypeInst [] None)) [] None.
Definition env_f : EnvI := Env.init (Sample.decls0 ++ [n_decl]) [f_fn].
Definition call_f : Expression :=
  Expr Ty.parint [] (Call "f" [Sample.int 41] (Some 0%nat)).

(** The sample functions with two record types: the type with identifier 1
    has the fields [a] and [c], the type with identifier 2 the field [b]. *)
Definition orc_records : Oracles :=
  mkOracles
    (builtins_e Sample.orc) (builtins_i Sample.orc) (builtins_b Sample.orc)
    (builtins_f Sample.orc) (builtins_s Sample.orc) (builtins_fs Sample.orc)
    (builtins_str Sample.orc) (eval_comp Sample.orc) (IntVal_pow Sample.orc)
    (FloatVal_plus Sample.orc) (FloatVal_minus Sample.orc) (FloatVal_mult Sample.orc)
    (FloatVal_div Sample.orc) (FloatVal_neg Sample.orc) (std_pow Sample.orc)
    (IntSetVal_a Sample.orc) (FloatSetVal_a Sample.orc) (FloatSetVal_a_range Sample.orc)
    (FloatSetVal_ai Sample.orc) (Ranges_union Sample.orc) (Ranges_diff Sample.orc)
    (Ranges_inter Sample.orc) (Ranges_less Sample.orc) (Ranges_less_eq Sample.orc)
    (Ranges_equal Sample.orc) (Ranges_subset Sample.orc) (Ranges_cardinality Sample.orc)
    (FRanges_union Sample.orc) (FRanges_diff Sample.orc) (FRanges_inter Sample.orc)
    (Expression_equal Sample.orc) (print_expr Sample.orc) (follow_id Sample.orc)
    (follow_id_to_value Sample.orc) (getStructType Sample.orc)
    (fun _ t => if (typeId t =? 1)%N then ["a"; "c"] else if (typeId t =? 2)%N then ["b"] else [])
    (RecordFieldSort Sample.orc) (check_index_sets Sample.orc)
    (check_par_domain Sample.orc) (checkRetVal_IntVal Sample.orc)
    (checkRetVal_FloatVal Sample.orc) (checkRetVal_ArrayLitCopy Sample.orc)
    (checkRetVal_IntSet Sample.orc) (checkRetVal_FloatSet Sample.orc)
    (check_struct_retval Sample.orc) (createAnnotationArray Sample.orc)
    (enumToString Sample.orc) (compute_intset_bounds Sample.orc).
Definition record_ac : Expression :=
  with_type (Lit.constructTuple [Sample.int 1; Sample.int 3])
            (Ty.set_typeId (Ty.mk TI_PAR BT_RECORD ST_PLAIN 0) 1%N).
Definition record_b : Expression :=
  with_type (Lit.constructTuple [Sample.int 2])
            (Ty.set_typeId (Ty.mk TI_PAR BT_RECORD ST_PLAIN 0) 2%N).

(* ================================================================== *)
(** * Further functions of the sources *)

(** ** Following identifiers (eval_par.cpp) *)

Module FollowId.

(** [ident == absent || (ident->type().isAnn() && ident->decl() == nullptr)] *)
Definition stops (e : Expression) (d : option VarDeclRef) : bool :=
  is_absent e
  || (Ty.isAnn (type e) && match d with None => true | Some _ => false end).

(** [follow_id]: the loop runs once per identifier of the chain; [n] bounds
    the number of rounds (a longer chain is a cycle: the loop does not
    end).  [ident->decl()->e()] on an identifier without declaration is a
    null pointer dereference. *)
Fixpoint follow_id (n : nat) (env : EnvI) (e : option Expression)
  : Result (option Expression) :=
  match e with
  | None => Ok None
  | Some x =>
      match node x with
      | Id _ d =>
          if stops x d then Ok (Some x)
          else
            match d with
            | None => Throw (InternalError "null pointer dereference")
            | Some r =>
                match get_decl env r with
                | None => Throw (InternalError "invalid VarDecl pointer")
                | Some vd =>
                    match n with
                    | O => Diverge
                    | S n' => follow_id n' env (vd_e vd)
                    end
                end
            end
      | _ => Ok (Some x)
      end
  end.

(** The expressions at which [follow_id] stops: everything but an
    identifier that is followed. *)
Definition is_value (e : Expression) : bool :=
  match node e with
  | Id _ d => stops e d
  | _ => true
  end.

End FollowId.

(** A chain [j = i], [i = 7] of two top-level parameters. *)
Definition env_chain : EnvI :=
  Env.init (Sample.decls0
            ++ [Sample.decl Ty.parint "i" (Expr Ty.parint [] (TypeInst [] None))
                            (Some (Sample.int 7));
                Sample.decl Ty.parint "j" (Expr Ty.parint [] (TypeInst [] None))
                            (Some (Expr Ty.parint [] (Id "i" (Some 5%nat))))]) [].
Definition j_id : Expression := Expr Ty.parint [] (Id "j" (Some 6%nat)).

(** ** The JSON lexer: notions and further functions (json_parser.cpp) *)

Module JSONLexer.
Import JSONParser.

(** White space between tokens: line feed, space, tab, carriage return. *)
Definition is_space (c : ascii) : bool :=
  ((c =? "010") || (c =? " ") || (c =? "009") || (c =? "013"))%char.

(** The position after the white space [ws]: a line feed starts a new line
    at column 0, every other character advances the column. *)
Fixpoint skip_space (ws : list ascii) (p : Parser) : Parser :=
  match ws with
  | [] => p
  | c :: ws' =>
      skip_space ws'
        (if (c =? "010")%char then mkParser (p_filename p) (p_line p + 1) 0
         else mkParser (p_filename p) (p_line p) (p_column p + 1))
  end.

(** The position [n] characters further on the same line. *)
Definition advance (n : nat) (p : Parser) : Parser :=
  mkParser (p_filename p) (p_line p) (p_column p + Z.of_nat n).

(** The raw text after an opening quote in which the string is not closed:
    no quote outside an escape sequence. *)
Fixpoint open_string (raw : list ascii) : bool :=
  match raw with
  | [] => true
  | c :: rest =>
      if (c =? "\")%char then
        match rest with
        | [] => true
        | _ :: rest' => open_string rest'
        end
      else if (c =? dquote)%char then false
      else open_string rest
  end.

(** A text without quote and without backslash. *)
Definition plain_text (s : list ascii) : bool :=
  forallb (fun c => negb (c =? dquote)%char && negb (c =? "\")%char) s.

(** [Token::toString] for the tokens that the constructors and the static
    functions of [Token] build; a tag with a payload that no constructor
    sets ([Token_plain] with [T_STRING], [T_INT], [T_FLOAT] or [T_BOOL]) has
    no text. *)
Definition toString {D : Type} (show_int : Z -> string) (show_double : D -> string)
           (tok : Token D) : option string :=
  match tok with
  | Token_plain T_LIST_OPEN => Some "["
  | Token_plain T_LIST_CLOSE => Some "]"
  | Token_plain T_OBJ_OPEN => Some "{"
  | Token_plain T_OBJ_CLOSE => Some "}"
  | Token_plain T_COMMA => Some ","
  | Token_plain T_COLON => Some ":"
  | Token_plain T_NULL => Some "null"
  | Token_plain T_EOF => Some "eof"
  | Token_plain _ => None
  | Token_string s => Some (String dquote (String.append s (String dquote EmptyString)))
  | Token_int i => Some (show_int i)
  | Token_double d => Some (show_double d)
  | Token_bool b => Some (if b then "true" else "false")
  end.

(** The tokens whose text [readToken] reads back: punctuation, [null], the
    Booleans and the strings without quote or backslash. *)
Definition reads_back {D : Type} (tok : Token D) : bool :=
  match tok with
  | Token_plain (T_LIST_OPEN | T_LIST_CLOSE | T_OBJ_OPEN | T_OBJ_CLOSE
                 | T_COMMA | T_COLON | T_NULL) => true
  | Token_plain _ => false
  | Token_string s => plain_text (list_ascii_of_string s)
  | Token_bool _ => true
  | Token_int _ | Token_double _ => false
  end.

(** [is_json]: the loop reads one character per round.  When the stream
    ends, [is.get(c)] leaves the uninitialised [c] as it is: its value is
    the parameter [garbage]; the stream is then no longer good and the loop
    ends. *)
Fixpoint is_json (garbage : ascii) (cs : list ascii) : bool :=
  match cs with
  | [] =>
      if (garbage =? "{")%char then true
      else if negb (garbage =? " ")%char && negb (garbage =? "010")%char
              && negb (garbage =? "009")%char && negb (garbage =? "013")%char
      then false
      else false
  | c :: cs' =>
      if (c =? "{")%char then true
      else if negb (c =? " ")%char && negb (c =? "010")%char
              && negb (c =? "009")%char && negb (c =? "013")%char
      then false
      else is_json garbage cs'
  end.

End JSONLexer.

(** ** Comprehensions *)

(** The generated expression of a comprehension body: the last component of
    the tuple of an indexed comprehension, or the body itself. *)
Definition generated_exp (body : Expression) : Expression :=
  match comp_indexes body with
  | Some v => last v body
  | None => body
  end.

(** The body in which the generated expression is replaced by [new_e]. *)
Definition with_generated (body new_e : Expression) : Expression :=
  match comp_indexes body with
  | Some v => Lit.constructTuple (removelast v ++ [new_e])
  | None => new_e
  end.

(** A generator that [flatten_comp] leaves as it is: it does not range over
    a variable set, and its where-condition is not var. *)
Definition par_generator (g : Generator) : bool :=
  match g with
  | Gen _ None _ => true
  | Gen _ (Some i) w =>
      negb (Ty.isvar (type i) && (dim (type i) =? 0))
      && match w with
         | Some x => negb (Ty.isvar (type x))
         | None => true
         end
  end.

(** The comprehension [c] below a call of the function [id]. *)
Definition env_below (id : string) (c : Expression) : EnvI :=
  Env.set_callStack Sample.env0
    [(Expr Ty.varbool [] (Call id [c] None), false); (c, false)].

(** The conjuncts of an operand of a where-condition: the operand itself
    when it is par or when it is not a conjunction, and else the conjuncts
    of its two operands. *)
Inductive conjuncts : Expression -> list Expression -> Prop :=
| conjuncts_par x :
    Ty.isPar (type x) = true -> conjuncts x [x]
| conjuncts_atom x :
    Ty.isPar (type x) = false -> is_and x = false -> conjuncts x [x]
| conjuncts_and x l r d ll lr :
    Ty.isPar (type x) = false -> node x = BinOp l BOT_AND r d ->
    conjuncts l ll -> conjuncts r lr -> conjuncts x (ll ++ lr).

(** The conjuncts of the conjunction [bo]. *)
Definition conjunction (bo : Expression) (cs : list Expression) : Prop :=
  exists l r d ll lr,
    node bo = BinOp l BOT_AND r d /\ conjuncts l ll /\ conjuncts r lr /\ cs = ll ++ lr.

(** What a round of the loop of [split_where] does with one operand. *)
Definition split_step (x : Expression)
           (st : list Expression * list Expression * list Expression)
  : list Expression * list Expression * list Expression :=
  let '(td, pw, wh) := st in
  if Ty.isPar (type x) then (td, pw ++ [x], wh)
  else if is_and x then (x :: td, pw, wh)
  else (td, pw, wh ++ [x]).

(** A var condition that is not split further. *)
Definition var_conjunct (x : Expression) : Prop :=
  Ty.isPar (type x) = false /\ is_and x = false.

(** [p /\ true] for the Boolean variable [p]. *)
Definition p_and_true : Expression :=
  Expr Ty.varbool [] (BinOp where_p BOT_AND (Lit.boollit true) None).

(** ** Expressions that contain variables (cv) *)

(** The context in which [flatten_par] flattens a cv expression. *)
Definition cv_ctx (ctx : Ctx) : Ctx :=
  mkCtx (if BCtx_eqb (ctx_b ctx) C_ROOT then C_ROOT else C_MIX) (ctx_i Ctx_) (ctx_neg Ctx_).

(** Flattener functions among which [flat_cv_exp] finds every expression
    undefined; the others are those of [Sample.forc]. *)
Definition forc_undefined : FlatOracles :=
  mkFlatOracles
    (bind Sample.forc)
    (flat_exp Sample.forc)
    (fun _ _ => throw (ResultUndefinedError "undefined"))
    (create_dummy_value Sample.forc)
    (conj Sample.forc)
    (new_vardecl Sample.forc)
    (eval_typeinst Sample.forc)
    (mk_domain_constraint Sample.forc)
    (flatten_vardecl_annotations Sample.forc)
    (matchFn Sample.forc)
    (partialityVar Sample.forc)
    (loc Sample.forc)
    (flatten_par_array Sample.forc)
    (Type_mkPar Sample.forc)
    (Type_mkVar Sample.forc)
    (Type_arrType Sample.forc)
    (FunctionI_rtype Sample.forc).

(** A Boolean and an integer expression that contain variables. *)
Definition cv_bool : Expression := Expr (Ty.set_cv Ty.parbool true) [] (Id "c" None).
Definition cv_int : Expression := Expr (Ty.set_cv Ty.parint true) [] (Id "c" None).

(** ** The pretty printer (lib/prettyprinter.cpp) *)

Module PrettyPrinter.

(** The cases of the switch of [precedence]; every operator has one, the
    default case is not reached. *)
Definition precedence_op (op : BinOpType) : Z :=
  match op with
  | BOT_EQUIV => 1200
  | BOT_IMPL | BOT_RIMPL => 1100
  | BOT_OR | BOT_XOR => 1000
  | BOT_AND => 900
  | BOT_LE | BOT_LQ | BOT_GR | BOT_GQ | BOT_EQ | BOT_NQ => 800
  | BOT_IN | BOT_SUBSET | BOT_SUPERSET => 700
  | BOT_UNION | BOT_DIFF | BOT_SYMDIFF => 600
  | BOT_DOTDOT => 500
  | BOT_PLUS | BOT_MINUS => 400
  | BOT_MULT | BOT_IDIV | BOT_MOD | BOT_DIV | BOT_INTERSECT => 300
  | BOT_POW | BOT_PLUSPLUS => 200
  end.

(** [precedence] *)
Definition precedence (e : Expression) : Z :=
  match node e with
  | BinOp _ op _ _ => precedence_op op
  | Let _ _ => 1300
  | _ => 0
  end.

Inductive Assoc : Type := AS_LEFT | AS_RIGHT | AS_NONE.

Definition Assoc_eqb (a b : Assoc) : bool :=
  match a, b with
  | AS_LEFT, AS_LEFT | AS_RIGHT, AS_RIGHT | AS_NONE, AS_NONE => true
  | _, _ => false
  end.

(** [assoc], on the operator of the [BinOp]. *)
Definition assoc (op : BinOpType) : Assoc :=
  match op with
  | BOT_LE | BOT_LQ | BOT_GR | BOT_GQ | BOT_NQ | BOT_EQ | BOT_IN | BOT_SUBSET
  | BOT_SUPERSET | BOT_DOTDOT => AS_NONE
  | BOT_PLUSPLUS => AS_RIGHT
  | _ => AS_LEFT
  end.

(** [enum Parentheses] *)
Definition PN_LEFT : Z := 1.
Definition PN_RIGHT : Z := 2.

(** [static_cast<int>(b)] *)
Definition int_of_bool (b : bool) : Z := if b then 1 else 0.

(** [need_parentheses(bo, left, right)]; [bo] is a [BinOp*]: there is no
    result for another node. *)
Definition need_parentheses (bo left right : Expression) : option Z :=
  match node bo with
  | BinOp _ op _ _ =>
      let pbo := precedence bo in
      let pl := precedence left in
      let pr := precedence right in
      let ret :=
        int_of_bool ((pbo <? pl)
                     || ((pbo =? pl) && negb (Assoc_eqb (assoc op) AS_LEFT))) in
      let ret :=
        ret + 2 * int_of_bool ((pbo <? pr)
                               || ((pbo =? pr) && negb (Assoc_eqb (assoc op) AS_RIGHT))) in
      Some ret
  | _ => None
  end.

(** [(ps & PN_LEFT) != 0] and [(ps & PN_RIGHT) != 0]: the printer puts the
    left, the right operand in parentheses. *)
Definition parenthesised (side : Z) (ps : Z) : bool := negb (Z.land ps side =? 0).

(** An expression that is neither a binary operation nor a let. *)
Definition atomic (e : Expression) : bool :=
  match node e with
  | BinOp _ _ _ _ | Let _ _ => false
  | _ => true
  end.

End PrettyPrinter.

(* ================================================================== *)
(** * Properties *)

(** ** Failure of the model: [EnvI::fail] *)

Lemma Forall_map_removed (m : Model) :
  Forall (fun it => i_removed it = true) (map Item_remove m).
Proof.
  induction m as [|it m IH]; simpl; constructor; auto.
Qed.

Lemma nth_error_map_app {A B : Type} (f : A -> B) (l : list A) (tl : list B) i x :
  nth_error l i = Some x -> nth_error (map f l ++ tl) i = Some (f x).
Proof.
  intros H.
  rewrite nth_error_app1.
  - rewrite nth_error_map, H. reflexivity.
  - rewrite length_map. apply nth_error_Some. congruence.
Qed.

(** The state after the first failure, field by field. *)
Lemma fail_first (msg : string) (loc : Location) (env : EnvI) :
  failed env = false ->
  exists env',
    fail msg loc env = (Throw ModelInconsistent, env')
    /\ failed env' = true
    /\ flat_ env' = map Item_remove (flat_ env) ++ [constraint_false; solve_satisfy]
    /\ output env' = map Item_remove (output env) ++ [empty_output]
    /\ decls env' = decls env.
Proof.
  unfold failed, fail. intros Hf. rewrite Hf. simpl.
  destruct (addWarning loc _ true env) as [w env1] eqn:Hw.
  assert (Hsame : flat_ env1 = flat_ env /\ output env1 = output env
                  /\ decls env1 = decls env).
  { unfold addWarning in Hw.
    destruct (20 <=? List.length (warnings env))%nat;
      [destruct (List.length (warnings env) =? 20)%nat|];
      inversion Hw; subst; simpl; auto. }
  destruct Hsame as (Hfl & Hout & Hd).
  eexists. split; [reflexivity|].
  simpl. unfold Model_addItem. rewrite Hfl, Hout, Hd, <- app_assoc. simpl.
  repeat split; reflexivity.
Qed.

(** C3. After a call to [fail(msg, loc)] on an environment that has not
    failed yet: a [ModelInconsistent] exception is thrown and the
    environment is marked failed; every item that was in the flat model is
    still there, at its position, marked removed; the items [constraint
    false;] and [solve satisfy;] are in the flat model, and everything else
    in it is marked removed; the output model holds the empty output item,
    and everything else in it is marked removed. *)
Theorem C3_fail_post_state (msg : string) (loc : Location) (env : EnvI) :
  failed env = false ->
  exists env',
    fail msg loc env = (Throw ModelInconsistent, env')
    /\ failed env' = true
    /\ (forall i it, nth_error (flat_ env) i = Some it ->
                     nth_error (flat_ env') i = Some (Item_remove it))
    /\ In constraint_false (flat_ env')
    /\ In solve_satisfy (flat_ env')
    /\ Forall (fun it => i_removed it = true \/ it = constraint_false \/ it = solve_satisfy)
              (flat_ env')
    /\ In empty_output (output env')
    /\ Forall (fun it => i_removed it = true \/ it = empty_output) (output env').
Proof.
  intros Hf.
  destruct (fail_first msg loc env Hf) as (env' & Hr & Hfd & Hfl & Hout & _).
  exists env'. rewrite Hfl, Hout.
  assert (Hin : forall (x : Item) (l tl : list Item), In x tl -> In x (l ++ tl)).
  { intros x l tl Hx. apply in_or_app. right. exact Hx. }
  split; [exact Hr|]. split; [exact Hfd|].
  split; [intros i it Hi; apply nth_error_map_app; exact Hi|].
  split; [apply Hin; simpl; auto|].
  split; [apply Hin; simpl; auto|].
  split.
  { apply Forall_app. split.
    - eapply Forall_impl; [|apply Forall_map_removed]. simpl. auto.
    - constructor; [right; left; reflexivity|].
      constructor; [right; right; reflexivity|]. constructor. }
  split; [apply Hin; simpl; auto|].
  apply Forall_app. split.
  - eapply Forall_impl; [|apply Forall_map_removed]. simpl. auto.
  - constructor; [right; reflexivity|]. constructor.
Qed.

(** C3 on a model with a declaration, a constraint, a solve item and an
    output item. *)
Lemma C3_fail_post_state_witness :
  failed Sample.env1 = false
  /\ exists env',
    fail "expression evaluated to false" Location_ Sample.env1
    = (Throw ModelInconsistent, env')
    /\ failed env' = true
    /\ (forall i it, nth_error (flat_ Sample.env1) i = Some it ->
                     nth_error (flat_ env') i = Some (Item_remove it))
    /\ In constraint_false (flat_ env')
    /\ In solve_satisfy (flat_ env')
    /\ Forall (fun it => i_removed it = true \/ it = constraint_false \/ it = solve_satisfy)
              (flat_ env')
    /\ In empty_output (output env')
    /\ Forall (fun it => i_removed it = true \/ it = empty_output) (output env').
Proof.
  split; [reflexivity|].
  apply (C3_fail_post_state "expression evaluated to false" Location_ Sample.env1).
  reflexivity.
Defined.

Lemma fail_on_failed (msg : string) (loc : Location) (env : EnvI) :
  failed env = true -> fail msg loc env = (Ok tt, env).
Proof.
  unfold failed, fail. intros H. rewrite H. reflexivity.
Qed.

(** C10. On an environment that has failed, [fail(msg, loc)] returns
    normally and leaves the environment as it is: no warning is added, no
    item of the flat or output model is added or removed, nothing is
    thrown.  So does every further sequence of calls: the skeleton written
    by the first failure stays the only one. *)
Theorem C10_fail_after_failure (msg : string) (loc : Location) (env : EnvI) :
  failed env = true ->
  fail msg loc env = (Ok tt, env)
  /\ forall calls, fail_calls calls env = env.
Proof.
  intros H. split.
  - apply fail_on_failed. exact H.
  - intros calls. induction calls as [|c calls IH]; simpl.
    + reflexivity.
    + rewrite (fail_on_failed (fst c) (snd c) env H). simpl. exact IH.
Qed.

(** C10 on the environment that the first failure of [Sample.env1] leaves
    behind. *)
Lemma C10_fail_after_failure_witness :
  let env' := snd (fail "first" Location_ Sample.env1) in
  failed env' = true
  /\ fail "second" Location_ env' = (Ok tt, env')
  /\ forall calls, fail_calls calls env' = env'.
Proof.
  intro env'. split; [reflexivity|].
  apply (C10_fail_after_failure "second" Location_ env'). reflexivity.
Defined.

(** ** The JSON lexer *)

Lemma append_nil_r (s : string) : String.append s EmptyString = s.
Proof.
  induction s as [|c s IH]; simpl; [reflexivity|]. rewrite IH. reflexivity.
Qed.

Lemma append_assoc (a b c : string) :
  String.append (String.append a b) c = String.append a (String.append b c).
Proof.
  induction a as [|x a IH]; simpl; [reflexivity|]. rewrite IH. reflexivity.
Qed.

Section LexerProperties.
Import JSONParser.
Variable D : Type.
Variable istringstream_int : string -> Z.
Variable istringstream_double : string -> D.

Let loop := readToken_loop istringstream_int istringstream_double.

(** One round in the state [S_STRING_ESCAPE] appends the translation of
    the escaped character and returns to [S_STRING]. *)
Lemma readToken_escape_step (c : ascii) (cs : list ascii) (acc : string) (p : Parser) :
  loop (c :: cs) S_STRING_ESCAPE acc p
  = loop cs S_STRING (String.append acc (spec_escape c))
         (mkParser (p_filename p) (p_line p) (p_column p + 1)).
Proof.
  unfold loop, spec_escape. simpl.
  destruct (c =? "n")%char; [reflexivity|].
  destruct (c =? "t")%char; [reflexivity|].
  destruct (c =? dquote)%char; [reflexivity|].
  destruct (c =? "\")%char; [reflexivity|].
  unfold push_back. rewrite append_assoc. reflexivity.
Qed.

(** The loop invariant of the state [S_STRING]: the characters read so
    far, translated, are in [acc]. *)
Lemma readToken_string_body (n : nat) :
  forall (raw rest : list ascii) (acc : string) (p : Parser),
    (List.length raw <= n)%nat ->
    string_body raw = true ->
    loop (raw ++ dquote :: rest) S_STRING acc p
    = mkOutcome (inl (Token_string (String.append acc (spec_unescape raw))))
                (mkIstream rest true)
                (mkParser (p_filename p) (p_line p)
                          (p_column p + Z.of_nat (List.length raw) + 1)).
Proof.
  induction n as [|n IH]; intros raw rest acc p Hlen Hbody.
  - destruct raw; [|simpl in Hlen; lia].
    unfold loop. simpl. rewrite append_nil_r.
    replace (p_column p + 0 + 1) with (p_column p + 1) by lia. reflexivity.
  - destruct raw as [|c raw].
    + unfold loop. simpl. rewrite append_nil_r.
      replace (p_column p + 0 + 1) with (p_column p + 1) by lia. reflexivity.
    + simpl in Hbody.
      destruct (c =? "\")%char eqn:Hbs.
      * destruct raw as [|e raw]; [discriminate|].
        apply Ascii.eqb_eq in Hbs. subst c.
        change (loop (("\"%char :: e :: raw) ++ dquote :: rest) S_STRING acc p)
          with (loop ((e :: raw) ++ dquote :: rest) S_STRING_ESCAPE acc
                     (mkParser (p_filename p) (p_line p) (p_column p + 1))).
        change ((e :: raw) ++ dquote :: rest) with (e :: (raw ++ dquote :: rest)).
        rewrite readToken_escape_step.
        fold loop. rewrite IH; [|simpl in Hlen; lia|exact Hbody].
        cbn [spec_unescape p_filename p_line p_column List.length].
        rewrite append_assoc. f_equal. f_equal.
        rewrite !Nat2Z.inj_succ. lia.
      * destruct (c =? dquote)%char eqn:Hq; [discriminate|].
        unfold loop. simpl. rewrite Hq, Hbs. fold loop.
        rewrite IH; [|simpl in Hlen; lia|exact Hbody].
        unfold push_back. rewrite append_assoc.
        cbn [spec_unescape p_filename p_line p_column List.length String.append].
        f_equal. f_equal. lia.
Qed.

(** C9. A string token: after the opening quote, the lexer reads the raw
    text up to the closing quote and returns the string in which
    backslash-n, backslash-t, backslash-quote and backslash-backslash are
    replaced by newline, tab, quote and backslash, and a backslash
    followed by any other character [c] is kept as backslash and [c]
    ([spec_unescape]); the stream is left after the closing quote. *)
Theorem C9_readToken_string (raw rest : list ascii) (p : Parser) :
  string_body raw = true ->
  readToken istringstream_int istringstream_double
            (mkIstream (dquote :: raw ++ dquote :: rest) true) p
  = mkOutcome (inl (Token_string (spec_unescape raw)))
              (mkIstream rest true)
              (mkParser (p_filename p) (p_line p)
                        (p_column p + Z.of_nat (List.length raw) + 2)).
Proof.
  intros Hbody. unfold readToken. simpl is_good. cbv iota. simpl is_chars.
  change (readToken_loop istringstream_int istringstream_double
            (dquote :: raw ++ dquote :: rest) S_NOTHING EmptyString p)
    with (loop (raw ++ dquote :: rest) S_STRING EmptyString
               (mkParser (p_filename p) (p_line p) (p_column p + 1))).
  rewrite (readToken_string_body (List.length raw)); [|lia|exact Hbody].
  cbn [p_filename p_line p_column String.append]. f_equal. f_equal. lia.
Qed.

End LexerProperties.

(** C9 on a raw text with the four known escapes and the unknown escape
    backslash-q, which stays as it is. *)
Lemma C9_readToken_string_witness :
  let raw := list_ascii_of_string
               (String.append "a\nb\" (String JSONParser.dquote "c\\d\qe")) in
  JSONParser.string_body raw = true
  /\ JSONParser.readToken (fun _ => 0) (fun _ => tt)
       (JSONParser.mkIstream (JSONParser.dquote :: raw ++ JSONParser.dquote :: [","%char])
                             true)
       (JSONParser.mkParser "data.json" 1 0)
     = JSONParser.mkOutcome
         (inl (JSONParser.Token_string
                 (String "a" (String "010" (String "b" (String JSONParser.dquote
                    (String "c" (String "\" (String "d" (String "\" (String "q"
                       (String "e" EmptyString))))))))))))
         (JSONParser.mkIstream [","%char] true)
         (JSONParser.mkParser "data.json" 1 15).
Proof.
  intro raw. split; [reflexivity|].
  apply (C9_readToken_string unit (fun _ => 0) (fun _ : string => tt) raw [","%char]
                             (JSONParser.mkParser "data.json" 1 0)).
  reflexivity.
Defined.

(** ** Plumbing of the monad and of the call stack *)

Lemma mbind_ok {A B : Type} (m : M A) (k : A -> M B) env a env' :
  m env = (Ok a, env') -> mbind m k env = k a env'.
Proof. unfold mbind. intros ->. reflexivity. Qed.

Lemma mbind_throw {A B : Type} (m : M A) (k : A -> M B) env ex env' :
  m env = (Throw ex, env') -> mbind m k env = (Throw ex, env').
Proof. unfold mbind. intros ->. reflexivity. Qed.

Lemma with_csi_eq {A : Type} (e : Expression) (m : M A) (env : EnvI) :
  with_csi e m env
  = (fst (m (csi_env e env)), csi_leave e env (snd (m (csi_env e env)))).
Proof.
  unfold with_csi, csi_env, csi_leave, finally.
  destruct (CallStackItem_enter e env) as [c env1]. simpl.
  destruct (m env1) as [r env']. reflexivity.
Qed.

Lemma mbind_inv {A B : Type} (m : M A) (k : A -> M B) env b env' :
  mbind m k env = (Ok b, env') ->
  exists a env1, m env = (Ok a, env1) /\ k a env1 = (Ok b, env').
Proof.
  unfold mbind. destruct (m env) as [[a | ex |] env1]; intros H; try discriminate H.
  exists a, env1. split; [reflexivity | exact H].
Qed.

Lemma with_csi_inv {A : Type} (e : Expression) (m : M A) env b env' :
  with_csi e m env = (Ok b, env') ->
  exists env1, m (csi_env e env) = (Ok b, env1).
Proof.
  rewrite with_csi_eq. intros H.
  destruct (m (csi_env e env)) as [r env1]. cbn [fst snd] in H.
  exists env1. congruence.
Qed.

Ltac bind_inv H :=
  let a := fresh "a" in
  let env1 := fresh "env" in
  let Hm := fresh "Hm" in
  apply mbind_inv in H; destruct H as (a & env1 & Hm & H).

Tactic Notation "bind_inv_as" hyp(H) "as" ident(a) ident(e) ident(Hm) :=
  apply mbind_inv in H; destruct H as (a & e & Hm & H).

Lemma CallStackItem_enter_functions (e : Expression) (env : EnvI) :
  functions (csi_env e env) = functions env
  /\ decls (csi_env e env) = decls env
  /\ failed_ (csi_env e env) = failed_ env.
Proof.
  unfold csi_env, CallStackItem_enter.
  destruct (node e); try destruct (String.eqb _ _); try destruct (String.eqb _ _);
    simpl; destruct (ann_contains _ _); simpl; auto.
Qed.


Lemma has_body_csi (e : Expression) (env : EnvI) (d : option FnRef) :
  has_body (csi_env e env) d = has_body env d.
Proof.
  unfold has_body, get_fn.
  destruct (CallStackItem_enter_functions e env) as (-> & _). reflexivity.
Qed.

(** One unfolding of the recursive knot. *)
Lemma ev_int_S (orc : Oracles) (n : nat) :
  ev_int (evals orc (S n)) = eval_int_internal orc (evals orc n).
Proof. reflexivity. Qed.

Lemma ev_float_S (orc : Oracles) (n : nat) :
  ev_float (evals orc (S n)) = eval_float orc (evals orc n).
Proof. reflexivity. Qed.

Lemma ev_par_S (orc : Oracles) (n : nat) :
  ev_par (evals orc (S n)) = eval_par orc (evals orc n).
Proof. reflexivity. Qed.

Lemma ev_bool_S (orc : Oracles) (n : nat) :
  ev_bool (evals orc (S n)) = eval_bool orc (evals orc n).
Proof. reflexivity. Qed.

(** ** Undefined arithmetic (eval_int_internal, eval_float) *)

Section Undefinedness.
Variable orc : Oracles.
Variable rec : Evals.

(** The [E_BINOP] case of [eval_int_internal] once both operands have been
    evaluated. *)
Lemma eval_int_internal_binop t a lhs op rhs d env v0 v1 env1 env2 :
  let e := Expr t a (BinOp lhs op rhs d) in
  Ty.isbool t = false ->
  has_body env d = false ->
  ev_int rec lhs (csi_env e env) = (Ok v0, env1) ->
  ev_int rec rhs env1 = (Ok v1, env2) ->
  eval_int_internal orc rec e env
  = (fst (arith_to_eval
            (match op with
             | BOT_PLUS => lift (IntVal_.plus v0 v1)
             | BOT_MINUS => lift (IntVal_.minus v0 v1)
             | BOT_MULT => lift (IntVal_.mult v0 v1)
             | BOT_POW =>
                 if IntVal_.eqb v0 (IntFin 0) && IntVal_.ltb v1 (IntFin 0)
                 then throw (ResultUndefinedError "negative power of zero is undefined")
                 else lift (IntVal_pow orc v0 v1)
             | BOT_IDIV =>
                 if IntVal_.eqb v1 (IntFin 0)
                 then throw (ResultUndefinedError "division by zero")
                 else lift (IntVal_.div v0 v1)
             | BOT_MOD =>
                 if IntVal_.eqb v1 (IntFin 0)
                 then throw (ResultUndefinedError "division by zero")
                 else lift (IntVal_.mod_ v0 v1)
             | _ => throw (EvalError "not an integer expression")
             end) env2),
     csi_leave e env env2).
Proof.
  intros e Hb Hd H0 H1.
  unfold eval_int_internal. subst e. cbn [type node]. rewrite Hb.
  rewrite with_csi_eq.
  set (e := Expr t a (BinOp lhs op rhs d)) in *.
  unfold arith_to_eval, mbind, get_env.
  rewrite has_body_csi, Hd, H0, H1.
  destruct op; unfold lift, throw; cbn [fst snd];
    repeat match goal with
           | |- context [if ?c then _ else _] => destruct c
           | |- context [IntVal_.plus ?x ?y] => destruct (IntVal_.plus x y) as [?|[]|]
           | |- context [IntVal_.minus ?x ?y] => destruct (IntVal_.minus x y) as [?|[]|]
           | |- context [IntVal_.mult ?x ?y] => destruct (IntVal_.mult x y) as [?|[]|]
           | |- context [IntVal_.div ?x ?y] => destruct (IntVal_.div x y) as [?|[]|]
           | |- context [IntVal_.mod_ ?x ?y] => destruct (IntVal_.mod_ x y) as [?|[]|]
           | |- context [IntVal_pow orc ?x ?y] => destruct (IntVal_pow orc x y) as [?|[]|]
           end; reflexivity.
Qed.

(** The [E_BINOP] case of [eval_float] once both operands have been
    evaluated and the divisor is zero. *)
Lemma eval_float_div_zero t a lhs rhs d env v0 v1 env1 env2 :
  let e := Expr t a (BinOp lhs BOT_DIV rhs d) in
  Ty.isint t = false ->
  Ty.isbool t = false ->
  has_body env d = false ->
  ev_float rec lhs (csi_env e env) = (Ok v0, env1) ->
  ev_float rec rhs env1 = (Ok v1, env2) ->
  FloatVal_.eqb v1 FloatVal_.zero = true ->
  eval_float orc rec e env
  = (Throw (ResultUndefinedError "division by zero"), csi_leave e env env2).
Proof.
  intros e Hi Hb Hd H0 H1 Hz.
  unfold eval_float. subst e. cbn [type node]. rewrite Hi, Hb.
  rewrite with_csi_eq.
  set (e := Expr t a (BinOp lhs BOT_DIV rhs d)) in *.
  unfold arith_to_eval, mbind, get_env.
  rewrite has_body_csi, Hd, H0, H1, Hz. reflexivity.
Qed.

End Undefinedness.

(** C2. Evaluation of a parameter expression with the built-in operator
    (no user-defined body): an integer [a div b] or [a mod b] whose operands
    evaluate and whose divisor evaluates to 0 raises
    [ResultUndefinedError]; so does an integer [a ^ b] whose base evaluates
    to 0 and whose exponent to a negative number; so does a float [a / b]
    whose divisor evaluates to a zero.  No value is returned and no other
    error is raised. *)
Theorem C2_undefined_operations (orc : Oracles) (n : nat)
        (a : list Expression) (lhs rhs : Expression) (d : option FnRef) (env : EnvI) :
  has_body env d = false ->
  (forall t op v0 env1 env2,
      let e := Expr t a (BinOp lhs op rhs d) in
      Ty.isbool t = false ->
      op = BOT_IDIV \/ op = BOT_MOD ->
      eval_int orc n lhs (csi_env e env) = (Ok v0, env1) ->
      eval_int orc n rhs env1 = (Ok (IntFin 0), env2) ->
      eval_int orc (S n) e env
      = (Throw (ResultUndefinedError "division by zero"), csi_leave e env env2))
  /\ (forall t z env1 env2,
         let e := Expr t a (BinOp lhs BOT_POW rhs d) in
         Ty.isbool t = false ->
         z < 0 ->
         eval_int orc n lhs (csi_env e env) = (Ok (IntFin 0), env1) ->
         eval_int orc n rhs env1 = (Ok (IntFin z), env2) ->
         eval_int orc (S n) e env
         = (Throw (ResultUndefinedError "negative power of zero is undefined"),
            csi_leave e env env2))
  /\ (forall t v0 v1 env1 env2,
         let e := Expr t a (BinOp lhs BOT_DIV rhs d) in
         Ty.isint t = false ->
         Ty.isbool t = false ->
         ev_float (evals orc n) lhs (csi_env e env) = (Ok v0, env1) ->
         ev_float (evals orc n) rhs env1 = (Ok v1, env2) ->
         FloatVal_.eqb v1 FloatVal_.zero = true ->
         ev_float (evals orc (S n)) e env
         = (Throw (ResultUndefinedError "division by zero"), csi_leave e env env2)).
Proof.
  intros Hd. split; [|split].
  - intros t op v0 env1 env2 e Hb Hop H0 H1.
    unfold eval_int in *. rewrite ev_int_S.
    pose proof (eval_int_internal_binop orc (evals orc n) t a lhs op rhs d env
                  v0 (IntFin 0) env1 env2 Hb Hd H0 H1) as HH.
    cbv zeta in HH. subst e. rewrite HH.
    destruct Hop; subst op; reflexivity.
  - intros t z env1 env2 e Hb Hz H0 H1.
    unfold eval_int in *. rewrite ev_int_S.
    pose proof (eval_int_internal_binop orc (evals orc n) t a lhs BOT_POW rhs d env
                  (IntFin 0) (IntFin z) env1 env2 Hb Hd H0 H1) as HH.
    cbv zeta in HH. subst e. rewrite HH.
    cbn [IntVal_.eqb IntVal_.ltb]. rewrite Z.eqb_refl.
    apply Z.ltb_lt in Hz. rewrite Hz. reflexivity.
  - intros t v0 v1 env1 env2 e Hi Hb H0 H1 Hz.
    rewrite ev_float_S.
    apply (eval_float_div_zero orc (evals orc n) t a lhs rhs d env v0 v1 env1 env2
             Hi Hb Hd H0 H1 Hz).
Qed.

Lemma C2_undefined_operations_witness :
  fst (eval_int Sample.orc 2
         (Sample.binop Ty.parint (Sample.int 7) BOT_IDIV (Sample.int 0)) Sample.env0)
  = Throw (ResultUndefinedError "division by zero")
  /\ fst (eval_int Sample.orc 2
            (Sample.binop Ty.parint (Sample.int 7) BOT_MOD (Sample.int 0)) Sample.env0)
     = Throw (ResultUndefinedError "division by zero")
  /\ fst (eval_int Sample.orc 2
            (Sample.binop Ty.parint (Sample.int 0) BOT_POW (Sample.int (-2))) Sample.env0)
     = Throw (ResultUndefinedError "negative power of zero is undefined")
  /\ fst (ev_float (evals Sample.orc 2)
            (Sample.binop Ty.parfloat (Lit.FloatLit_a (FloatVal_.of_Z 3)) BOT_DIV
               (Lit.FloatLit_a (S754_zero true))) Sample.env0)
     = Throw (ResultUndefinedError "division by zero").
Proof.
  split; [|split; [|split]].
  - destruct (C2_undefined_operations Sample.orc 1 [] (Sample.int 7) (Sample.int 0)
                None Sample.env0 eq_refl) as (H & _ & _).
    unfold Sample.binop.
    rewrite (H Ty.parint BOT_IDIV (IntFin 7) _ _ eq_refl (or_introl eq_refl)
               eq_refl eq_refl).
    reflexivity.
  - destruct (C2_undefined_operations Sample.orc 1 [] (Sample.int 7) (Sample.int 0)
                None Sample.env0 eq_refl) as (H & _ & _).
    unfold Sample.binop.
    rewrite (H Ty.parint BOT_MOD (IntFin 7) _ _ eq_refl (or_intror eq_refl)
               eq_refl eq_refl).
    reflexivity.
  - destruct (C2_undefined_operations Sample.orc 1 [] (Sample.int 0) (Sample.int (-2))
                None Sample.env0 eq_refl) as (_ & H & _).
    unfold Sample.binop.
    rewrite (H Ty.parint (-2) _ _ eq_refl eq_refl eq_refl eq_refl).
    reflexivity.
  - destruct (C2_undefined_operations Sample.orc 1 []
                (Lit.FloatLit_a (FloatVal_.of_Z 3)) (Lit.FloatLit_a (S754_zero true))
                None Sample.env0 eq_refl) as (_ & _ & H).
    unfold Sample.binop.
    rewrite (H Ty.parfloat (FloatVal_.of_Z 3) (S754_zero true) _ _ eq_refl eq_refl
               eq_refl eq_refl eq_refl).
    reflexivity.
Defined.

(** ** Array access (eval_arrayaccess, ArrayAccessSucess::errorMessage) *)

Section ArrayAccessProperties.
Variable orc : Oracles.
Variable rec : Evals.



(** The offending dimension is one of the array's, and the recorded index
    is outside the recorded index set. *)
Lemma first_outside_sound dims idx d env k lo hi ix env' :
  first_outside rec dims idx d env k lo hi ix env' ->
  (d <= k)%nat /\ nth_error dims (k - d) = Some (lo, hi)
  /\ (IntVal_.ltb ix (IntFin lo) = true \/ IntVal_.ltb (IntFin hi) ix = true).
Proof.
  induction 1 as [lo hi dims i idx d env ix env' Hi Hout
                 | lo hi dims i idx d env iz env1 k lo' hi' ix env' Hi Hin _ IH].
  - rewrite Nat.sub_diag. split; [lia|]. split; [reflexivity|].
    apply orb_true_iff. exact Hout.
  - destruct IH as (Hle & Hn & Ho). split; [lia|]. split; [|exact Ho].
    replace (k - d)%nat with (S (k - S d)) by lia. exact Hn.
Qed.

End ArrayAccessProperties.

Section ErrorMessage.
Variable orc : Oracles.



End ErrorMessage.

Section ArrayAccessClaim.
Variable orc : Oracles.
Variable rec : Evals.



End ArrayAccessClaim.



(** ** Integer bounds (ComputeIntBounds, compute_int_bounds) *)

Lemma IntVal_min_fin (a b : Z) :
  IntVal_.min (IntFin a) (IntFin b) = IntFin (Z.min a b).
Proof.
  unfold IntVal_.min, IntVal_.ltb.
  destruct (Z.ltb_spec b a); f_equal; lia.
Qed.

Lemma IntVal_max_fin (a b : Z) :
  IntVal_.max (IntFin a) (IntFin b) = IntFin (Z.max a b).
Proof.
  unfold IntVal_.max, IntVal_.ltb.
  destruct (Z.ltb_spec a b); f_equal; lia.
Qed.

Lemma zero_to_one_fin (z : Z) : zero_to_one (IntFin z) = IntFin (nonzero_lower z).
Proof.
  unfold zero_to_one, nonzero_lower, IntVal_.eqb. destruct (z =? 0); reflexivity.
Qed.

Lemma zero_to_minus_one_fin (z : Z) :
  zero_to_minus_one (IntFin z) = IntFin (nonzero_upper z).
Proof.
  unfold zero_to_minus_one, nonzero_upper, IntVal_.eqb. destruct (z =? 0); reflexivity.
Qed.

Lemma nonzero_lower_eqb (z : Z) : (nonzero_lower z =? 0) = false.
Proof.
  unfold nonzero_lower. destruct (Z.eqb_spec z 0); [reflexivity|].
  apply Z.eqb_neq. assumption.
Qed.

Lemma nonzero_upper_eqb (z : Z) : (nonzero_upper z =? 0) = false.
Proof.
  unfold nonzero_upper. destruct (Z.eqb_spec z 0); [reflexivity|].
  apply Z.eqb_neq. assumption.
Qed.

(** The four corner values of an operation that checks its result. *)
Lemma corners_checked (op : IntVal -> IntVal -> Result IntVal) (q : Z -> Z -> Z)
      (a b c d : Z) (env : EnvI) :
  op (IntFin a) (IntFin c) = IntVal_.checked (q a c) ->
  op (IntFin a) (IntFin d) = IntVal_.checked (q a d) ->
  op (IntFin b) (IntFin c) = IntVal_.checked (q b c) ->
  op (IntFin b) (IntFin d) = IntVal_.checked (q b d) ->
  corners op (IntFin a) (IntFin b) (IntFin c) (IntFin d) env
  = if IntVal_.in_range (q a c) && IntVal_.in_range (q a d)
       && IntVal_.in_range (q b c) && IntVal_.in_range (q b d)
    then (Ok (IntFin (corner_min q a b c d), IntFin (corner_max q a b c d)), env)
    else (Throw IntVal_.overflow, env).
Proof.
  intros H1 H2 H3 H4. unfold corners, mbind, lift, ret.
  rewrite H1, H2, H3, H4. unfold IntVal_.checked.
  destruct (IntVal_.in_range (q a c)); [|reflexivity].
  destruct (IntVal_.in_range (q a d)); [|reflexivity].
  destruct (IntVal_.in_range (q b c)); [|reflexivity].
  destruct (IntVal_.in_range (q b d)); [|reflexivity].
  cbn [andb]. unfold min4, max4, corner_min, corner_max.
  rewrite !IntVal_min_fin, !IntVal_max_fin. reflexivity.
Qed.

(** [vBinOp] for [div] and [mod] on finite operand bounds. *)
Lemma vBinOp_div_mod (op : BinOpType) (l0 u0 l1 u1 : Z) (rest : list Bounds)
      (vld : bool) (env : EnvI) :
  op = BOT_IDIV \/ op = BOT_MOD ->
  vBinOp op (mkCIB ((IntFin l1, IntFin u1) :: (IntFin l0, IntFin u0) :: rest) vld) env
  = if corner_fit (corner_op op) l0 u0 l1 u1
    then (Ok (mkCIB ((IntFin (fst (corner_bounds (corner_op op) l0 u0 l1 u1)),
                      IntFin (snd (corner_bounds (corner_op op) l0 u0 l1 u1))) :: rest)
                    vld), env)
    else (Throw IntVal_.overflow, env).
Proof.
  intros Hop. unfold vBinOp, CIB.pop. unfold mbind at 1 2. unfold ret at 1 2.
  cbn [cb_bounds cb_valid fst snd IntVal_.isFinite negb orb].
  destruct Hop; subst op; cbn [corner_op];
    rewrite !zero_to_one_fin, !zero_to_minus_one_fin; unfold mbind;
    [rewrite (corners_checked IntVal_.div Z.quot)
    |rewrite (corners_checked IntVal_.mod_ Z.rem)];
    try (unfold IntVal_.div, IntVal_.mod_;
         rewrite ?nonzero_lower_eqb, ?nonzero_upper_eqb; reflexivity);
    unfold corner_fit, corner_bounds;
    match goal with
    | |- context [if ?c then _ else _] => destruct c
    end; reflexivity.
Qed.

(** Every visit method without a rule leaves the visitor invalid. *)
Lemma visit_uncovered (orc : Oracles) (ev : Evals)
      (run : Expression -> ComputeIntBounds -> M ComputeIntBounds)
      (e : Expression) (cb : ComputeIntBounds) (env : EnvI) :
  uncovered e = true ->
  operands_visited e cb = true ->
  exists cb', visit orc ev run e cb env = (Ok cb', env) /\ cb_valid cb' = false.
Proof.
  unfold uncovered, operands_visited, visit. intros Hu Hv.
  destruct (node e) as [ | | | | | | | | | | | | lhs op rhs d | op x d | | | | | ];
    try discriminate;
    try (eexists; split; [reflexivity | reflexivity]).
  - unfold vBinOp, CIB.pop, mbind, ret.
    destruct (cb_bounds cb) as [|b1 [|b0 rest]]; try discriminate.
    cbn [cb_bounds cb_valid fst snd].
    destruct (negb (IntVal_.isFinite (fst b1)) || negb (IntVal_.isFinite (snd b1))
              || negb (IntVal_.isFinite (fst b0)) || negb (IntVal_.isFinite (snd b0)));
      [eexists; split; reflexivity|].
    destruct op; try discriminate; eexists; split; reflexivity.
  - destruct op; try discriminate. eexists; split; reflexivity.
Qed.

Section BoundsClaim.
Variable orc : Oracles.
Variable ev : Evals.

Lemma enter_entered (run : Expression -> ComputeIntBounds -> M ComputeIntBounds)
      (e : Expression) (cb : ComputeIntBounds) (env : EnvI) :
  entered e = true -> enter ev run e cb env = (Ok (true, cb), env).
Proof.
  unfold entered, enter. intros H.
  destruct (Ty.isAnn (type e)); [discriminate|].
  destruct (node e); cbn [negb andb] in H |- *; try discriminate;
    destruct (0 <? dim (type e)); try discriminate;
    destruct (Ty.isPar (type e) && negb (cv (type e))); try discriminate;
    destruct (Ty.isint (type e)); try discriminate; reflexivity.
Qed.

(** The result of [compute_int_bounds] from the state in which the
    traversal ends. *)
Lemma compute_int_bounds_of_run (n : nat) (e : Expression) (env : EnvI)
      (cb : ComputeIntBounds) (env' : EnvI) :
  BottomUpIterator_run orc ev n e ComputeIntBounds_ env = (Ok cb, env') ->
  (cb_valid cb = false ->
   compute_int_bounds orc ev n e env
   = (Ok (mkIntBounds (IntFin 0) (IntFin 0) false), env'))
  /\ (forall l u, cb_valid cb = true -> cb_bounds cb = [(l, u)] ->
      compute_int_bounds orc ev n e env = (Ok (mkIntBounds l u true), env')).
Proof.
  intros Hrun. unfold compute_int_bounds, catch_undefined, mbind. rewrite Hrun.
  split.
  - intros ->. reflexivity.
  - intros l u -> ->. reflexivity.
Qed.

(** The traversal of a binary operation that the visitor enters, from the
    state in which the traversal of its operands ends. *)
Lemma run_binop (n : nat) (e lhs : Expression) (op : BinOpType) (rhs : Expression)
      (d : option FnRef) (env : EnvI) (cb0 : ComputeIntBounds) (env1 : EnvI)
      (cb1 : ComputeIntBounds) (env2 : EnvI) :
  entered e = true ->
  node e = BinOp lhs op rhs d ->
  BottomUpIterator_run orc ev n lhs ComputeIntBounds_ env = (Ok cb0, env1) ->
  BottomUpIterator_run orc ev n rhs cb0 env1 = (Ok cb1, env2) ->
  BottomUpIterator_run orc ev (S n) e ComputeIntBounds_ env = vBinOp op cb1 env2.
Proof.
  intros He Hn H0 H1. cbn [BottomUpIterator_run]. unfold run_step, mbind.
  rewrite (enter_entered _ e ComputeIntBounds_ env He).
  unfold children, visit. rewrite Hn. cbn [run_all]. unfold mbind.
  rewrite H0, H1. reflexivity.
Qed.

(** [vBinOp] when one of the four operand bounds is infinite. *)
Lemma vBinOp_infinite (op : BinOpType) (b0 b1 : Bounds) (rest : list Bounds)
      (vld : bool) (env : EnvI) :
  finite_bounds b0 b1 = false ->
  vBinOp op (mkCIB (b1 :: b0 :: rest) vld) env
  = (Ok (mkCIB ((IntFin 0, IntFin 0) :: rest) false), env).
Proof.
  intros Hf. unfold vBinOp, CIB.pop, mbind, ret.
  cbn [cb_bounds cb_valid fst snd].
  unfold finite_bounds in Hf.
  destruct (IntVal_.isFinite (fst b1)), (IntVal_.isFinite (snd b1)),
    (IntVal_.isFinite (fst b0)), (IntVal_.isFinite (snd b0));
    cbn [negb orb andb] in Hf |- *; try discriminate Hf; reflexivity.
Qed.

(** C5, for finite operand bounds.  For an integer expression [b0 div b1]
    or [b0 mod b1] that the visitor enters: (1) when the operand bounds are
    valid and finite, [l0..u0] and [l1..u1], and no corner value overflows,
    [compute_int_bounds] returns the least and the greatest of the four
    corner quotients (remainders) after a zero lower corner is replaced by
    1 and a zero upper corner by -1; when a corner value overflows, the
    [ArithmeticError] of the overflow is raised; (2) when one of the four
    operand bounds is infinite, it returns [0,0] with [valid] false.
    (3) For an entered expression of a kind for which the visitor has no
    rule it returns [0,0] with [valid] false. *)
Theorem C5_compute_int_bounds (n : nat) (e : Expression) (env : EnvI) :
  entered e = true ->
  (forall lhs op rhs d l0 u0 env1 l1 u1 env2,
      node e = BinOp lhs op rhs d ->
      op = BOT_IDIV \/ op = BOT_MOD ->
      BottomUpIterator_run orc ev n lhs ComputeIntBounds_ env
      = (Ok (mkCIB [(IntFin l0, IntFin u0)] true), env1) ->
      BottomUpIterator_run orc ev n rhs (mkCIB [(IntFin l0, IntFin u0)] true) env1
      = (Ok (mkCIB [(IntFin l1, IntFin u1); (IntFin l0, IntFin u0)] true), env2) ->
      (corner_fit (corner_op op) l0 u0 l1 u1 = true ->
       compute_int_bounds orc ev (S n) e env
       = (Ok (mkIntBounds
                (IntFin (fst (corner_bounds (corner_op op) l0 u0 l1 u1)))
                (IntFin (snd (corner_bounds (corner_op op) l0 u0 l1 u1))) true),
          env2))
      /\ (corner_fit (corner_op op) l0 u0 l1 u1 = false ->
          compute_int_bounds orc ev (S n) e env = (Throw IntVal_.overflow, env2)))
  /\ (forall lhs op rhs d b0 v0 env1 b1 v1 env2,
         node e = BinOp lhs op rhs d ->
         op = BOT_IDIV \/ op = BOT_MOD ->
         BottomUpIterator_run orc ev n lhs ComputeIntBounds_ env
         = (Ok (mkCIB [b0] v0), env1) ->
         BottomUpIterator_run orc ev n rhs (mkCIB [b0] v0) env1
         = (Ok (mkCIB [b1; b0] v1), env2) ->
         finite_bounds b0 b1 = false ->
         compute_int_bounds orc ev (S n) e env
         = (Ok (mkIntBounds (IntFin 0) (IntFin 0) false), env2))
  /\ (forall cb env1,
         uncovered e = true ->
         run_all (BottomUpIterator_run orc ev n) (children e) ComputeIntBounds_ env
         = (Ok cb, env1) ->
         operands_visited e cb = true ->
         compute_int_bounds orc ev (S n) e env
         = (Ok (mkIntBounds (IntFin 0) (IntFin 0) false), env1)).
Proof.
  intros He. split; [|split].
  - intros lhs op rhs d l0 u0 env1 l1 u1 env2 Hn Hop H0 H1.
    pose proof (run_binop n e lhs op rhs d env _ env1 _ env2 He Hn H0 H1) as Hrun.
    pose proof (eq_trans Hrun (vBinOp_div_mod op l0 u0 l1 u1 [] true env2 Hop))
      as Hrun'.
    clear Hrun. rename Hrun' into Hrun.
    split; intros Hfit; rewrite Hfit in Hrun.
    + exact (proj2 (compute_int_bounds_of_run (S n) e env _ env2 Hrun) _ _
                   eq_refl eq_refl).
    + unfold compute_int_bounds, catch_undefined, mbind. rewrite Hrun. reflexivity.
  - intros lhs op rhs d b0 v0 env1 b1 v1 env2 Hn Hop H0 H1 Hinf.
    pose proof (run_binop n e lhs op rhs d env _ env1 _ env2 He Hn H0 H1) as Hrun.
    pose proof (eq_trans Hrun (vBinOp_infinite op b0 b1 [] v1 env2 Hinf)) as Hrun'.
    clear Hrun. rename Hrun' into Hrun.
    exact (proj1 (compute_int_bounds_of_run (S n) e env _ env2 Hrun) eq_refl).
  - intros cb env1 Hu Hc Hv.
    destruct (visit_uncovered orc ev (BottomUpIterator_run orc ev n) e cb env1 Hu Hv)
      as (cb' & Hvis & Hinv).
    refine (proj1 (compute_int_bounds_of_run (S n) e env cb' env1 _) Hinv).
    cbn [BottomUpIterator_run]. unfold run_step, mbind.
    rewrite (enter_entered _ e ComputeIntBounds_ env He). rewrite Hc. exact Hvis.
Qed.

End BoundsClaim.

Lemma C5_compute_int_bounds_witness :
  fst (compute_int_bounds Sample.orc (evals Sample.orc 3) 3
         (Sample.binop Ty.varint z BOT_IDIV (Sample.int 2)) env_z)
  = Ok (mkIntBounds (IntFin 0) (IntFin 3) true)
  /\ fst (compute_int_bounds Sample.orc (evals Sample.orc 3) 3
            (Sample.binop Ty.varint z BOT_MOD (Sample.int 4)) env_z)
     = Ok (mkIntBounds (IntFin 1) (IntFin 2) true)
  /\ fst (compute_int_bounds Sample.orc (evals Sample.orc 3) 3
            (Sample.binop Ty.varint Sample.x BOT_MOD (Sample.int 4)) Sample.env0)
     = Ok (mkIntBounds (IntFin 0) (IntFin 0) false)
  /\ fst (compute_int_bounds Sample.orc (evals Sample.orc 3) 3
            (Sample.binop Ty.varint z BOT_POW (Sample.int 4)) env_z)
     = Ok (mkIntBounds (IntFin 0) (IntFin 0) false).
Proof.
  split; [|split; [|split]].
  - destruct (C5_compute_int_bounds Sample.orc (evals Sample.orc 3) 2
                (Sample.binop Ty.varint z BOT_IDIV (Sample.int 2)) env_z eq_refl)
      as (H & _).
    destruct (H z BOT_IDIV (Sample.int 2) None 0 6 env_z 2 2 env_z
                eq_refl (or_introl eq_refl) eq_refl eq_refl) as (Hfit & _).
    rewrite (Hfit eq_refl). reflexivity.
  - destruct (C5_compute_int_bounds Sample.orc (evals Sample.orc 3) 2
                (Sample.binop Ty.varint z BOT_MOD (Sample.int 4)) env_z eq_refl)
      as (H & _).
    destruct (H z BOT_MOD (Sample.int 4) None 0 6 env_z 4 4 env_z
                eq_refl (or_intror eq_refl) eq_refl eq_refl) as (Hfit & _).
    rewrite (Hfit eq_refl). reflexivity.
  - destruct (C5_compute_int_bounds Sample.orc (evals Sample.orc 3) 2
                (Sample.binop Ty.varint Sample.x BOT_MOD (Sample.int 4)) Sample.env0
                eq_refl) as (_ & H & _).
    rewrite (H Sample.x BOT_MOD (Sample.int 4) None (IntMinusInf, IntPlusInf) true
               Sample.env0 (IntFin 4, IntFin 4) true Sample.env0
               eq_refl (or_intror eq_refl) eq_refl eq_refl eq_refl).
    reflexivity.
  - destruct (C5_compute_int_bounds Sample.orc (evals Sample.orc 3) 2
                (Sample.binop Ty.varint z BOT_POW (Sample.int 4)) env_z eq_refl)
      as (_ & _ & H).
    erewrite (H _ _ eq_refl); cycle 1.
    + reflexivity.
    + reflexivity.
    + reflexivity.
Defined.

(** C5 does not hold when an operand bound is valid but infinite: the
    bounds of the unconstrained variable [x] are valid, those of [2] are
    valid, and the result for [x div 2] is [0,0] with [valid] false. *)
Lemma C5_infinite_operand_counterexample :
  fst (compute_int_bounds Sample.orc (evals Sample.orc 3) 3 Sample.x Sample.env0)
  = Ok (mkIntBounds IntMinusInf IntPlusInf true)
  /\ fst (compute_int_bounds Sample.orc (evals Sample.orc 3) 3 (Sample.int 2) Sample.env0)
     = Ok (mkIntBounds (IntFin 2) (IntFin 2) true)
  /\ fst (compute_int_bounds Sample.orc (evals Sample.orc 3) 3
            (Sample.binop Ty.varint Sample.x BOT_IDIV (Sample.int 2)) Sample.env0)
     = Ok (mkIntBounds (IntFin 0) (IntFin 0) false).
Proof. split; [|split]; reflexivity. Qed.

(** ** Evaluation to a literal (eval_par) *)


Section EvalParLiteral.
Variable orc : Oracles.
Variable rec : Evals.




End EvalParLiteral.


(** ** Identifiers and arrays *)



















(** ** Flattening of parameter expressions (flatten_par) *)

Lemma fail_not_failed (msg : string) (l : Location) (env : EnvI) :
  failed_ env = false ->
  fst (fail msg l env) = Throw ModelInconsistent
  /\ failed (snd (fail msg l env)) = true.
Proof.
  intros Hf. unfold fail. rewrite Hf. cbn [negb].
  destruct (addWarning l _ true env) as [w env1]. split; reflexivity.
Qed.

(** C4. For a parameter expression [e] that is not cv and not an array,
    [flatten_par] evaluates [e] with [eval_par]: (1) when the evaluation
    raises [ResultUndefinedError], the result is the dummy value of the type
    of [e] and the definedness witness is bound to the literal false;
    (2) when it returns the Boolean literal false in the context ROOT with
    target [varTrue], [fail] is called: on an environment that has not
    failed yet, [ModelInconsistent] is thrown and the environment is failed;
    (3) otherwise the result is bound to the evaluated literal and the
    witness to the literal true. *)
Theorem C4_flatten_par_scalar (forc : FlatOracles) (ev : Evals) (ctx : Ctx)
        (e : Expression) (r b : option VarDeclRef) (env : EnvI) :
  cv (type e) = false ->
  (0 <? dim (type e)) = false ->
  (forall msg env1 d env2 rb env3,
      ev_par ev e env = (Throw (ResultUndefinedError msg), env1) ->
      create_dummy_value forc (type e) env1 = (Ok d, env2) ->
      bind forc Ctx_ b (Some constants.literalFalse) env2 = (Ok rb, env3) ->
      flatten_par forc ev ctx e r b env = (Ok (mkEE (Some d) rb), env3))
  /\ (forall result env1,
         ev_par ev e env = (Ok result, env1) ->
         Ty.eqb (type result) Ty.parbool = true ->
         is_boollit false result = true ->
         ctx_b ctx = C_ROOT ->
         r = Some constants.varTrue ->
         failed env1 = false ->
         flatten_par forc ev ctx e r b env
         = (Throw ModelInconsistent,
            snd (fail "expression evaluated to false" (loc forc e) env1))
         /\ failed (snd (flatten_par forc ev ctx e r b env)) = true)
  /\ (forall result env1 rr env2 rb env3,
         ev_par ev e env = (Ok result, env1) ->
         root_false ctx r result = false ->
         bind forc ctx r (Some result) env1 = (Ok rr, env2) ->
         bind forc Ctx_ b (Some constants.literalTrue) env2 = (Ok rb, env3) ->
         flatten_par forc ev ctx e r b env = (Ok (mkEE rr rb), env3)).
Proof.
  intros Hcv Hdim. unfold flatten_par. rewrite Hcv, Hdim.
  split; [|split].
  - intros msg env1 d env2 rb env3 Hev Hd Hb.
    unfold catch_undefined. unfold mbind at 1. rewrite Hev.
    unfold mbind. rewrite Hd, Hb. reflexivity.
  - intros result env1 Hev Ht Hl Hc Hr Hf.
    destruct (fail_not_failed "expression evaluated to false" (loc forc e) env1 Hf)
      as (Hthrow & Hfailed).
    assert (Hrun :
      catch_undefined
        (result0 <- ev_par ev e ;;
         (if Ty.eqb (type result0) Ty.parbool then
            if BCtx_eqb (ctx_b ctx) C_ROOT && VarDeclRef_eqb r constants.varTrue
               && is_boollit false result0
            then fail "expression evaluated to false" (loc forc e)
            else ret tt
          else ret tt) ;;;
         rr <- bind forc ctx r (Some result0) ;;
         rb <- bind forc Ctx_ b (Some constants.literalTrue) ;;
         ret (mkEE rr rb))
        (d <- create_dummy_value forc (type e) ;;
         rb <- bind forc Ctx_ b (Some constants.literalFalse) ;;
         ret (mkEE (Some d) rb)) env
      = (Throw ModelInconsistent,
         snd (fail "expression evaluated to false" (loc forc e) env1))).
    { unfold catch_undefined. unfold mbind at 1. rewrite Hev.
      unfold mbind at 1. rewrite Ht, Hc, Hr, Hl. cbn [BCtx_eqb VarDeclRef_eqb].
      rewrite Nat.eqb_refl. cbn [andb].
      destruct (fail "expression evaluated to false" (loc forc e) env1) as [res envf].
      cbn [fst snd] in *. subst res. reflexivity. }
    rewrite Hrun. split; [reflexivity | exact Hfailed].
  - intros result env1 rr env2 rb env3 Hev Hroot Hr Hb.
    unfold catch_undefined. unfold mbind at 1. rewrite Hev.
    unfold root_false in Hroot. unfold mbind at 1.
    assert (Hunit :
      (if Ty.eqb (type result) Ty.parbool then
         if BCtx_eqb (ctx_b ctx) C_ROOT && VarDeclRef_eqb r constants.varTrue
            && is_boollit false result
         then fail "expression evaluated to false" (loc forc e)
         else ret tt
       else ret tt) env1 = (Ok tt, env1)).
    { destruct (Ty.eqb (type result) Ty.parbool); [|reflexivity].
      cbn [andb] in Hroot. rewrite Hroot. reflexivity. }
    rewrite Hunit. unfold mbind. rewrite Hr, Hb. reflexivity.
Qed.

Lemma C4_flatten_par_scalar_witness :
  fst (flatten_par Sample.forc (evals Sample.orc 3) Ctx_
         (Sample.binop Ty.parint (Sample.int 7) BOT_IDIV (Sample.int 0))
         None None Sample.env0)
  = Ok (mkEE (Some (Sample.int 0)) (Some constants.literalFalse))
  /\ (fst (flatten_par Sample.forc (evals Sample.orc 3) Ctx_ constants.literalFalse
             (Some constants.varTrue) None Sample.env0)
      = Throw ModelInconsistent
      /\ failed (snd (flatten_par Sample.forc (evals Sample.orc 3) Ctx_
                        constants.literalFalse (Some constants.varTrue) None
                        Sample.env0)) = true)
  /\ fst (flatten_par Sample.forc (evals Sample.orc 3) Ctx_
            (Sample.binop Ty.parint (Sample.int 7) BOT_PLUS (Sample.int 2))
            None None Sample.env0)
     = Ok (mkEE (Some (Sample.int 9)) (Some constants.literalTrue)).
Proof.
  split; [|split].
  - destruct (C4_flatten_par_scalar Sample.forc (evals Sample.orc 3) Ctx_
                (Sample.binop Ty.parint (Sample.int 7) BOT_IDIV (Sample.int 0))
                None None Sample.env0 eq_refl eq_refl) as (H & _ & _).
    erewrite H; cycle 1.
    + reflexivity.
    + reflexivity.
    + reflexivity.
    + reflexivity.
  - destruct (C4_flatten_par_scalar Sample.forc (evals Sample.orc 3) Ctx_
                constants.literalFalse (Some constants.varTrue) None Sample.env0
                eq_refl eq_refl) as (_ & H & _).
    destruct (H constants.literalFalse _ eq_refl eq_refl eq_refl eq_refl eq_refl eq_refl)
      as (H1 & H2).
    split; [rewrite H1; reflexivity | exact H2].
  - destruct (C4_flatten_par_scalar Sample.forc (evals Sample.orc 3) Ctx_
                (Sample.binop Ty.parint (Sample.int 7) BOT_PLUS (Sample.int 2))
                None None Sample.env0 eq_refl eq_refl) as (_ & _ & H).
    erewrite H; cycle 1.
    + reflexivity.
    + reflexivity.
    + reflexivity.
    + reflexivity.
    + reflexivity.
Defined.

(** ** Let expressions (flatten_let) *)

Lemma get_decl_list_set (l : list VarDeclRec) (r : nat) (x vd : VarDeclRec) :
  nth_error l r = Some vd -> nth_error (list_set l r x) r = Some x.
Proof.
  revert r. induction l as [|h t IH]; intros [|r] H; try discriminate.
  - reflexivity.
  - cbn [list_set nth_error]. apply IH. exact H.
Qed.

Lemma get_decl_update_decl (env : EnvI) (r : VarDeclRef) (f : VarDeclRec -> VarDeclRec)
      (vd : VarDeclRec) :
  get_decl env r = Some vd -> get_decl (update_decl env r f) r = Some (f vd).
Proof.
  intros H. unfold update_decl. rewrite H. unfold get_decl in *. cbn [decls Env.set_decls].
  apply (get_decl_list_set _ _ _ vd). exact H.
Qed.

Section FlattenLetProperties.
Variable orc : Oracles.
Variable forc : FlatOracles.
Variable ev : Evals.




End FlattenLetProperties.



Section FlattenLetClaim.
Variable orc : Oracles.
Variable forc : FlatOracles.
Variable ev : Evals.


End FlattenLetClaim.


(** ** Comprehensions with a variable where-condition (flatten_comp) *)

Lemma surround_is_sum (surround : option Expression) :
  surround_is surround constants.ids.sum = true ->
  surround_is surround constants.ids.forall_ = false
  /\ surround_is surround constants.ids.exists_ = false.
Proof.
  unfold surround_is. destruct surround as [s|]; [|discriminate].
  destruct (node s); try discriminate.
  intros H. apply String.eqb_eq in H. subst. split; reflexivity.
Qed.

Section FlattenCompClaim.
Variable forc : FlatOracles.

(** C6, for the generated expression.  For a comprehension with generators
    [gens] that is rewritten (its type is optional, or it is a set
    comprehension over variables), whose variable where-conditions are
    [w :: ws] with conjunction [cond], and whose surrounding call is [sum],
    let [g] be the generated expression: the body, or the last component of
    the body of an indexed comprehension.  (1) When [g] is par, [g] is
    replaced by the product [bool2int(cond) * g] ([bool2float] when [g] is
    not an integer); (2) when [g] is var, it is replaced by the conditional
    [if cond then g else 0 endif].  The new body is the new expression, or
    for an indexed comprehension the tuple of the indexes followed by it;
    the new comprehension is not optional. *)
Theorem C6_flatten_comp_sum (n : nat) (c : Expression) (set : bool) (body : Expression)
        (gens : list Generator) (env : EnvI) (gs : list Generator)
        (w : Expression) (ws : list Expression) (env1 : EnvI) (cond : Expression)
        (env2 : EnvI) :
  node c = Comprehension set body gens ->
  Ty.isOpt (type c) || (if set then isvarset_loop gens else false) = true ->
  split_generators forc n gens [] env = (Ok (gs, w :: ws), env1) ->
  make_cond forc (w :: ws) env1 = (Ok cond, env2) ->
  surround_is (surroundingCall env2) constants.ids.sum = true ->
  let g := generated_exp body in
  (Ty.isPar (type g) = true ->
   forall d env3,
     matchFn forc (Expr (snd (sum_coercion g)) []
                        (Call (fst (sum_coercion g)) [cond] None)) env2
     = (Ok d, env3) ->
     flatten_comp_rewrite forc n c env
     = (Ok (Expr (Ty.set_ot (type c) OT_PRESENT) []
              (Comprehension set (with_generated body (sum_product cond g d)) gs)),
        env3))
  /\ (Ty.isPar (type g) = false ->
      flatten_comp_rewrite forc n c env
      = (Ok (Expr (Ty.set_ot (type c) OT_PRESENT) []
               (Comprehension set (with_generated body (sum_conditional cond g)) gs)),
         env2)).
Proof.
  intros Hn Hopt Hsplit Hcond Hsum g. subst g.
  destruct (surround_is_sum _ Hsum) as (Hforall & Hexists).
  assert (Hrun : flatten_comp_rewrite forc n c env
                 = (nb <- rewrite_body forc (surroundingCall env2) cond
                            (generated_exp body) (type c) ;;
                    ret (Expr (snd nb) []
                           (Comprehension set (with_generated body (fst nb)) gs))) env2).
  { unfold flatten_comp_rewrite. rewrite Hn, Hopt.
    unfold mbind at 1. rewrite Hsplit.
    unfold mbind at 1. rewrite Hcond.
    unfold mbind at 1. unfold get_env at 1.
    unfold generated_exp, with_generated, mbind.
    destruct (rewrite_body forc (surroundingCall env2) cond
                (match comp_indexes body with Some v => last v body | None => body end)
                (type c) env2) as [[[x ty] | ex |] env3]; reflexivity. }
  rewrite Hrun. unfold rewrite_body. rewrite Hforall, Hexists, Hsum.
  split.
  - intros Hpar d env3 Hmatch. rewrite Hpar.
    unfold mbind, Call_a, sum_product, sum_body_type, sum_coercion in *.
    destruct (Ty.BaseType_eqb (bt (type (generated_exp body))) BT_INT);
      cbn [fst snd] in Hmatch; unfold mbind; rewrite Hmatch; reflexivity.
  - intros Hpar. rewrite Hpar. reflexivity.
Qed.

End FlattenCompClaim.

Lemma C6_flatten_comp_sum_witness :
  fst (flatten_comp_rewrite Sample.forc 3 comp_par (env_sum comp_par))
  = Ok (Expr (Ty.mk TI_VAR BT_INT ST_PLAIN 1) []
          (Comprehension false
             (Expr Ty.varint []
                (BinOp (Expr Ty.varint [] (Call "bool2int" [where_p] None))
                       BOT_MULT (Sample.int 5) None))
             [Gen [Sample.x_ref] (Some (Lit.new_SetLit_isv [(IntFin 1, IntFin 3)])) None]))
  /\ fst (flatten_comp_rewrite Sample.forc 3 comp_var (env_sum comp_var))
     = Ok (Expr (Ty.mk TI_VAR BT_INT ST_PLAIN 1) []
             (Comprehension false
                (Expr Ty.varint [] (ITE [(where_p, Sample.x)] (Sample.int 0)))
                [Gen [Sample.x_ref] (Some (Lit.new_SetLit_isv [(IntFin 1, IntFin 3)]))
                     None]))
  /\ fst (flatten_comp_rewrite Sample.forc 3 comp_indexed (env_sum comp_indexed))
     = Ok (Expr (Ty.mk TI_VAR BT_INT ST_PLAIN 1) []
             (Comprehension false
                (Lit.constructTuple
                   [Sample.int 1;
                    Expr Ty.varint []
                      (BinOp (Expr Ty.varint [] (Call "bool2int" [where_p] None))
                             BOT_MULT (Sample.int 5) None)])
                [Gen [Sample.x_ref] (Some (Lit.new_SetLit_isv [(IntFin 1, IntFin 3)]))
                     None])).
Proof.
  split; [|split].
  - rewrite (proj1 (C6_flatten_comp_sum Sample.forc 3 comp_par false (Sample.int 5)
                      [gen_i] (env_sum comp_par)
                      [Gen [Sample.x_ref]
                           (Some (Lit.new_SetLit_isv [(IntFin 1, IntFin 3)])) None]
                      where_p [] (env_sum comp_par) where_p (env_sum comp_par)
                      eq_refl eq_refl eq_refl eq_refl eq_refl)
                   eq_refl None (env_sum comp_par) eq_refl).
    reflexivity.
  - rewrite (proj2 (C6_flatten_comp_sum Sample.forc 3 comp_var false Sample.x
                      [gen_i] (env_sum comp_var)
                      [Gen [Sample.x_ref]
                           (Some (Lit.new_SetLit_isv [(IntFin 1, IntFin 3)])) None]
                      where_p [] (env_sum comp_var) where_p (env_sum comp_var)
                      eq_refl eq_refl eq_refl eq_refl eq_refl)
                   eq_refl).
    reflexivity.
  - rewrite (proj1 (C6_flatten_comp_sum Sample.forc 3 comp_indexed false index_body
                      [gen_i] (env_sum comp_indexed)
                      [Gen [Sample.x_ref]
                           (Some (Lit.new_SetLit_isv [(IntFin 1, IntFin 3)])) None]
                      where_p [] (env_sum comp_indexed) where_p (env_sum comp_indexed)
                      eq_refl eq_refl eq_refl eq_refl eq_refl)
                   eq_refl None (env_sum comp_indexed) eq_refl).
    reflexivity.
Defined.

(** C6 does not hold for an indexed comprehension: the body of
    [sum([1: 5 | i in 1..3 where p])] is the tuple [(1, 5)], and the body of
    the rewritten comprehension is again a tuple, of the index and the
    product; it is not the product of [bool2int(p)] and the body. *)
Lemma C6_indexed_counterexample :
  fst (flatten_comp_rewrite Sample.forc 3 comp_indexed (env_sum comp_indexed))
  = Ok (Expr (Ty.mk TI_VAR BT_INT ST_PLAIN 1) []
          (Comprehension false
             (Lit.constructTuple [Sample.int 1; sum_product where_p (Sample.int 5) None])
             [Gen [Sample.x_ref] (Some (Lit.new_SetLit_isv [(IntFin 1, IntFin 3)])) None]))
  /\ Ty.isPar (type index_body) = true
  /\ Lit.constructTuple [Sample.int 1; sum_product where_p (Sample.int 5) None]
     <> sum_product where_p index_body None.
Proof. split; [reflexivity|]. split; [reflexivity | discriminate]. Qed.

(* ================================================================== *)
(** * Further properties of the environment (flatten.cpp) *)

(** X1. [EnvI::addWarning] keeps at most twenty warnings and one notice:
    with fewer than twenty warnings the new one is appended and its index
    returned; the twenty-first call appends the notice that further warnings
    are suppressed and returns -1; every later call returns -1 and changes
    nothing. *)
Theorem X1_addWarning_cap (loc : Location) (msg : string) (dumpStack : bool) (env : EnvI) :
  (List.length (warnings env) <= 21)%nat ->
  (List.length (warnings (snd (addWarning loc msg dumpStack env))) <= 21)%nat
  /\ ((List.length (warnings env) < 20)%nat ->
      fst (addWarning loc msg dumpStack env) = Z.of_nat (List.length (warnings env))
      /\ warnings (snd (addWarning loc msg dumpStack env))
         = warnings env ++ [mkWarning (Some loc) msg dumpStack])
  /\ (List.length (warnings env) = 20%nat ->
      fst (addWarning loc msg dumpStack env) = -1
      /\ warnings (snd (addWarning loc msg dumpStack env))
         = warnings env ++ [mkWarning None "Further warnings have been suppressed." false])
  /\ (List.length (warnings env) = 21%nat ->
      addWarning loc msg dumpStack env = (-1, env)).
Proof.
  intros Hle. unfold addWarning.
  destruct (Nat.leb_spec 20 (List.length (warnings env))) as [H20 | H20].
  - destruct (Nat.eqb_spec (List.length (warnings env)) 20) as [He | He].
    + cbn [fst snd warnings Env.set_warnings]. rewrite length_app. cbn [List.length].
      split; [lia|]. split; [lia|]. split; [intros _; split; reflexivity|]. lia.
    + cbn [fst snd]. split; [lia|]. split; [lia|]. split; [lia|]. reflexivity.
  - cbn [fst snd warnings Env.set_warnings]. rewrite length_app. cbn [List.length].
    split; [lia|]. split.
    + intros _. split; [lia | reflexivity].
    + split; lia.
Qed.

Lemma X1_addWarning_cap_witness :
  fst (addWarning Location_ "w" false Sample.env0) = 0
  /\ warnings (snd (addWarning Location_ "w" false Sample.env0))
     = [mkWarning (Some Location_) "w" false].
Proof.
  destruct (X1_addWarning_cap Location_ "w" false Sample.env0) as (_ & H & _).
  - cbn. lia.
  - apply H. cbn. lia.
Defined.

Lemma callStack_csi_env (e : Expression) (env : EnvI) :
  callStack (csi_env e env) = callStack env ++ [(e, false)].
Proof.
  unfold csi_env, CallStackItem_enter.
  destruct (node e); try destruct (String.eqb _ _); try destruct (String.eqb _ _);
    destruct (ann_contains _ _); reflexivity.
Qed.

(** X2. [CallStackItem] is balanced, also when the guarded code throws: if
    the code run under [CallStackItem csi(env, e)] leaves the call stack, the
    identifier stack and the three counters as it found them, then so does
    the whole block, whatever its outcome; the outcome is that of the code;
    and [maxCallStack] is at least the depth reached. *)
Theorem X2_CallStackItem_balanced {A : Type} (e : Expression) (m : M A) (env : EnvI) :
  let env1 := csi_env e env in
  let env2 := snd (m env1) in
  let env' := snd (with_csi e m env) in
  callStack env2 = callStack env1 ->
  idStack env2 = idStack env1 ->
  inRedundantConstraint env2 = inRedundantConstraint env1 ->
  inSymmetryBreakingConstraint env2 = inSymmetryBreakingConstraint env1 ->
  inMaybePartial env2 = inMaybePartial env1 ->
  fst (with_csi e m env) = fst (m env1)
  /\ callStack env' = callStack env
  /\ idStack env' = idStack env
  /\ inRedundantConstraint env' = inRedundantConstraint env
  /\ inSymmetryBreakingConstraint env' = inSymmetryBreakingConstraint env
  /\ inMaybePartial env' = inMaybePartial env
  /\ Z.of_nat (List.length (callStack env)) + 1 <= maxCallStack env1.
Proof.
  intros env1 env2 env'. subst env' env2 env1. rewrite with_csi_eq. cbn [fst snd].
  unfold csi_leave, csi_env.
  destruct (m (snd (CallStackItem_enter e env))) as [r env2]. cbn [snd].
  unfold CallStackItem_enter, CallStackItem_leave.
  intros Hc Hi Hr Hs Hm.
  destruct (node e); try destruct (String.eqb _ _); try destruct (String.eqb _ _);
    destruct (ann_contains _ _); cbn in *;
    rewrite ?Hc, ?Hi, ?Hr, ?Hs, ?Hm, ?removelast_last, ?length_app; cbn [List.length];
    repeat split; try reflexivity; try lia.
Qed.

Lemma X2_CallStackItem_balanced_witness :
  fst (with_csi decl_x (throw (A := unit) (EvalError "stop")) Sample.env0)
  = Throw (EvalError "stop")
  /\ callStack (snd (with_csi decl_x (throw (A := unit) (EvalError "stop")) Sample.env0))
     = []
  /\ idStack (snd (with_csi decl_x (throw (A := unit) (EvalError "stop")) Sample.env0))
     = [].
Proof.
  destruct (X2_CallStackItem_balanced decl_x (throw (A := unit) (EvalError "stop"))
              Sample.env0 eq_refl eq_refl eq_refl eq_refl eq_refl)
    as (H1 & H2 & H3 & _).
  split; [exact H1|]. split; [exact H2 | exact H3].
Defined.

(** X3. [EnvI::surroundingCall] inside two nested [CallStackItem]s: within
    the item of [e], entered within the item of [c], the surrounding call is
    [c] when [c] is a call and null otherwise; with fewer than two items on
    the call stack it is null. *)
Theorem X3_surroundingCall_nested (c e : Expression) (env : EnvI) :
  surroundingCall (csi_env e (csi_env c env))
  = match node c with Call _ _ _ => Some c | _ => None end
  /\ surroundingCall (csi_env e (Env.set_callStack env [])) = None.
Proof.
  split.
  - unfold surroundingCall. rewrite !callStack_csi_env, !length_app. cbn [List.length].
    replace (2 <=? List.length (callStack env) + 1 + 1)%nat with true
      by (symmetry; apply Nat.leb_le; lia).
    replace (List.length (callStack env) + 1 + 1 - 2)%nat
      with (List.length (callStack env)) by lia.
    rewrite nth_error_app1 by (rewrite length_app; cbn; lia).
    rewrite nth_error_app2 by lia. rewrite Nat.sub_diag. reflexivity.
  - unfold surroundingCall. rewrite callStack_csi_env. reflexivity.
Qed.

(* ================================================================== *)
(** * Further properties of the bounds visitor (eval_par.cpp) *)

Lemma in_bounds_fin (x l u : Z) : in_bounds x (IntFin l, IntFin u) <-> l <= x <= u.
Proof.
  unfold in_bounds, IntVal_.leb, IntVal_.ltb. cbn [fst snd].
  rewrite !negb_true_iff, !Z.ltb_ge. tauto.
Qed.

(** X4. [ComputeIntBounds::vBinOp] on [+], [-] and [*] with finite operand
    bounds [l0..u0] and [l1..u1]: when the values computed from the bounds
    fit a finite [IntVal], the two entries on top of the stack are replaced
    by one finite entry that contains [x op y] for all [x] in [l0..u0] and
    [y] in [l1..u1], and the flag [valid] is not touched; when one of them
    overflows, the [ArithmeticError] of the overflow is raised. *)
Theorem X4_vBinOp_arith_sound (op : BinOpType) (l0 u0 l1 u1 : Z) (rest : list Bounds)
        (vld : bool) (env : EnvI) :
  op = BOT_PLUS \/ op = BOT_MINUS \/ op = BOT_MULT ->
  (arith_fit op l0 u0 l1 u1 = true ->
   exists lo hi,
     vBinOp op (mkCIB ((IntFin l1, IntFin u1) :: (IntFin l0, IntFin u0) :: rest) vld) env
     = (Ok (mkCIB ((IntFin lo, IntFin hi) :: rest) vld), env)
     /\ forall x y, l0 <= x <= u0 -> l1 <= y <= u1 -> lo <= arith_op op x y <= hi)
  /\ (arith_fit op l0 u0 l1 u1 = false ->
      vBinOp op (mkCIB ((IntFin l1, IntFin u1) :: (IntFin l0, IntFin u0) :: rest) vld) env
      = (Throw IntVal_.overflow, env)).
Proof.
  intros Hop.
  destruct Hop as [-> | [-> | ->]]; cbn [arith_op arith_fit].
  - assert (Hv : vBinOp BOT_PLUS
                   (mkCIB ((IntFin l1, IntFin u1) :: (IntFin l0, IntFin u0) :: rest) vld)
                   env
                 = if IntVal_.in_range (l0 + l1) && IntVal_.in_range (u0 + u1)
                   then (Ok (mkCIB ((IntFin (l0 + l1), IntFin (u0 + u1)) :: rest) vld),
                         env)
                   else (Throw IntVal_.overflow, env)).
    { unfold vBinOp, CIB.pop, mbind, lift, ret, IntVal_.plus, IntVal_.lift2,
        IntVal_.checked, CIB.push.
      cbn [cb_bounds cb_valid fst snd IntVal_.isFinite negb orb].
      destruct (IntVal_.in_range (l0 + l1)), (IntVal_.in_range (u0 + u1)); reflexivity. }
    rewrite Hv. split; intros Hfit; rewrite Hfit; [|reflexivity].
    eexists. eexists. split; [reflexivity|]. intros x y Hx Hy. lia.
  - assert (Hv : vBinOp BOT_MINUS
                   (mkCIB ((IntFin l1, IntFin u1) :: (IntFin l0, IntFin u0) :: rest) vld)
                   env
                 = if IntVal_.in_range (l0 - u1) && IntVal_.in_range (u0 - l1)
                   then (Ok (mkCIB ((IntFin (l0 - u1), IntFin (u0 - l1)) :: rest) vld),
                         env)
                   else (Throw IntVal_.overflow, env)).
    { unfold vBinOp, CIB.pop, mbind, lift, ret, IntVal_.minus, IntVal_.lift2,
        IntVal_.checked, CIB.push.
      cbn [cb_bounds cb_valid fst snd IntVal_.isFinite negb orb].
      destruct (IntVal_.in_range (l0 - u1)), (IntVal_.in_range (u0 - l1)); reflexivity. }
    rewrite Hv. split; intros Hfit; rewrite Hfit; [|reflexivity].
    eexists. eexists. split; [reflexivity|]. intros x y Hx Hy. lia.
  - assert (Hv : vBinOp BOT_MULT
                   (mkCIB ((IntFin l1, IntFin u1) :: (IntFin l0, IntFin u0) :: rest) vld)
                   env
                 = if IntVal_.in_range (l0 * l1) && IntVal_.in_range (l0 * u1)
                      && IntVal_.in_range (u0 * l1) && IntVal_.in_range (u0 * u1)
                   then (Ok (mkCIB ((IntFin (corner_min Z.mul l0 u0 l1 u1),
                                     IntFin (corner_max Z.mul l0 u0 l1 u1)) :: rest)
                                   vld), env)
                   else (Throw IntVal_.overflow, env)).
    { unfold vBinOp, CIB.pop. unfold mbind at 1 2. unfold ret at 1 2.
      cbn [cb_bounds cb_valid fst snd IntVal_.isFinite negb orb]. unfold mbind.
      rewrite (corners_checked IntVal_.mult Z.mul l0 u0 l1 u1 env
                 eq_refl eq_refl eq_refl eq_refl).
      match goal with
      | |- context [if ?c then _ else _] => destruct c
      end; reflexivity. }
    rewrite Hv. split; intros Hfit; rewrite Hfit; [|reflexivity].
    eexists. eexists. split; [reflexivity|]. intros x y Hx Hy.
    unfold corner_min, corner_max. split.
    + destruct (Z.le_gt_cases 0 x), (Z.le_gt_cases 0 y);
        destruct (Z.le_gt_cases 0 l0), (Z.le_gt_cases 0 l1);
        destruct (Z.le_gt_cases 0 u0), (Z.le_gt_cases 0 u1); try lia;
        repeat (apply Z.min_le_iff; first [left; nia | right]); nia.
    + destruct (Z.le_gt_cases 0 x), (Z.le_gt_cases 0 y);
        destruct (Z.le_gt_cases 0 l0), (Z.le_gt_cases 0 l1);
        destruct (Z.le_gt_cases 0 u0), (Z.le_gt_cases 0 u1); try lia;
        repeat (apply Z.max_le_iff; first [left; nia | right]); nia.
Qed.

Lemma X4_vBinOp_arith_sound_witness :
  (exists lo hi,
      vBinOp BOT_MULT (mkCIB [(IntFin (-2), IntFin 3); (IntFin (-1), IntFin 4)] true)
             Sample.env0
      = (Ok (mkCIB [(IntFin lo, IntFin hi)] true), Sample.env0)
      /\ forall x y, -1 <= x <= 4 -> -2 <= y <= 3 -> lo <= x * y <= hi)
  /\ vBinOp BOT_MULT
        (mkCIB [(IntFin 2, IntFin 2); (IntFin 0, IntFin IntVal_.max_int)] true)
        Sample.env0
     = (Throw IntVal_.overflow, Sample.env0).
Proof.
  split.
  - apply (proj1 (X4_vBinOp_arith_sound BOT_MULT (-1) 4 (-2) 3 [] true Sample.env0
                    (or_intror (or_intror eq_refl)))).
    reflexivity.
  - apply (proj2 (X4_vBinOp_arith_sound BOT_MULT 0 IntVal_.max_int 2 2 [] true
                    Sample.env0 (or_intror (or_intror eq_refl)))).
    reflexivity.
Defined.



Section VisitCall.
Variable orc : Oracles.
Variable ev : Evals.
Variable run : Expression -> ComputeIntBounds -> M ComputeIntBounds.


End VisitCall.

Section BoundsFurther.
Variable orc : Oracles.
Variable ev : Evals.

(** X7. [compute_int_bounds] turns undefinedness into invalid bounds: when
    the traversal raises [ResultUndefinedError], the result is [0,0] with
    [valid] false; [compute_int_bounds] itself never raises
    [ResultUndefinedError]. *)
Theorem X7_compute_int_bounds_undefined (n : nat) (e : Expression) (env : EnvI)
        (msg : string) (env1 : EnvI) :
  BottomUpIterator_run orc ev n e ComputeIntBounds_ env
  = (Throw (ResultUndefinedError msg), env1) ->
  compute_int_bounds orc ev n e env
  = (Ok (mkIntBounds (IntFin 0) (IntFin 0) false), env1)
  /\ forall n' e' env' msg',
      fst (compute_int_bounds orc ev n' e' env') <> Throw (ResultUndefinedError msg').
Proof.
  intros Hrun. split.
  - unfold compute_int_bounds, catch_undefined, mbind. rewrite Hrun. reflexivity.
  - intros n' e' env' msg'. unfold compute_int_bounds, catch_undefined, mbind.
    destruct (BottomUpIterator_run orc ev n' e' ComputeIntBounds_ env')
      as [[cb | ex |] env2].
    + destruct (cb_valid cb); [|discriminate].
      destruct (cb_bounds cb) as [|b [|b' r]]; discriminate.
    + destruct ex; discriminate.
    + discriminate.
Qed.

(** X8. The bounds of a scalar parameter expression are its value:
    [enter] evaluates it with [eval_par]; for an integer expression whose
    value is the literal [z], [compute_int_bounds] returns [z..z], valid;
    for an absent value or another type it returns [0,0] with [valid]
    false. *)
Theorem X8_compute_int_bounds_par (n : nat) (e : Expression) (env : EnvI)
        (v : Expression) (env1 : EnvI) :
  entered_par e = true ->
  ev_par ev e env = (Ok v, env1) ->
  (forall z, Ty.isint (type e) = true -> is_absent v = false -> node v = IntLit z ->
             compute_int_bounds orc ev (S n) e env = (Ok (mkIntBounds z z true), env1))
  /\ (Ty.isint (type e) && negb (is_absent v) = false ->
      compute_int_bounds orc ev (S n) e env
      = (Ok (mkIntBounds (IntFin 0) (IntFin 0) false), env1)).
Proof.
  unfold entered_par. intros He Hev.
  assert (Henter : forall run cb,
    enter ev run e cb env
    = (if Ty.isint (type e) && negb (is_absent v) then
         match node v with
         | IntLit z => ret (false, CIB.push cb z z)
         | _ => throw (InternalError "bad cast to IntLit")
         end
       else ret (false, CIB.invalidate cb)) env1).
  { intros run cb. unfold enter.
    destruct (Ty.isAnn (type e)); [discriminate|].
    destruct (match node e with VarDecl _ => true | _ => false end); [discriminate|].
    destruct (0 <? dim (type e)); [discriminate|].
    cbn [negb andb] in He. rewrite He. unfold mbind. rewrite Hev. reflexivity. }
  split.
  - intros z Hi Ha Hn.
    unfold compute_int_bounds, catch_undefined, mbind. cbn [BottomUpIterator_run].
    unfold run_step, mbind. rewrite Henter, Hi, Ha, Hn. reflexivity.
  - intros Hc.
    unfold compute_int_bounds, catch_undefined, mbind. cbn [BottomUpIterator_run].
    unfold run_step, mbind. rewrite Henter, Hc. reflexivity.
Qed.

End BoundsFurther.

Lemma X7_compute_int_bounds_undefined_witness :
  compute_int_bounds Sample.orc (evals Sample.orc 3) 3
    (Sample.binop Ty.parint (Sample.int 7) BOT_IDIV (Sample.int 0)) Sample.env0
  = (Ok (mkIntBounds (IntFin 0) (IntFin 0) false),
     snd (BottomUpIterator_run Sample.orc (evals Sample.orc 3) 3
            (Sample.binop Ty.parint (Sample.int 7) BOT_IDIV (Sample.int 0))
            ComputeIntBounds_ Sample.env0)).
Proof.
  apply (X7_compute_int_bounds_undefined Sample.orc (evals Sample.orc 3) 3
           (Sample.binop Ty.parint (Sample.int 7) BOT_IDIV (Sample.int 0)) Sample.env0
           "division by zero").
  reflexivity.
Defined.

Lemma X8_compute_int_bounds_par_witness :
  fst (compute_int_bounds Sample.orc (evals Sample.orc 3) 3
         (Sample.binop Ty.parint (Sample.int 7) BOT_PLUS (Sample.int 2)) Sample.env0)
  = Ok (mkIntBounds (IntFin 9) (IntFin 9) true).
Proof.
  destruct (X8_compute_int_bounds_par Sample.orc (evals Sample.orc 3) 2
              (Sample.binop Ty.parint (Sample.int 7) BOT_PLUS (Sample.int 2))
              Sample.env0 (Sample.int 9)
              (snd (ev_par (evals Sample.orc 3)
                      (Sample.binop Ty.parint (Sample.int 7) BOT_PLUS (Sample.int 2))
                      Sample.env0))
              eq_refl eq_refl) as (H & _).
  rewrite (H (IntFin 9) eq_refl eq_refl eq_refl). reflexivity.
Defined.

Lemma in_bounds_join (x : Z) (ib b : Bounds) :
  in_bounds x ib \/ in_bounds x b -> in_bounds x (join_bounds ib b).
Proof.
  unfold in_bounds, join_bounds, IntVal_.leb, IntVal_.min, IntVal_.max, IntVal_.ltb.
  destruct ib as [[l1 | |] [u1 | |]], b as [[l2 | |] [u2 | |]]; cbn [fst snd];
    intros [[H1 H2] | [H1 H2]]; try discriminate;
    rewrite ?negb_true_iff, ?Z.ltb_ge in *;
    repeat match goal with
           | |- context [?a <? ?b] => destruct (Z.ltb_spec a b)
           end;
    rewrite ?negb_true_iff, ?Z.ltb_ge; split; try reflexivity; try lia.
Qed.

Lemma in_bounds_fold_join (x : Z) (l : list Bounds) (ib : Bounds) :
  in_bounds x ib \/ (exists b, In b l /\ in_bounds x b) ->
  in_bounds x (fold_left join_bounds l ib).
Proof.
  revert ib. induction l as [|b l IH]; intros ib H; cbn [fold_left].
  - destruct H as [H | (b & [] & _)]. exact H.
  - apply IH. destruct H as [H | (b' & [-> | Hin] & Hb)].
    + left. apply in_bounds_join. left. exact H.
    + left. apply in_bounds_join. right. exact Hb.
    + right. exists b'. split; assumption.
Qed.

Section IteBounds.
Variable ev : Evals.
Variable run : Expression -> ComputeIntBounds -> M ComputeIntBounds.

Lemma enter_ite_branches its cb env bs cb1 env1 :
  ite_branches run its cb env bs cb1 env1 ->
  forall els ib be v2 env2,
    run els cb1 env1 = (Ok (mkCIB (be :: cb_bounds cb1) v2), env2) ->
    enter_ite ev run its els ib cb env
    = (Ok (mkCIB (fold_left join_bounds (bs ++ [be]) ib :: cb_bounds cb) v2), env2)
      /\ cb_bounds cb1 = cb_bounds cb.
Proof.
  induction 1 as [cb env | c th r cb env b v' env1 bs cb2 env2 Hc Hth _ IH];
    intros els ib be v2 env3 Hels.
  - cbn [enter_ite app fold_left]. unfold mbind. rewrite Hels.
    split; reflexivity.
  - cbn [enter_ite]. rewrite Hc. unfold mbind at 1. rewrite Hth.
    unfold CIB.pop, mbind, ret. cbn [cb_bounds cb_valid].
    destruct (IH els (join_bounds ib b) be v2 env3 Hels) as (IH1 & IH2).
    unfold join_bounds at 1 in IH1. rewrite IH1. split; [reflexivity | exact IH2].
Qed.

(** X9. The bounds of an integer if-then-else none of whose conditions is a
    cv-free parameter: [ComputeIntBounds::enter] traverses every then-branch
    and the else-branch and leaves one entry, the union of their bounds,
    which contains every integer that lies within the bounds of a branch;
    the children of the node are not visited again. *)
Theorem X9_enter_ite_union (e : Expression) (its : list (Expression * Expression))
        (els : Expression) (cb : ComputeIntBounds) (env : EnvI) (bs : list Bounds)
        (cb1 : ComputeIntBounds) (env1 : EnvI) (be : Bounds) (v2 : bool) (env2 : EnvI) :
  node e = ITE its els ->
  Ty.isAnn (type e) = false ->
  (0 <? dim (type e)) = false ->
  Ty.isPar (type e) && negb (cv (type e)) = false ->
  Ty.isint (type e) = true ->
  ite_branches run its cb env bs cb1 env1 ->
  run els cb1 env1 = (Ok (mkCIB (be :: cb_bounds cb1) v2), env2) ->
  enter ev run e cb env
  = (Ok (false, mkCIB (union_bounds (bs ++ [be]) :: cb_bounds cb) v2), env2)
  /\ forall x b, In b (bs ++ [be]) -> in_bounds x b ->
                 in_bounds x (union_bounds (bs ++ [be])).
Proof.
  intros Hn Ha Hd Hp Hi Hbr Hels. split.
  - unfold enter. rewrite Ha, Hn, Hd, Hp, Hi. unfold mbind.
    destruct (enter_ite_branches its cb env bs cb1 env1 Hbr els
                (IntPlusInf, IntMinusInf) be v2 env2 Hels) as (H & _).
    rewrite H. reflexivity.
  - intros x b Hin Hb. apply in_bounds_fold_join. right. exists b. split; assumption.
Qed.

End IteBounds.

Lemma X9_enter_ite_union_witness :
  fst (compute_int_bounds Sample.orc (evals Sample.orc 3) 3
         (Expr Ty.varint [] (ITE [(where_p, Sample.int 2)] z)) env_z)
  = Ok (mkIntBounds (IntFin 0) (IntFin 6) true).
Proof.
  pose proof (X9_enter_ite_union (evals Sample.orc 3)
                (BottomUpIterator_run Sample.orc (evals Sample.orc 3) 2)
                (Expr Ty.varint [] (ITE [(where_p, Sample.int 2)] z))
                [(where_p, Sample.int 2)] z ComputeIntBounds_ env_z
                [(IntFin 2, IntFin 2)]) as H.
  edestruct H as (Henter & _);
    [reflexivity | reflexivity | reflexivity | reflexivity | reflexivity
     | eapply ite_branches_cons; [reflexivity | reflexivity | apply ite_branches_nil]
     | reflexivity | ].
  unfold compute_int_bounds, catch_undefined, mbind.
  change (BottomUpIterator_run Sample.orc (evals Sample.orc 3) 3)
    with (run_step Sample.orc (evals Sample.orc 3)
            (BottomUpIterator_run Sample.orc (evals Sample.orc 3) 2)).
  unfold run_step, mbind. rewrite Henter. reflexivity.
Defined.

(* ================================================================== *)
(** * Further properties of the evaluator (eval_par.cpp) *)

Lemma catch_undefined_ret_defined {A : Type} (m : M A) (a : A) (env : EnvI) (msg : string) :
  fst (catch_undefined m (ret a) env) <> Throw (ResultUndefinedError msg).
Proof.
  unfold catch_undefined, ret. destruct (m env) as [[x | ex |] env1]; try discriminate.
  destruct ex; discriminate.
Qed.

Section EvaluatorFurther.
Variable orc : Oracles.
Variable rec : Evals.

(** X10. In [eval_bool] undefined means false: a comparison of two integer
    expressions (built-in operator) whose left operand raises
    [ResultUndefinedError] evaluates to false; and [eval_bool] never raises
    [ResultUndefinedError], whatever the expression. *)
Theorem X10_eval_bool_undefined_is_false (t : Type_) (a : list Expression)
        (l : Expression) (op : BinOpType) (r : Expression) (d : option FnRef)
        (env : EnvI) (msg : string) (env1 : EnvI) :
  let e := Expr t a (BinOp l op r d) in
  Ty.isint (type l) = true ->
  Ty.isint (type r) = true ->
  has_body env d = false ->
  ev_int rec l (csi_env e env) = (Throw (ResultUndefinedError msg), env1) ->
  eval_bool orc rec e env = (Ok false, csi_leave e env env1)
  /\ forall e' env' msg',
      fst (eval_bool orc rec e' env') <> Throw (ResultUndefinedError msg').
Proof.
  intros e Hl Hr Hd Hev. split.
  - assert (Hbt : forall x, Ty.isint (type x) = true ->
                            Ty.BaseType_eqb (bt (type x)) BT_TOP = false
                            /\ Ty.isbool (type x) = false).
    { intros x. unfold Ty.isint, Ty.isbool.
      destruct (bt (type x)); cbn; rewrite ?andb_false_r; intros H;
        try discriminate H; split; reflexivity. }
    destruct (Hbt l Hl) as (Hl1 & Hl2). destruct (Hbt r Hr) as (Hr1 & _).
    unfold eval_bool. rewrite with_csi_eq. subst e.
    match goal with
    | |- (fst (?m ?x), _) = _ => assert (Hm : m x = (Ok false, env1))
    end.
    { cbn [node]. rewrite Hl1, Hr1.
      unfold catch_undefined at 1. unfold mbind at 1 2 3. unfold ret at 1 2.
      unfold get_env at 1. rewrite has_body_csi, Hd, Hl2, Hl, Hr. cbn [andb].
      unfold catch_undefined at 1. unfold mbind at 1. rewrite Hev.
      unfold ret. reflexivity. }
    rewrite Hm. reflexivity.
  - intros e' env' msg'. unfold eval_bool. rewrite with_csi_eq. cbn [fst].
    apply catch_undefined_ret_defined.
Qed.

End EvaluatorFurther.

Lemma X10_eval_bool_undefined_is_false_witness :
  fst (eval_bool Sample.orc (evals Sample.orc 3)
         (Sample.binop Ty.parbool
            (Sample.binop Ty.parint (Sample.int 7) BOT_IDIV (Sample.int 0))
            BOT_EQ (Sample.int 1)) Sample.env0)
  = Ok false.
Proof.
  destruct (X10_eval_bool_undefined_is_false Sample.orc (evals Sample.orc 3)
              Ty.parbool []
              (Sample.binop Ty.parint (Sample.int 7) BOT_IDIV (Sample.int 0))
              BOT_EQ (Sample.int 1) None Sample.env0 "division by zero"
              (snd (ev_int (evals Sample.orc 3)
                      (Sample.binop Ty.parint (Sample.int 7) BOT_IDIV (Sample.int 0))
                      (csi_env (Sample.binop Ty.parbool
                                  (Sample.binop Ty.parint (Sample.int 7) BOT_IDIV
                                     (Sample.int 0))
                                  BOT_EQ (Sample.int 1)) Sample.env0)))
              eq_refl eq_refl eq_refl eq_refl) as (H & _).
  unfold Sample.binop at 1. rewrite H. reflexivity.
Defined.

Section ConditionalFurther.
Variable orc : Oracles.
Variable rec : Evals.

Lemma ite_select_false pre env env' :
  conds_false rec pre env env' ->
  forall rest els, ite_select rec (pre ++ rest) els env = ite_select rec rest els env'.
Proof.
  induction 1 as [env | c th r env env1 env' Hc _ IH]; intros rest els.
  - reflexivity.
  - cbn [app ite_select]. unfold mbind. rewrite Hc. apply IH.
Qed.

(** X11. The value of a parameter if-then-else ([eval_int]): the conditions
    are evaluated in order; the value is that of the then-branch of the
    first condition that is true, and the branches after it are not
    evaluated; when every condition is false, it is the value of the
    else-branch. *)
Theorem X11_eval_int_ite (t : Type_) (a : list Expression) (els : Expression)
        (env : EnvI) :
  Ty.isbool t = false ->
  (forall pre c th post env1 env2 v env3,
      let e := Expr t a (ITE (pre ++ (c, th) :: post) els) in
      conds_false rec pre (csi_env e env) env1 ->
      ev_bool rec c env1 = (Ok true, env2) ->
      ev_int rec th env2 = (Ok v, env3) ->
      eval_int_internal orc rec e env = (Ok v, csi_leave e env env3))
  /\ (forall its env1 v env3,
         let e := Expr t a (ITE its els) in
         conds_false rec its (csi_env e env) env1 ->
         ev_int rec els env1 = (Ok v, env3) ->
         eval_int_internal orc rec e env = (Ok v, csi_leave e env env3)).
Proof.
  intros Hb. split.
  - intros pre c th post env1 env2 v env3 e Hpre Hc Hth.
    unfold eval_int_internal. subst e. cbn [type node]. rewrite Hb.
    rewrite with_csi_eq.
    match goal with
    | |- (fst (?m ?x), _) = _ => assert (Hm : m x = (Ok v, env3))
    end.
    { unfold arith_to_eval. unfold mbind at 1.
      rewrite (ite_select_false pre _ env1 Hpre).
      cbn [ite_select]. unfold mbind. rewrite Hc. unfold ret. rewrite Hth. reflexivity. }
    rewrite Hm. reflexivity.
  - intros its env1 v env3 e Hits Hels.
    unfold eval_int_internal. subst e. cbn [type node]. rewrite Hb.
    rewrite with_csi_eq.
    match goal with
    | |- (fst (?m ?x), _) = _ => assert (Hm : m x = (Ok v, env3))
    end.
    { unfold arith_to_eval. unfold mbind at 1.
      pose proof (ite_select_false its _ env1 Hits [] els) as Hsel.
      rewrite app_nil_r in Hsel. rewrite Hsel.
      cbn [ite_select]. unfold ret. rewrite Hels. reflexivity. }
    rewrite Hm. reflexivity.
Qed.

End ConditionalFurther.

Lemma X11_eval_int_ite_witness :
  fst (eval_int_internal Sample.orc (evals Sample.orc 3)
         (Expr Ty.parint []
            (ITE [(constants.literalFalse, Sample.int 1);
                  (constants.literalTrue, Sample.int 2);
                  (constants.literalTrue, Sample.int 3)] (Sample.int 4)))
         Sample.env0)
  = Ok (IntFin 2).
Proof.
  destruct (X11_eval_int_ite Sample.orc (evals Sample.orc 3) Ty.parint []
              (Sample.int 4) Sample.env0 eq_refl) as (H & _).
  pose proof (H [(constants.literalFalse, Sample.int 1)] constants.literalTrue
                (Sample.int 2) [(constants.literalTrue, Sample.int 3)]) as H'.
  cbn [app] in H'.
  erewrite H'; [reflexivity | | reflexivity | reflexivity].
  eapply conds_false_cons; [reflexivity | apply conds_false_nil].
Defined.

Section LetFurther.
Variable orc : Oracles.
Variable rec : Evals.

Lemma forM__app {A : Type} (f : A -> M unit) (pre rest : list A) (env : EnvI) :
  forM_ f (pre ++ rest) env = (forM_ f pre ;;; forM_ f rest) env.
Proof.
  revert env. induction pre as [|x pre IH]; intros env.
  - reflexivity.
  - cbn [app forM_]. unfold mbind.
    destruct (f x env) as [[[] | ex |] env1]; [|reflexivity|reflexivity].
    rewrite IH. reflexivity.
Qed.

(** X12. A parameter let with a constraint ([eval_int]): when the items
    before a constraint item are evaluated and the constraint evaluates to
    false, the let raises [ResultUndefinedError] (constraint in let failed)
    and the items after it and the body are not evaluated; when all items
    are evaluated, the value of the let is the value of its body. *)
Theorem X12_eval_int_let_constraint (t : Type_) (a : list Expression)
        (in_ : Expression) (env : EnvI) :
  Ty.isbool t = false ->
  (forall pre c post env2 env3,
      let e := Expr t a (Let (pre ++ c :: post) in_) in
      is_constraint_item c = true ->
      eval_let_items orc rec pre (csi_env e env) = (Ok tt, env2) ->
      ev_bool rec c env2 = (Ok false, env3) ->
      fst (eval_int_internal orc rec e env)
      = Throw (ResultUndefinedError "constraint in let failed"))
  /\ (forall items env2 v env3,
         let e := Expr t a (Let items in_) in
         eval_let_items orc rec items (csi_env e env) = (Ok tt, env2) ->
         ev_int rec in_ env2 = (Ok v, env3) ->
         fst (eval_int_internal orc rec e env) = Ok v).
Proof.
  intros Hb. split.
  - intros pre c post env2 env3 e Hc Hpre Hbool.
    unfold eval_int_internal. subst e. cbn [type node]. rewrite Hb.
    rewrite with_csi_eq. cbn [fst].
    unfold arith_to_eval, LetPushBindings, finally.
    unfold mbind at 1. unfold eval_let_items at 1. rewrite forM__app.
    unfold mbind at 1. unfold eval_let_items in Hpre. rewrite Hpre.
    cbn [forM_]. unfold mbind at 1.
    unfold is_constraint_item in Hc.
    assert (Hitem :
      match node c with
      | VarDecl r => eval_let_decl orc rec r
      | _ => b <- ev_bool rec c ;;
             if b then ret tt
             else throw (ResultUndefinedError "constraint in let failed")
      end env2 = (Throw (ResultUndefinedError "constraint in let failed"), env3)).
    { destruct (node c); try discriminate Hc; unfold mbind; rewrite Hbool; reflexivity. }
    rewrite Hitem. reflexivity.
  - intros items env2 v env3 e Hitems Hin.
    unfold eval_int_internal. subst e. cbn [type node]. rewrite Hb.
    rewrite with_csi_eq. cbn [fst].
    unfold arith_to_eval, LetPushBindings, finally.
    unfold mbind at 1. rewrite Hitems, Hin. reflexivity.
Qed.

End LetFurther.

Lemma X12_eval_int_let_constraint_witness :
  fst (eval_int_internal Sample.orc (evals Sample.orc 3)
         (Expr Ty.parint []
            (Let [constants.literalTrue; constants.literalFalse] (Sample.int 1)))
         Sample.env0)
  = Throw (ResultUndefinedError "constraint in let failed")
  /\ fst (eval_int_internal Sample.orc (evals Sample.orc 3)
            (Expr Ty.parint [] (Let [constants.literalTrue] (Sample.int 1)))
            Sample.env0)
     = Ok (IntFin 1).
Proof.
  destruct (X12_eval_int_let_constraint Sample.orc (evals Sample.orc 3) Ty.parint []
              (Sample.int 1) Sample.env0 eq_refl) as (H1 & H2).
  split.
  - pose proof (H1 [constants.literalTrue] constants.literalFalse []) as H.
    cbn [app] in H. eapply H; reflexivity.
  - eapply H2; reflexivity.
Defined.

(** X13. [eval_fieldaccess] on a structure that evaluates to [n] fields
    and a field number that evaluates to [i]: for [1 <= i <= n] the result
    is the field at position [i - 1]; otherwise (also for an infinite [i])
    an [EvalError] is raised and no field is read. *)
Theorem X13_eval_fieldaccess (rec : Evals) (t : Type_) (a : list Expression)
        (v field : Expression) (env : EnvI) (al : Expression)
        (elems : list Expression) (dims : list (Z * Z)) (flat tup : bool)
        (env1 : EnvI) (i : IntVal) (env2 : EnvI) :
  ev_array_lit rec v env = (Ok al, env1) ->
  node al = ArrayLit elems dims flat tup ->
  ev_int rec field env1 = (Ok i, env2) ->
  (forall z, i = IntFin z -> 1 <= z <= Z.of_nat (List.length elems) ->
             exists x, nth_error elems (Z.to_nat (z - 1)) = Some x
                       /\ eval_fieldaccess rec (Expr t a (FieldAccess v field)) env
                          = (Ok x, env2))
  /\ (IntVal_.ltb i (IntFin 1) = true
      \/ IntVal_.ltb (IntFin (Z.of_nat (List.length elems))) i = true ->
      eval_fieldaccess rec (Expr t a (FieldAccess v field)) env
      = (Throw (EvalError "Internal error: accessing invalid field"), env2)).
Proof.
  intros Hal Hn Hi.
  assert (Hstep :
    eval_fieldaccess rec (Expr t a (FieldAccess v field)) env
    = (if IntVal_.ltb i (IntFin 1)
          || IntVal_.ltb (IntFin (Z.of_nat (List.length elems))) i
       then throw (EvalError "Internal error: accessing invalid field")
       else
         iz <- lift (IntVal_.toInt i) ;;
         match nth_error elems (Z.to_nat (iz - 1)) with
         | Some x => ret x
         | None => throw (InternalError "index out of range")
         end) env2).
  { unfold eval_fieldaccess. cbn [node].
    unfold mbind at 1. rewrite Hal, Hn. unfold mbind at 1. rewrite Hi. reflexivity. }
  rewrite Hstep. clear Hstep.
  split.
  - intros z -> Hz. cbn [IntVal_.ltb].
    replace (z <? 1) with false by (symmetry; apply Z.ltb_ge; lia).
    replace (Z.of_nat (List.length elems) <? z) with false
      by (symmetry; apply Z.ltb_ge; lia).
    cbn [orb]. unfold mbind, lift. cbn [IntVal_.toInt].
    destruct (nth_error elems (Z.to_nat (z - 1))) as [x|] eqn:Hx.
    + exists x. split; reflexivity.
    + apply nth_error_None in Hx. lia.
  - intros Hout. apply orb_true_iff in Hout. rewrite Hout. reflexivity.
Qed.

Lemma X13_eval_fieldaccess_witness :
  fst (eval_fieldaccess (evals Sample.orc 2)
         (Expr Ty.parint []
            (FieldAccess (Lit.constructTuple [Sample.int 10; Sample.int 20])
               (Sample.int 2))) Sample.env0)
  = Ok (Sample.int 20)
  /\ fst (eval_fieldaccess (evals Sample.orc 2)
            (Expr Ty.parint []
               (FieldAccess (Lit.constructTuple [Sample.int 10; Sample.int 20])
                  (Sample.int 3))) Sample.env0)
     = Throw (EvalError "Internal error: accessing invalid field").
Proof.
  split.
  - edestruct (X13_eval_fieldaccess (evals Sample.orc 2) Ty.parint []
                 (Lit.constructTuple [Sample.int 10; Sample.int 20]) (Sample.int 2)
                 Sample.env0) as (H & _); [reflexivity | reflexivity | reflexivity |].
    destruct (H 2 eq_refl) as (x & Hx & Hr); [cbn; lia|].
    rewrite Hr. cbn in Hx. injection Hx as <-. reflexivity.
  - edestruct (X13_eval_fieldaccess (evals Sample.orc 2) Ty.parint []
                 (Lit.constructTuple [Sample.int 10; Sample.int 20]) (Sample.int 3)
                 Sample.env0) as (_ & H); [reflexivity | reflexivity | reflexivity |].
    rewrite H; [reflexivity | right; reflexivity].
Defined.

(** X14. [eval_id] memoises: for an identifier whose (flat) declaration
    [vdr] has the right-hand side [vde], the value is that of [vde]; when the
    declaration is top-level and not yet marked evaluated, its right-hand
    side is replaced by the expression of the value and it is marked
    evaluated; a declaration already marked evaluated is left as it is.  An
    identifier without declaration, or whose declaration has no right-hand
    side, raises an [EvalError]. *)
Theorem X14_eval_id_memoises {V : Type} (E : EvalClass V) (t : Type_)
        (a : list Expression) (name : string) (d vdr : VarDeclRef) (env : EnvI)
        (vd : VarDeclRec) :
  follow_flat (List.length (decls env)) env d = Ok vdr ->
  get_decl env vdr = Some vd ->
  (forall vde r env2 vd',
      vd_e vd = Some vde ->
      E_e E vde env = (Ok r, env2) ->
      get_decl env2 vdr = Some vd' ->
      (vd_evaluated vd' = false -> vd_toplevel vd' = true ->
       exists env',
         eval_id E (Expr t a (Id name (Some d))) env = (Ok r, env')
         /\ get_decl env' vdr
            = Some (VarDecl_set_evaluated (VarDecl_set_e vd' (Some (E_exp E r))) true))
      /\ (vd_evaluated vd' = true ->
          eval_id E (Expr t a (Id name (Some d))) env = (Ok r, env2)))
  /\ (vd_e vd = None ->
      eval_id E (Expr t a (Id name (Some d))) env
      = (Throw (EvalError "cannot evaluate expression"), env))
  /\ eval_id E (Expr t a (Id name None)) env
     = (Throw (EvalError "undeclared identifier"), env).
Proof.
  intros Hff Hg. split; [|split; [|reflexivity]].
  - intros vde r env2 vd' He Hr Hg2.
    assert (Hstep :
      eval_id E (Expr t a (Id name (Some d))) env
      = ((if negb (vd_evaluated vd')
             && (vd_toplevel vd'
                 || (negb (match vd_e vd' with
                           | Some x => match node x with Id _ _ => true | _ => false end
                           | None => false
                           end) && (0 <? dim (vd_type vd'))))
          then modify (fun env =>
                 update_decl env vdr (fun x =>
                   VarDecl_set_evaluated (VarDecl_set_e x (Some (E_exp E r))) true))
          else ret tt) ;;; ret r) env2).
    { unfold eval_id. cbn [node]. unfold mbind at 1. unfold get_env at 1.
      unfold mbind at 1. unfold lift at 1. rewrite Hff.
      unfold mbind at 1. unfold deref at 1. rewrite Hg, He.
      unfold mbind at 1. rewrite Hr.
      unfold mbind at 1. unfold deref at 1. rewrite Hg2. reflexivity. }
    rewrite Hstep. clear Hstep. split.
    + intros Hev Htop. rewrite Hev, Htop. cbn [negb andb orb].
      eexists. split; [reflexivity|].
      exact (get_decl_update_decl env2 vdr
               (fun x => VarDecl_set_evaluated (VarDecl_set_e x (Some (E_exp E r))) true)
               vd' Hg2).
    + intros Hev. rewrite Hev. reflexivity.
  - intros He. unfold eval_id. cbn [node]. unfold mbind at 1. unfold get_env at 1.
    unfold mbind at 1. unfold lift at 1. rewrite Hff.
    unfold mbind at 1. unfold deref at 1. rewrite Hg, He. reflexivity.
Qed.

Lemma X14_eval_id_memoises_witness :
  exists env',
    eval_id (EvalIntLit (evals Sample.orc 3)) k env_k = (Ok (Sample.int 9), env')
    /\ option_map vd_e (get_decl env' 5%nat) = Some (Some (Sample.int 9))
    /\ option_map vd_evaluated (get_decl env' 5%nat) = Some true.
Proof.
  destruct (X14_eval_id_memoises (EvalIntLit (evals Sample.orc 3)) Ty.parint [] "k"
              5%nat 5%nat env_k
              (Sample.decl Ty.parint "k" (Expr Ty.parint [] (TypeInst [] None))
                           (Some k_rhs)) eq_refl eq_refl) as (H & _ & _).
  edestruct (H k_rhs (Sample.int 9)) as (Hc & _);
    [reflexivity | reflexivity | reflexivity |].
  destruct (Hc eq_refl eq_refl) as (env' & Hr & Hg).
  exists env'. split; [exact Hr|]. rewrite Hg. split; reflexivity.
Defined.

(** ** Calls: the bindings of the parameters *)

Lemma nth_error_list_set_other {A : Type} (l : list A) (i j : nat) (x : A) :
  i <> j -> nth_error (list_set l i x) j = nth_error l j.
Proof.
  revert i j. induction l as [|h t IH]; intros [|i] [|j] H; try reflexivity.
  - contradiction.
  - cbn [list_set nth_error]. apply IH. congruence.
Qed.

Lemma get_decl_update_decl_other (env : EnvI) (r p : VarDeclRef)
      (f : VarDeclRec -> VarDeclRec) :
  r <> p -> get_decl (update_decl env r f) p = get_decl env p.
Proof.
  intros H. unfold update_decl. destruct (get_decl env r); [|reflexivity].
  unfold get_decl. cbn [decls Env.set_decls]. apply nth_error_list_set_other. exact H.
Qed.

Lemma get_decl_update_decl_none (env : EnvI) (r p : VarDeclRef)
      (f : VarDeclRec -> VarDeclRec) :
  get_decl env p = None -> get_decl (update_decl env r f) p = None.
Proof.
  intros H. destruct (Nat.eq_dec r p) as [-> | Hne].
  - unfold update_decl. rewrite H. exact H.
  - rewrite get_decl_update_decl_other; assumption.
Qed.

(** The parameter [p], bound once in [l], after the loop of the destructor
    of [EvalCallCleanup]. *)
Lemma restore_params (l : list (VarDeclRef * option Expression)) (env : EnvI)
      (p : VarDeclRef) (prev : option Expression) (vd' : VarDeclRec) :
  NoDup (map fst l) ->
  In (p, prev) l ->
  get_decl
    (fold_left (fun env pr =>
                  update_decl env (fst pr) (fun vd =>
                    VarDecl_set_flat (VarDecl_set_e vd (snd pr))
                      (match snd pr with None => None | Some _ => Some (fst pr) end)))
               l env) p = Some vd' ->
  vd_e vd' = prev
  /\ vd_flat vd' = match prev with None => None | Some _ => Some p end.
Proof.
  revert env. induction l as [|[q pv] l IH]; intros env Hnd Hin Hg; [destruct Hin|].
  cbn [map fst] in Hnd. inversion Hnd as [|x xs Hnotin Hnd']; subst.
  cbn [fold_left fst snd] in Hg.
  destruct Hin as [Heq | Hin].
  - injection Heq as -> ->.
    assert (Hkeep : forall l' env0,
      ~ In p (map fst l') ->
      get_decl
        (fold_left (fun env pr =>
                      update_decl env (fst pr) (fun vd =>
                        VarDecl_set_flat (VarDecl_set_e vd (snd pr))
                          (match snd pr with None => None | Some _ => Some (fst pr) end)))
                   l' env0) p = get_decl env0 p).
    { induction l' as [|[q' pv'] l' IH']; intros env0 Hn; [reflexivity|].
      cbn [fold_left fst snd]. rewrite IH'.
      - apply get_decl_update_decl_other. intros ->. apply Hn. left. reflexivity.
      - intros Hc. apply Hn. right. exact Hc. }
    rewrite (Hkeep l _ Hnotin) in Hg.
    destruct (get_decl env p) as [vd0|] eqn:Hg0.
    + rewrite (get_decl_update_decl env p _ vd0 Hg0) in Hg.
      injection Hg as <-. split; reflexivity.
    + rewrite (get_decl_update_decl_none env p p _ Hg0) in Hg. discriminate.
  - exact (IH _ Hnd' Hin Hg).
Qed.

Lemma previous_parameters (ps : list VarDeclRef) (env : EnvI) :
  (forall p, In p ps -> get_decl env p <> None) ->
  mapM (fun p => vd <- deref p ;; ret (vd_e vd)) ps env = (Ok (map (rhs_of env) ps), env).
Proof.
  induction ps as [|p ps IH]; intros H; [reflexivity|].
  cbn [mapM map].
  assert (Hp : (vd <- deref p ;; ret (vd_e vd)) env = (Ok (rhs_of env p), env)).
  { unfold mbind, deref, rhs_of. destruct (get_decl env p) as [vd|] eqn:Hg.
    - reflexivity.
    - exfalso. apply (H p); [left; reflexivity | exact Hg]. }
  rewrite (mbind_ok _ _ _ _ _ Hp).
  rewrite (mbind_ok _ _ _ _ _ (IH (fun q Hq => H q (or_intror Hq)))).
  reflexivity.
Qed.

Lemma combine_map_self {A B : Type} (g : A -> B) (l : list A) :
  combine l (map g l) = map (fun x => (x, g x)) l.
Proof. induction l as [|x l IH]; cbn; [reflexivity | rewrite IH; reflexivity]. Qed.

Section CallFurther.
Variable orc : Oracles.
Variable rec : Evals.

(** X15. [eval_call] leaves the parameters of the function bound as it
    found them, whether the body returns or throws: after the call of a
    function without captured annotations whose arguments have been
    evaluated, every parameter has the right-hand side it had before the
    parameters were bound, and its flat declaration is itself when it has a
    right-hand side and null otherwise. *)
Theorem X15_eval_call_restores_parameters {V : Type} (E : EvalClass V) (ce : Expression)
        (f : FnRef) (fi : FunctionI) (env : EnvI) (params : list Expression)
        (env1 : EnvI) :
  call_decl ce = Some f ->
  get_fn env f = Some fi ->
  fi_capturedAnnotationsVar fi = None ->
  NoDup (fi_params fi) ->
  mapM (ev_par rec) (firstn (List.length (fi_params fi)) (call_args ce)) env
  = (Ok params, env1) ->
  List.length params = List.length (fi_params fi) ->
  (forall p, In p (fi_params fi) -> get_decl env1 p <> None) ->
  forall p vd',
    In p (fi_params fi) ->
    get_decl (snd (eval_call orc rec E ce env)) p = Some vd' ->
    vd_e vd' = rhs_of env1 p
    /\ vd_flat vd' = match rhs_of env1 p with None => None | Some _ => Some p end.
Proof.
  intros Hd Hf Hcap Hnd Hargs Hlen Hdecl p vd' Hin Hg.
  unfold eval_call in Hg. rewrite Hd in Hg.
  unfold mbind at 1 in Hg. unfold deref_fn at 1 in Hg. rewrite Hf in Hg.
  unfold mbind at 1 in Hg. rewrite Hargs in Hg.
  unfold mbind at 1 in Hg. rewrite Hlen, Nat.ltb_irrefl in Hg. unfold ret at 1 in Hg.
  unfold mbind at 1 in Hg. rewrite (previous_parameters _ env1 Hdecl) in Hg.
  rewrite Hcap in Hg. unfold mbind at 1 in Hg. unfold ret at 1 in Hg.
  unfold finally in Hg.
  match type of Hg with
  | context [let '(r, env') := ?m env1 in _] => destruct (m env1) as [r env2]
  end.
  cbn [snd] in Hg. unfold EvalCallCleanup_restore in Hg.
  apply (restore_params (combine (fi_params fi) (map (rhs_of env1) (fi_params fi)))
           env2 p (rhs_of env1 p) vd'); [| |exact Hg].
  - rewrite combine_map_self, map_map. cbn [fst]. rewrite map_id. exact Hnd.
  - rewrite combine_map_self. apply in_map_iff. exists p. split; [reflexivity | exact Hin].
Qed.

End CallFurther.

Lemma X15_eval_call_restores_parameters_witness :
  fst (eval_call Sample.orc (evals Sample.orc 4)
         (EvalIntVal Sample.orc (evals Sample.orc 4)) call_f env_f)
  = Ok (IntFin 42)
  /\ get_decl (snd (eval_call Sample.orc (evals Sample.orc 4)
                      (EvalIntVal Sample.orc (evals Sample.orc 4)) call_f env_f)) 5%nat
     = Some n_decl
  /\ vd_e n_decl = None
  /\ vd_flat n_decl = None.
Proof.
  split; [reflexivity|]. split; [reflexivity|].
  assert (Hnd : NoDup (fi_params f_fn)).
  { constructor; [intros [] | constructor]. }
  assert (Hdecl : forall p, In p (fi_params f_fn) -> get_decl env_f p <> None).
  { intros p [<- | []]. discriminate. }
  exact (X15_eval_call_restores_parameters Sample.orc (evals Sample.orc 4)
           (EvalIntVal Sample.orc (evals Sample.orc 4)) call_f 0%nat f_fn env_f
           [Sample.int 41] env_f eq_refl eq_refl eq_refl Hnd eq_refl eq_refl Hdecl
           5%nat n_decl (or_introl eq_refl) eq_refl).
Defined.

(** ** Arrays of literals *)

Lemma eval_par_elements_flat (rec : Evals) (v : list Expression) (env : EnvI) :
  forallb is_flat_element v = true ->
  eval_par_elements rec v env = (Ok (v, true), env).
Proof.
  induction v as [|x v IH]; intros H; [reflexivity|].
  cbn [forallb] in H. apply andb_prop in H. destruct H as [Hx Hv].
  cbn [eval_par_elements]. rewrite Hx. cbn [negb].
  unfold mbind at 1. unfold ret at 1. unfold mbind. rewrite (IH Hv). reflexivity.
Qed.

(** X16. [eval_par] on an array whose evaluated elements are all integer,
    float or Boolean literals or evaluated set literals returns the
    evaluated array itself, and no element is evaluated again; in
    particular an array literal of such literals evaluates to itself. *)
Theorem X16_eval_par_array_of_literals (orc : Oracles) (rec : Evals) (e : Expression)
        (env : EnvI) (al : Expression) (env1 : EnvI) :
  (exists v dims flat tup, node e = ArrayLit v dims flat tup)
  \/ (exists body gens, node e = Comprehension false body gens) ->
  ev_array_lit rec e env = (Ok al, env1) ->
  forallb is_flat_element (al_v al) = true ->
  eval_par orc rec e env = (Ok al, env1)
  /\ forall m e' v dims flat tup env',
      node e' = ArrayLit v dims flat tup ->
      forallb is_flat_element v = true ->
      fst (ev_par (evals orc (S (S m))) e' env') = Ok e'.
Proof.
  intros Hn Hal Hflat.
  assert (Hcase : forall rec0 e0 env0 al0 env2,
    (exists v dims flat tup, node e0 = ArrayLit v dims flat tup)
    \/ (exists body gens, node e0 = Comprehension false body gens) ->
    ev_array_lit rec0 e0 env0 = (Ok al0, env2) ->
    forallb is_flat_element (al_v al0) = true ->
    eval_par orc rec0 e0 env0 = (Ok al0, env2)).
  { intros rec0 e0 env0 al0 env2 Hn0 Hal0 Hf0. unfold eval_par.
    destruct Hn0 as [(v & dims & flat & tup & ->) | (body & gens & ->)];
      unfold mbind at 1; rewrite Hal0; unfold mbind at 1;
      rewrite (eval_par_elements_flat rec0 _ env2 Hf0); reflexivity. }
  split; [exact (Hcase rec e env al env1 Hn Hal Hflat)|].
  intros m e' v dims flat tup env' Hn' Hf'.
  rewrite ev_par_S.
  assert (Hal' : ev_array_lit (evals orc (S m)) e' env'
                 = (Ok e', csi_leave e' env' (csi_env e' env'))).
  { change (ev_array_lit (evals orc (S m))) with (eval_array_lit orc (evals orc m)).
    unfold eval_array_lit. rewrite with_csi_eq, Hn'. reflexivity. }
  rewrite (Hcase (evals orc (S m)) e' env' e' _
             (or_introl (ex_intro _ v (ex_intro _ dims (ex_intro _ flat
                (ex_intro _ tup Hn'))))) Hal').
  - reflexivity.
  - unfold al_v. rewrite Hn'. exact Hf'.
Qed.

Lemma X16_eval_par_array_of_literals_witness :
  eval_par Sample.orc (evals Sample.orc 2) arr1 Sample.env0
  = (Ok arr1, snd (ev_array_lit (evals Sample.orc 2) arr1 Sample.env0)).
Proof.
  refine (proj1 (X16_eval_par_array_of_literals Sample.orc (evals Sample.orc 2) arr1
                   Sample.env0 arr1 _ _ eq_refl eq_refl)).
  left. eexists. eexists. eexists. eexists. reflexivity.
Defined.

(** ** Records *)

Lemma record_merge_perm (orc : Oracles) (n : nat) :
  forall names1 names2 lhs rhs,
    n = (List.length names1 + List.length names2)%nat ->
    List.length names1 = List.length lhs ->
    List.length names2 = List.length rhs ->
    exists l, record_merge orc n names1 names2 lhs rhs = Ok l
              /\ Permutation l (lhs ++ rhs).
Proof.
  induction n as [|n IH]; intros names1 names2 lhs rhs Hn H1 H2.
  - destruct names1, names2; try discriminate Hn.
    destruct lhs, rhs; try discriminate. exists []. split; [reflexivity | constructor].
  - assert (Hrhs : forall nm names2' x rhs',
              names2 = nm :: names2' -> rhs = x :: rhs' ->
              exists l, match record_merge orc n names1 (tl names2) lhs rhs' with
                        | Ok l => Ok (x :: l)
                        | r => r
                        end = Ok l /\ Permutation l (lhs ++ rhs)).
    { intros nm names2' x rhs' -> ->. cbn [tl].
      destruct (IH names1 names2' lhs rhs') as (l & Hl & Hp).
      - cbn [List.length] in Hn. lia.
      - exact H1.
      - cbn [List.length] in H2. lia.
      - rewrite Hl. exists (x :: l). split; [reflexivity|].
        apply Permutation_cons_app. exact Hp. }
    assert (Hlhs : forall nm names1' x lhs',
              names1 = nm :: names1' -> lhs = x :: lhs' ->
              exists l, match record_merge orc n (tl names1) names2 lhs' rhs with
                        | Ok l => Ok (x :: l)
                        | r => r
                        end = Ok l /\ Permutation l (lhs ++ rhs)).
    { intros nm names1' x lhs' -> ->. cbn [tl].
      destruct (IH names1' names2 lhs' rhs) as (l & Hl & Hp).
      - cbn [List.length] in Hn. lia.
      - cbn [List.length] in H1. lia.
      - exact H2.
      - rewrite Hl. exists (x :: l). split; [reflexivity|].
        cbn [app]. constructor. exact Hp. }
    cbn [record_merge].
    destruct names1 as [|n1 names1'], names2 as [|n2 names2'].
    + discriminate Hn.
    + destruct rhs as [|x rhs']; [discriminate H2|].
      exact (Hrhs n2 names2' x rhs' eq_refl eq_refl).
    + destruct lhs as [|x lhs']; [discriminate H1|].
      exact (Hlhs n1 names1' x lhs' eq_refl eq_refl).
    + destruct lhs as [|x lhs']; [discriminate H1|].
      destruct rhs as [|y rhs']; [discriminate H2|].
      destruct (RecordFieldSort orc n1 n2).
      * exact (Hlhs n1 names1' x lhs' eq_refl eq_refl).
      * exact (Hrhs n2 names2' y rhs' eq_refl eq_refl).
Qed.

(** X17. [eval_record_merge] of two records whose field vectors are as long
    as the field lists of their record types returns a tuple that holds
    every field of the left and of the right record exactly once (a
    permutation of the two vectors); it raises nothing and leaves the
    environment as it is. *)
Theorem X17_eval_record_merge_fields (orc : Oracles) (lhs rhs : Expression) (env : EnvI) :
  List.length (getRecordType_fieldNames orc env (type lhs)) = List.length (al_v lhs) ->
  List.length (getRecordType_fieldNames orc env (type rhs)) = List.length (al_v rhs) ->
  exists l,
    eval_record_merge orc lhs rhs env = (Ok (Lit.constructTuple l), env)
    /\ Permutation l (al_v lhs ++ al_v rhs).
Proof.
  intros H1 H2.
  destruct (record_merge_perm orc _ _ _ (al_v lhs) (al_v rhs) eq_refl H1 H2)
    as (l & Hl & Hp).
  exists l. split; [|exact Hp].
  unfold eval_record_merge, mbind, get_env, lift. rewrite Hl. reflexivity.
Qed.

Lemma X17_eval_record_merge_fields_witness :
  exists l,
    eval_record_merge orc_records record_ac record_b Sample.env0
    = (Ok (Lit.constructTuple l), Sample.env0)
    /\ Permutation l [Sample.int 1; Sample.int 3; Sample.int 2].
Proof.
  apply (X17_eval_record_merge_fields orc_records record_ac record_b Sample.env0);
    reflexivity.
Defined.

(** ** Following identifiers *)

(** X18. [follow_id] returns null (for null, or when the chain ends at a
    declaration without right-hand side) or an expression at which it
    stops: not an identifier, or the absent value, or an annotation
    identifier without declaration.  It is idempotent: following the result
    again returns the result, with any bound on the rounds; and a larger
    bound does not change a result. *)
Theorem X18_follow_id_value (n : nat) (env : EnvI) (e : option Expression)
        (r : option Expression) :
  FollowId.follow_id n env e = Ok r ->
  match r with
  | Some x => FollowId.is_value x = true
  | None => True
  end
  /\ (forall m, FollowId.follow_id m env r = Ok r)
  /\ (forall k, FollowId.follow_id (n + k) env e = Ok r).
Proof.
  revert e. induction n as [|n IH]; intros e H.
  - destruct e as [x|]; cbn [FollowId.follow_id] in H.
    + assert (Hv : FollowId.is_value x = true /\ r = Some x).
      { unfold FollowId.is_value. destruct (node x) as [ | | | | | | s d | | | | | | | | | | | | ];
          try (injection H as <-; split; reflexivity).
        destruct (FollowId.stops x d) eqn:Hs.
        - injection H as <-. split; reflexivity.
        - destruct d as [d|]; [|discriminate]. destruct (get_decl env d); discriminate. }
      destruct Hv as (Hv & ->). split; [exact Hv|]. split.
      * intros m. unfold FollowId.is_value in Hv.
        destruct m; cbn [FollowId.follow_id]; destruct (node x); try reflexivity;
          rewrite Hv; reflexivity.
      * intros k. unfold FollowId.is_value in Hv.
        destruct k; cbn [Nat.add FollowId.follow_id]; destruct (node x); try reflexivity;
          rewrite Hv; reflexivity.
    + injection H as <-. split; [exact I|]. split; intros m; destruct m; reflexivity.
  - destruct e as [x|]; cbn [FollowId.follow_id] in H.
    + destruct (node x) as [ | | | | | | s d | | | | | | | | | | | | ] eqn:Hn;
        try (injection H as <-; split; [unfold FollowId.is_value; rewrite Hn; reflexivity|];
             split; intros m; destruct m; cbn [Nat.add FollowId.follow_id]; rewrite Hn;
             reflexivity).
      destruct (FollowId.stops x d) eqn:Hs.
      * injection H as <-.
        split; [unfold FollowId.is_value; rewrite Hn; exact Hs|].
        split; intros m; destruct m; cbn [Nat.add FollowId.follow_id]; rewrite Hn, Hs;
          reflexivity.
      * destruct d as [d|]; [|discriminate].
        destruct (get_decl env d) as [vd|] eqn:Hg; [|discriminate].
        destruct (IH _ H) as (H1 & H2 & H3).
        split; [|split; [exact H2|]].
        -- exact H1.
        -- intros k. cbn [Nat.add FollowId.follow_id]. rewrite Hn, Hs, Hg. apply H3.
    + injection H as <-. split; [exact I|]. split; intros m; destruct m; reflexivity.
Qed.

Lemma X18_follow_id_value_witness :
  FollowId.follow_id 2 env_chain (Some j_id) = Ok (Some (Sample.int 7))
  /\ FollowId.follow_id 0 env_chain (Some (Sample.int 7)) = Ok (Some (Sample.int 7)).
Proof.
  split; [reflexivity|].
  destruct (X18_follow_id_value 2 env_chain (Some j_id) (Some (Sample.int 7)) eq_refl)
    as (_ & H & _).
  exact (H 0%nat).
Defined.

(* ================================================================== *)
(** * Further properties of the JSON lexer (json_parser.cpp) *)

Section LexerFurther.
Import JSONParser JSONLexer.
Variable D : Type.
Variable istringstream_int : string -> Z.
Variable istringstream_double : string -> D.

Let loop := readToken_loop istringstream_int istringstream_double.

(** X19. [readToken] skips the white space before a token: reading from
    [ws ++ rest], where [ws] consists of line feeds, spaces, tabs and
    carriage returns, is reading from [rest] at the position after [ws]
    (each line feed starts a new line at column 0). *)
Theorem X19_readToken_skips_space (ws rest : list ascii) (p : Parser) :
  forallb is_space ws = true ->
  readToken istringstream_int istringstream_double (mkIstream (ws ++ rest) true) p
  = readToken istringstream_int istringstream_double (mkIstream rest true)
              (skip_space ws p).
Proof.
  unfold readToken. cbn [is_good is_chars]. revert p.
  induction ws as [|c ws IH]; intros p H; [reflexivity|].
  cbn [forallb] in H. apply andb_prop in H. destruct H as [Hc Hws].
  cbn [app skip_space readToken_loop]. unfold is_space in Hc.
  destruct (c =? "010")%char; [apply IH; exact Hws|].
  cbn [orb] in Hc. rewrite Hc. apply IH. exact Hws.
Qed.

End LexerFurther.

Lemma X19_readToken_skips_space_witness :
  JSONParser.readToken (fun _ => 0) (fun _ => tt)
    (JSONParser.mkIstream (list_ascii_of_string (String " " (String "010" " [1]"))) true)
    (JSONParser.mkParser "d.json" 1 0)
  = JSONParser.mkOutcome (inl (JSONParser.Token_plain JSONParser.T_LIST_OPEN))
      (JSONParser.mkIstream (list_ascii_of_string "1]") true)
      (JSONParser.mkParser "d.json" 2 2).
Proof.
  refine (eq_trans
            (X19_readToken_skips_space unit (fun _ => 0) (fun _ => tt)
               (list_ascii_of_string (String " " (String "010" " ")))
               (list_ascii_of_string "[1]") (JSONParser.mkParser "d.json" 1 0) eq_refl)
            _).
  reflexivity.
Defined.

Lemma is_digit_not_dot (c : ascii) :
  JSONParser.is_digit c = true -> (c =? ".")%char = false.
Proof.
  destruct c as [[] [] [] [] [] [] [] []]; cbn; intros H; try reflexivity; discriminate H.
Qed.

Lemma number_start (c : ascii) :
  JSONParser.is_digit c || (c =? "-")%char = true ->
  (c =? "010")%char = false
  /\ ((c =? " ") || (c =? "009") || (c =? "013"))%char = false
  /\ (c =? "[")%char = false /\ (c =? "]")%char = false
  /\ (c =? "{")%char = false /\ (c =? "}")%char = false
  /\ (c =? ",")%char = false /\ (c =? ":")%char = false
  /\ (c =? JSONParser.dquote)%char = false
  /\ (c =? "t")%char = false /\ (c =? "f")%char = false /\ (c =? "n")%char = false.
Proof.
  destruct c as [[] [] [] [] [] [] [] []]; cbn; intros H; try discriminate H;
    repeat split; reflexivity.
Qed.

Section LexerNumbers.
Import JSONParser JSONLexer.
Variable D : Type.
Variable istringstream_int : string -> Z.
Variable istringstream_double : string -> D.

Let loop := readToken_loop istringstream_int istringstream_double.

Lemma readToken_int_digits (ds : list ascii) :
  forall (c : ascii) (rest : list ascii) (acc : string) (p : Parser),
    forallb is_digit ds = true ->
    is_digit c = false ->
    (c =? ".")%char = false ->
    loop (ds ++ c :: rest) S_INT acc p
    = mkOutcome (inl (Token_int (istringstream_int
                                   (String.append acc (string_of_chars ds)))))
                (mkIstream (c :: rest) true)
                (advance (List.length ds + 1) p).
Proof.
  induction ds as [|d ds IH]; intros c rest acc p Hds Hc Hdot.
  - unfold loop. cbn [app readToken_loop]. rewrite Hdot, Hc.
    cbn [string_of_chars fold_right]. rewrite append_nil_r. reflexivity.
  - cbn [forallb] in Hds. apply andb_prop in Hds. destruct Hds as [Hd Hds].
    unfold loop. cbn [app readToken_loop]. rewrite (is_digit_not_dot d Hd), Hd.
    fold loop. rewrite (IH c rest _ _ Hds Hc Hdot).
    unfold push_back, advance. rewrite append_assoc.
    cbn [string_of_chars fold_right String.append p_filename p_line p_column List.length].
    f_equal. f_equal. lia.
Qed.

Lemma readToken_float_digits (ds : list ascii) :
  forall (c : ascii) (rest : list ascii) (acc : string) (p : Parser),
    forallb is_digit ds = true ->
    is_digit c = false ->
    loop (ds ++ c :: rest) S_FLOAT acc p
    = mkOutcome (inl (Token_double (istringstream_double
                                      (String.append acc (string_of_chars ds)))))
                (mkIstream (c :: rest) true)
                (advance (List.length ds + 1) p).
Proof.
  induction ds as [|d ds IH]; intros c rest acc p Hds Hc.
  - unfold loop. cbn [app readToken_loop]. rewrite Hc.
    cbn [string_of_chars fold_right]. rewrite append_nil_r. reflexivity.
  - cbn [forallb] in Hds. apply andb_prop in Hds. destruct Hds as [Hd Hds].
    unfold loop. cbn [app readToken_loop]. rewrite Hd.
    fold loop. rewrite (IH c rest _ _ Hds Hc).
    unfold push_back, advance. rewrite append_assoc.
    cbn [string_of_chars fold_right String.append p_filename p_line p_column List.length].
    f_equal. f_equal. lia.
Qed.

(** X20. Number tokens: after a digit or a minus sign, [readToken] reads
    digits up to the first character [c] that is neither a digit nor a
    point, converts the text read to an [int] and puts [c] back: the stream
    is left at [c]; with a point between two runs of digits the text is
    converted to a [double].  The column counts every character read,
    also the one put back. *)
Theorem X20_readToken_number (c0 : ascii) (ds : list ascii) (c : ascii)
        (rest : list ascii) (p : Parser) :
  is_digit c0 || (c0 =? "-")%char = true ->
  forallb is_digit ds = true ->
  is_digit c = false ->
  ((c =? ".")%char = false ->
   readToken istringstream_int istringstream_double
             (mkIstream (c0 :: ds ++ c :: rest) true) p
   = mkOutcome (inl (Token_int (istringstream_int (String c0 (string_of_chars ds)))))
               (mkIstream (c :: rest) true)
               (advance (List.length ds + 2) p))
  /\ (forall ds2,
         forallb is_digit ds2 = true ->
         readToken istringstream_int istringstream_double
                   (mkIstream (c0 :: ds ++ "."%char :: ds2 ++ c :: rest) true) p
         = mkOutcome
             (inl (Token_double
                     (istringstream_double
                        (String c0 (string_of_chars (ds ++ "."%char :: ds2))))))
             (mkIstream (c :: rest) true)
             (advance (List.length ds + List.length ds2 + 3) p)).
Proof.
  intros Hc0 Hds Hc.
  destruct (number_start c0 Hc0)
    as (H1 & H2 & H3 & H4 & H5 & H6 & H7 & H8 & H9 & H10 & H11 & H12).
  assert (Hstart : forall cs,
    readToken istringstream_int istringstream_double (mkIstream (c0 :: cs) true) p
    = loop cs S_INT (String c0 EmptyString) (advance 1 p)).
  { intros cs. unfold readToken. cbn [is_good is_chars readToken_loop].
    rewrite H1, H2, H3, H4, H5, H6, H7, H8, H9, H10, H11, H12, Hc0. reflexivity. }
  split.
  - intros Hdot. rewrite Hstart, (readToken_int_digits ds c rest _ _ Hds Hc Hdot).
    unfold advance. cbn [p_filename p_line p_column String.append].
    f_equal. f_equal. lia.
  - intros ds2 Hds2. rewrite Hstart.
    assert (Hpoint : forall ds1 acc q,
      forallb is_digit ds1 = true ->
      loop (ds1 ++ "."%char :: ds2 ++ c :: rest) S_INT acc q
      = loop (ds2 ++ c :: rest) S_FLOAT
             (String.append acc (string_of_chars (ds1 ++ ["."%char])))
             (advance (List.length ds1 + 1) q)).
    { induction ds1 as [|d ds1 IH]; intros acc q Hd1.
      - unfold loop. cbn [app readToken_loop]. reflexivity.
      - cbn [forallb] in Hd1. apply andb_prop in Hd1. destruct Hd1 as [Hd Hd1].
        unfold loop. cbn [app readToken_loop]. rewrite (is_digit_not_dot d Hd), Hd.
        fold loop. rewrite (IH _ _ Hd1).
        unfold push_back, advance. rewrite append_assoc.
        cbn [string_of_chars fold_right String.append p_filename p_line p_column
             List.length app].
        f_equal. f_equal. lia. }
    rewrite (Hpoint ds _ _ Hds), (readToken_float_digits ds2 c rest _ _ Hds2 Hc).
    unfold advance. cbn [p_filename p_line p_column String.append].
    f_equal.
    + f_equal. f_equal. f_equal. f_equal.
      unfold string_of_chars. rewrite !fold_right_app. cbn [fold_right].
      clear. induction ds as [|d ds IH]; cbn [fold_right String.append].
      * reflexivity.
      * rewrite IH. reflexivity.
    + f_equal. lia.
Qed.

End LexerNumbers.

Lemma X20_readToken_number_witness :
  JSONParser.readToken (fun s => Z.of_nat (String.length s)) (fun s => s)
    (JSONParser.mkIstream (list_ascii_of_string "-12,3") true)
    (JSONParser.mkParser "d.json" 1 0)
  = JSONParser.mkOutcome (inl (JSONParser.Token_int 3))
      (JSONParser.mkIstream (list_ascii_of_string ",3") true)
      (JSONParser.mkParser "d.json" 1 4).
Proof.
  refine (eq_trans
            (proj1 (X20_readToken_number string (fun s => Z.of_nat (String.length s))
                      (fun s => s) "-"%char (list_ascii_of_string "12") ","%char
                      (list_ascii_of_string "3") (JSONParser.mkParser "d.json" 1 0)
                      eq_refl eq_refl eq_refl) eq_refl) _).
  reflexivity.
Defined.

Section LexerEof.
Import JSONParser JSONLexer.
Variable D : Type.
Variable istringstream_int : string -> Z.
Variable istringstream_double : string -> D.

Let loop := readToken_loop istringstream_int istringstream_double.

Lemma readToken_open_string (n : nat) :
  forall (raw : list ascii) (acc : string) (p : Parser),
    (List.length raw <= n)%nat ->
    open_string raw = true ->
    o_result (loop raw S_STRING acc p) = inl (Token_plain T_EOF)
    /\ is_good (o_stream (loop raw S_STRING acc p)) = false.
Proof.
  induction n as [|n IH]; intros raw acc p Hlen Hopen.
  - destruct raw; [|cbn in Hlen; lia]. split; reflexivity.
  - destruct raw as [|c raw]; [split; reflexivity|].
    cbn [open_string] in Hopen. unfold loop. cbn [readToken_loop].
    destruct (c =? "\")%char eqn:Hbs.
    + destruct (c =? dquote)%char eqn:Hq.
      { apply Ascii.eqb_eq in Hbs, Hq. subst c. discriminate Hq. }
      destruct raw as [|e raw]; [split; reflexivity|].
      rewrite readToken_escape_step.
      apply IH; [cbn in Hlen; lia | exact Hopen].
    + destruct (c =? dquote)%char; [discriminate|].
      fold loop. apply IH; [cbn in Hlen; lia | exact Hopen].
Qed.

Lemma readToken_digits_eof (ds : list ascii) :
  forall (st : LexState) (acc : string) (p : Parser),
    st = S_INT \/ st = S_FLOAT ->
    forallb is_digit ds = true ->
    o_result (loop ds st acc p) = inl (Token_plain T_EOF)
    /\ is_good (o_stream (loop ds st acc p)) = false.
Proof.
  induction ds as [|d ds IH]; intros st acc p Hst Hds.
  - destruct Hst as [-> | ->]; split; reflexivity.
  - cbn [forallb] in Hds. apply andb_prop in Hds. destruct Hds as [Hd Hds].
    unfold loop. destruct Hst as [-> | ->]; cbn [readToken_loop].
    + rewrite (is_digit_not_dot d Hd), Hd.
      fold loop. apply IH; [left; reflexivity | exact Hds].
    + rewrite Hd. fold loop. apply IH; [right; reflexivity | exact Hds].
Qed.

(** X21. When the input ends inside a token, [readToken] reports the end of
    the file and no error: after an opening quote and a text in which the
    string is not closed, and after a number that is not followed by
    another character, the token is [T_EOF] and the stream is no longer
    good. *)
Theorem X21_readToken_eof_inside_token (p : Parser) :
  (forall raw,
      open_string raw = true ->
      let o := readToken istringstream_int istringstream_double
                         (mkIstream (dquote :: raw) true) p in
      o_result o = inl (Token_plain T_EOF) /\ is_good (o_stream o) = false)
  /\ (forall c0 ds,
         is_digit c0 || (c0 =? "-")%char = true ->
         forallb is_digit ds = true ->
         let o := readToken istringstream_int istringstream_double
                            (mkIstream (c0 :: ds) true) p in
         o_result o = inl (Token_plain T_EOF) /\ is_good (o_stream o) = false).
Proof.
  split.
  - intros raw Hopen o. subst o. unfold readToken. cbn [is_good is_chars].
    change (readToken_loop istringstream_int istringstream_double (dquote :: raw)
              S_NOTHING EmptyString p)
      with (loop raw S_STRING EmptyString
                 (mkParser (p_filename p) (p_line p) (p_column p + 1))).
    apply (readToken_open_string (List.length raw)); [lia | exact Hopen].
  - intros c0 ds Hc0 Hds o. subst o.
    destruct (number_start c0 Hc0)
      as (H1 & H2 & H3 & H4 & H5 & H6 & H7 & H8 & H9 & H10 & H11 & H12).
    unfold readToken. cbn [is_good is_chars readToken_loop].
    rewrite H1, H2, H3, H4, H5, H6, H7, H8, H9, H10, H11, H12, Hc0.
    apply readToken_digits_eof; [left; reflexivity | exact Hds].
Qed.

End LexerEof.

Lemma X21_readToken_eof_inside_token_witness :
  JSONParser.o_result
    (JSONParser.readToken (fun _ => 0) (fun _ => tt)
       (JSONParser.mkIstream (JSONParser.dquote :: list_ascii_of_string "abc") true)
       (JSONParser.mkParser "d.json" 1 0))
  = inl (JSONParser.Token_plain JSONParser.T_EOF)
  /\ JSONParser.o_result
       (JSONParser.readToken (fun _ => 0) (fun _ => tt)
          (JSONParser.mkIstream (list_ascii_of_string "42") true)
          (JSONParser.mkParser "d.json" 1 0))
     = inl (JSONParser.Token_plain JSONParser.T_EOF).
Proof.
  destruct (X21_readToken_eof_inside_token unit (fun _ => 0) (fun _ => tt)
              (JSONParser.mkParser "d.json" 1 0)) as (H1 & H2).
  split.
  - exact (proj1 (H1 (list_ascii_of_string "abc") eq_refl)).
  - exact (proj1 (H2 "4"%char (list_ascii_of_string "2") eq_refl eq_refl)).
Defined.

Section LexerRoundTrip.
Import JSONParser JSONLexer.
Variable D : Type.
Variable istringstream_int : string -> Z.
Variable istringstream_double : string -> D.
Variable show_int : Z -> string.
Variable show_double : D -> string.

Lemma plain_text_string_body (raw : list ascii) :
  plain_text raw = true ->
  string_body raw = true /\ spec_unescape raw = string_of_chars raw.
Proof.
  induction raw as [|c raw IH]; intros Hp; [split; reflexivity|].
  unfold plain_text in Hp. cbn [forallb] in Hp.
  apply andb_prop in Hp. destruct Hp as [Hc Hp].
  apply andb_prop in Hc. destruct Hc as [Hq Hb].
  apply negb_true_iff in Hq, Hb.
  destruct (IH Hp) as [IH1 IH2].
  cbn [string_body spec_unescape string_of_chars fold_right].
  rewrite Hq, Hb. split; [exact IH1|]. rewrite IH2. reflexivity.
Qed.

Lemma string_of_chars_list (s : string) :
  string_of_chars (list_ascii_of_string s) = s.
Proof.
  induction s as [|c s IH]; [reflexivity|].
  cbn [list_ascii_of_string string_of_chars fold_right].
  f_equal. exact IH.
Qed.

Lemma list_ascii_of_append (s t : string) :
  list_ascii_of_string (String.append s t)
  = list_ascii_of_string s ++ list_ascii_of_string t.
Proof.
  induction s as [|c s IH]; [reflexivity|].
  cbn [String.append list_ascii_of_string app]. f_equal. exact IH.
Qed.

Lemma length_list_ascii (s : string) :
  List.length (list_ascii_of_string s) = String.length s.
Proof.
  induction s as [|c s IH]; [reflexivity|].
  cbn [list_ascii_of_string List.length String.length]. f_equal. exact IH.
Qed.

(** X22. [Token::toString] and [readToken] for punctuation, [null], the
    Booleans and the strings without quote or backslash: the text of the
    token, followed by any input, is read back as the same token; the rest
    of the input is left in the stream and the column advances by the
    length of the text.  A string is written without escapes: the text of
    a string with a quote in it is read back as the part before the
    quote. *)
Theorem X22_toString_readToken (p : Parser) (rest : list ascii) :
  (forall tok : Token D,
      reads_back tok = true ->
      exists s,
        toString show_int show_double tok = Some s
        /\ readToken istringstream_int istringstream_double
                     (mkIstream (list_ascii_of_string s ++ rest) true) p
           = mkOutcome (inl tok) (mkIstream rest true)
                       (advance (String.length s) p))
  /\ (forall a b : string,
         plain_text (list_ascii_of_string a) = true ->
         exists s,
           toString show_int show_double
                    (Token_string (String.append a (String dquote b))) = Some s
           /\ o_result
                (readToken istringstream_int istringstream_double
                           (mkIstream (list_ascii_of_string s ++ rest) true) p)
              = inl (Token_string a)).
Proof.
  split.
  - intros tok Hrb. destruct tok as [t | s | i | d | b]; cbn [reads_back] in Hrb;
      try discriminate Hrb.
    + destruct t; try discriminate Hrb; eexists; (split; [reflexivity|]);
        unfold readToken, advance; cbn;
        first [reflexivity | do 2 f_equal; lia].
    + eexists. split; [reflexivity|].
      destruct (plain_text_string_body _ Hrb) as [Hbody Hun].
      unfold readToken. cbn [is_good is_chars list_ascii_of_string app].
      rewrite list_ascii_of_append. cbn [list_ascii_of_string].
      rewrite <- app_assoc. cbn [app].
      change (readToken_loop istringstream_int istringstream_double
                (dquote :: list_ascii_of_string s ++ dquote :: rest)
                S_NOTHING EmptyString p)
        with (readToken_loop istringstream_int istringstream_double
                (list_ascii_of_string s ++ dquote :: rest) S_STRING EmptyString
                (mkParser (p_filename p) (p_line p) (p_column p + 1))).
      rewrite (readToken_string_body D istringstream_int istringstream_double
                 (List.length (list_ascii_of_string s))
                 (list_ascii_of_string s) rest EmptyString _ (le_n _) Hbody).
      rewrite Hun, string_of_chars_list. cbn [String.append].
      unfold advance. cbn [p_filename p_line p_column String.length].
      f_equal. f_equal.
      rewrite length_list_ascii.
      assert (Hlen : String.length (String.append s (String dquote EmptyString))
                     = S (String.length s)).
      { clear. induction s as [|c s IH]; [reflexivity|].
        cbn [String.append String.length]. rewrite IH. reflexivity. }
      rewrite Hlen. lia.
    + destruct b; eexists; (split; [reflexivity|]);
        unfold readToken, advance; cbn;
        first [reflexivity | do 2 f_equal; lia].
  - intros a b Ha. eexists. split; [reflexivity|].
    destruct (plain_text_string_body _ Ha) as [Hbody Hun].
    unfold readToken. cbn [is_good is_chars list_ascii_of_string app].
    rewrite !list_ascii_of_append. cbn [list_ascii_of_string].
    rewrite <- !app_assoc. cbn [app].
    change (readToken_loop istringstream_int istringstream_double
              (dquote :: list_ascii_of_string a
                 ++ dquote :: list_ascii_of_string b ++ dquote :: rest)
              S_NOTHING EmptyString p)
      with (readToken_loop istringstream_int istringstream_double
              (list_ascii_of_string a
                 ++ dquote :: list_ascii_of_string b ++ dquote :: rest)
              S_STRING EmptyString
              (mkParser (p_filename p) (p_line p) (p_column p + 1))).
    rewrite (readToken_string_body D istringstream_int istringstream_double
               (List.length (list_ascii_of_string a))
               (list_ascii_of_string a) _ EmptyString _ (le_n _) Hbody).
    cbn [o_result]. rewrite Hun, string_of_chars_list. reflexivity.
Qed.

End LexerRoundTrip.

Lemma X22_toString_readToken_witness :
  exists s,
    JSONLexer.toString (fun _ : Z => "0") (fun _ : unit => "0")
                       (JSONParser.Token_string "key") = Some s
    /\ JSONParser.readToken (fun _ => 0) (fun _ => tt)
         (JSONParser.mkIstream (list_ascii_of_string s ++ [":"%char]) true)
         (JSONParser.mkParser "d.json" 1 0)
       = JSONParser.mkOutcome (inl (JSONParser.Token_string "key"))
           (JSONParser.mkIstream [":"%char] true)
           (JSONLexer.advance (String.length s) (JSONParser.mkParser "d.json" 1 0)).
Proof.
  exact (proj1 (X22_toString_readToken unit (fun _ => 0) (fun _ => tt)
                  (fun _ => "0") (fun _ => "0")
                  (JSONParser.mkParser "d.json" 1 0) [":"%char])
               (JSONParser.Token_string "key") eq_refl).
Defined.

(** X23. [is_json] looks at the first character that is not white space:
    the answer is [true] when it is an opening brace and [false] when it is
    any other character, whatever follows it. *)
Theorem X23_is_json_first_character (garbage : ascii) (ws rest : list ascii) :
  forallb JSONLexer.is_space ws = true ->
  JSONLexer.is_json garbage (ws ++ "{"%char :: rest) = true
  /\ (forall c : ascii,
         JSONLexer.is_space c = false -> c <> "{"%char ->
         JSONLexer.is_json garbage (ws ++ c :: rest) = false).
Proof.
  induction ws as [|w ws IH]; intros Hws.
  - split; [reflexivity|]. intros c Hc Hne.
    cbn [app JSONLexer.is_json].
    apply Ascii.eqb_neq in Hne. rewrite Hne.
    unfold JSONLexer.is_space in Hc.
    apply orb_false_elim in Hc. destruct Hc as [Hc H4].
    apply orb_false_elim in Hc. destruct Hc as [Hc H3].
    apply orb_false_elim in Hc. destruct Hc as [H1 H2].
    rewrite H1, H2, H3, H4. reflexivity.
  - cbn [forallb] in Hws. apply andb_prop in Hws. destruct Hws as [Hw Hws].
    destruct (IH Hws) as [IH1 IH2].
    assert (Hstep : forall l, JSONLexer.is_json garbage (w :: l)
                              = JSONLexer.is_json garbage l).
    { intros l. cbn [JSONLexer.is_json].
      unfold JSONLexer.is_space in Hw.
      destruct (Ascii.eqb_spec w "010"%char) as [->|_]; [reflexivity|].
      destruct (Ascii.eqb_spec w " "%char) as [->|_]; [reflexivity|].
      destruct (Ascii.eqb_spec w "009"%char) as [->|_]; [reflexivity|].
      destruct (Ascii.eqb_spec w "013"%char) as [->|_]; [reflexivity|].
      discriminate Hw. }
    cbn [app]. split.
    + rewrite Hstep. exact IH1.
    + intros c Hc Hne. rewrite Hstep. exact (IH2 c Hc Hne).
Qed.

Lemma X23_is_json_first_character_witness :
  JSONLexer.is_json "a"%char (list_ascii_of_string "  {}") = true
  /\ JSONLexer.is_json "a"%char (list_ascii_of_string "  [1]") = false.
Proof.
  destruct (X23_is_json_first_character "a"%char (list_ascii_of_string "  ")
              (list_ascii_of_string "}") eq_refl) as [H1 _].
  destruct (X23_is_json_first_character "a"%char (list_ascii_of_string "  ")
              (list_ascii_of_string "1]") eq_refl) as [_ H2].
  split; [exact H1|].
  refine (H2 "["%char eq_refl _). discriminate.
Defined.

(* ================================================================== *)
(** * Further properties of the evaluator: Boolean operators *)

Section BooleanOperators.
Variable orc : Oracles.
Variable rec : Evals.

Lemma isbool_not_top (x : Expression) :
  Ty.isbool (type x) = true -> Ty.BaseType_eqb (bt (type x)) BT_TOP = false.
Proof.
  unfold Ty.isbool. destruct (bt (type x)); cbn; rewrite ?andb_false_r;
    intros H; try discriminate H; reflexivity.
Qed.

(** X24. The Boolean operators of [eval_bool] that stop at the left
    operand: for built-in operators on Boolean operands, a conjunction
    whose left operand is false is false, a disjunction whose left operand
    is true is true and an implication whose left operand is false is
    true; in the three cases the right operand is not evaluated, and the
    environment is the one the left operand leaves. *)
Theorem X24_eval_bool_short_circuit (t : Type_) (a : list Expression)
        (l r : Expression) (d : option FnRef) (env : EnvI) :
  Ty.isbool (type l) = true ->
  Ty.isbool (type r) = true ->
  has_body env d = false ->
  (forall env1,
      let e := Expr t a (BinOp l BOT_AND r d) in
      ev_bool rec l (csi_env e env) = (Ok false, env1) ->
      eval_bool orc rec e env = (Ok false, csi_leave e env env1))
  /\ (forall env1,
         let e := Expr t a (BinOp l BOT_OR r d) in
         ev_bool rec l (csi_env e env) = (Ok true, env1) ->
         eval_bool orc rec e env = (Ok true, csi_leave e env env1))
  /\ (forall env1,
         let e := Expr t a (BinOp l BOT_IMPL r d) in
         ev_bool rec l (csi_env e env) = (Ok false, env1) ->
         eval_bool orc rec e env = (Ok true, csi_leave e env env1)).
Proof.
  intros Hl Hr Hd.
  pose proof (isbool_not_top l Hl) as Hl1.
  pose proof (isbool_not_top r Hr) as Hr1.
  repeat split; intros env1 e Hev; unfold eval_bool; rewrite with_csi_eq; subst e.
  - match goal with
    | |- (fst (?m ?x), _) = _ => assert (Hm : m x = (Ok false, env1))
    end.
    { cbn [node]. rewrite Hl1, Hr1.
      unfold catch_undefined at 1. unfold mbind at 1 2 3. unfold ret at 1 2.
      unfold get_env at 1. rewrite has_body_csi, Hd, Hl, Hr. cbn [andb].
      unfold catch_undefined at 1. unfold mbind at 1. rewrite Hev.
      unfold ret. reflexivity. }
    rewrite Hm. reflexivity.
  - match goal with
    | |- (fst (?m ?x), _) = _ => assert (Hm : m x = (Ok true, env1))
    end.
    { cbn [node]. rewrite Hl1, Hr1.
      unfold catch_undefined at 1. unfold mbind at 1 2 3. unfold ret at 1 2.
      unfold get_env at 1. rewrite has_body_csi, Hd, Hl, Hr. cbn [andb].
      unfold catch_undefined at 1. unfold mbind at 1. rewrite Hev.
      unfold ret. reflexivity. }
    rewrite Hm. reflexivity.
  - match goal with
    | |- (fst (?m ?x), _) = _ => assert (Hm : m x = (Ok true, env1))
    end.
    { cbn [node]. rewrite Hl1, Hr1.
      unfold catch_undefined at 1. unfold mbind at 1 2 3. unfold ret at 1 2.
      unfold get_env at 1. rewrite has_body_csi, Hd, Hl, Hr. cbn [andb].
      unfold catch_undefined at 1. unfold mbind at 1. rewrite Hev.
      unfold ret. reflexivity. }
    rewrite Hm. reflexivity.
Qed.

End BooleanOperators.

Lemma X24_eval_bool_short_circuit_witness :
  fst (eval_bool Sample.orc (evals Sample.orc 3)
         (Sample.binop Ty.parbool (Lit.boollit false) BOT_AND
            (Expr Ty.parbool [] (Call "undeclared" [] None))) Sample.env0)
  = Ok false
  /\ exists ex,
      fst (eval_bool Sample.orc (evals Sample.orc 3)
             (Expr Ty.parbool [] (Call "undeclared" [] None)) Sample.env0)
      = Throw ex.
Proof.
  split.
  - destruct (X24_eval_bool_short_circuit Sample.orc (evals Sample.orc 3)
                Ty.parbool [] (Lit.boollit false)
                (Expr Ty.parbool [] (Call "undeclared" [] None)) None Sample.env0
                eq_refl eq_refl eq_refl) as (H & _).
    unfold Sample.binop. erewrite H; reflexivity.
  - eexists. reflexivity.
Defined.

(* ================================================================== *)
(** * Further properties of the flattener (flatten_comp.cpp) *)

Lemma surround_is_other (surround : option Expression) (id id' : string) :
  surround_is surround id = true -> String.eqb id id' = false ->
  surround_is surround id' = false.
Proof.
  unfold surround_is. destruct surround as [s|]; [|discriminate].
  destruct (node s); try discriminate.
  intros H Hne. apply String.eqb_eq in H. subst. exact Hne.
Qed.

Section FlattenCompFurther.
Variable forc : FlatOracles.

Lemma split_generators_par (n : nat) (gens : list Generator) :
  forallb par_generator gens = true ->
  forall where_ env,
    split_generators forc n gens where_ env = (Ok (gens, where_), env).
Proof.
  induction gens as [|g gens IH]; intros Hall where_ env; [reflexivity|].
  cbn [forallb] in Hall. apply andb_prop in Hall. destruct Hall as [Hg Hall].
  destruct g as [ds [i|] w]; cbn [split_generators].
  - cbn [par_generator] in Hg. apply andb_prop in Hg. destruct Hg as [Hi Hw].
    apply negb_true_iff in Hi. rewrite Hi.
    destruct w as [x|].
    + apply negb_true_iff in Hw. rewrite Hw.
      unfold mbind, ret. rewrite (IH Hall). reflexivity.
    + unfold mbind, ret. rewrite (IH Hall). reflexivity.
  - unfold mbind, ret. rewrite (IH Hall). reflexivity.
Qed.

(** X25. The rewriting of a comprehension with variable where-conditions
    [w :: ws], of conjunction [cond], by the call that surrounds it: below
    [forall] the generated expression [g] becomes [cond -> g], below
    [exists] it becomes [cond /\ g], and the new comprehension is not
    optional; below any other call than these and [sum], or below none, it
    becomes [if cond then g else <> endif] of optional var type, and the
    comprehension keeps its type. *)
Theorem X25_flatten_comp_surrounding (n : nat) (c : Expression) (set : bool)
        (body : Expression) (gens : list Generator) (env : EnvI)
        (gs : list Generator) (w : Expression) (ws : list Expression) (env1 : EnvI)
        (cond : Expression) (env2 : EnvI) :
  node c = Comprehension set body gens ->
  Ty.isOpt (type c) || (if set then isvarset_loop gens else false) = true ->
  split_generators forc n gens [] env = (Ok (gs, w :: ws), env1) ->
  make_cond forc (w :: ws) env1 = (Ok cond, env2) ->
  let g := generated_exp body in
  (surround_is (surroundingCall env2) constants.ids.forall_ = true ->
   flatten_comp_rewrite forc n c env
   = (Ok (Expr (Ty.set_ot (type c) OT_PRESENT) []
            (Comprehension set
               (with_generated body (Expr Ty.varbool [] (BinOp cond BOT_IMPL g None)))
               gs)), env2))
  /\ (surround_is (surroundingCall env2) constants.ids.exists_ = true ->
      flatten_comp_rewrite forc n c env
      = (Ok (Expr (Ty.set_ot (type c) OT_PRESENT) []
               (Comprehension set
                  (with_generated body (Expr Ty.varbool [] (BinOp cond BOT_AND g None)))
                  gs)), env2))
  /\ (surround_is (surroundingCall env2) constants.ids.forall_ = false ->
      surround_is (surroundingCall env2) constants.ids.exists_ = false ->
      surround_is (surroundingCall env2) constants.ids.sum = false ->
      flatten_comp_rewrite forc n c env
      = (Ok (Expr (type c) []
               (Comprehension set
                  (with_generated body
                     (Expr (Ty.set_ot (Ty.set_ti (type g) TI_VAR) OT_OPTIONAL) []
                           (ITE [(cond, g)] constants.absent)))
                  gs)), env2)).
Proof.
  intros Hn Hopt Hsplit Hcond g. subst g.
  assert (Hrun : flatten_comp_rewrite forc n c env
                 = (nb <- rewrite_body forc (surroundingCall env2) cond
                            (generated_exp body) (type c) ;;
                    ret (Expr (snd nb) []
                           (Comprehension set (with_generated body (fst nb)) gs))) env2).
  { unfold flatten_comp_rewrite. rewrite Hn, Hopt.
    unfold mbind at 1. rewrite Hsplit.
    unfold mbind at 1. rewrite Hcond.
    unfold mbind at 1. unfold get_env at 1.
    unfold generated_exp, with_generated, mbind.
    destruct (rewrite_body forc (surroundingCall env2) cond
                (match comp_indexes body with Some v => last v body | None => body end)
                (type c) env2) as [[[x ty] | ex |] env3]; reflexivity. }
  rewrite Hrun. unfold rewrite_body. repeat split.
  - intros Hs. rewrite Hs. reflexivity.
  - intros Hs.
    rewrite (surround_is_other _ _ constants.ids.forall_ Hs eq_refl), Hs. reflexivity.
  - intros H1 H2 H3. rewrite H1, H2, H3. reflexivity.
Qed.

(** X26. A comprehension whose generators neither range over a variable
    set nor have a variable where-condition is not rewritten: the
    comprehension that is evaluated is the given one, and the environment
    is unchanged. *)
Theorem X26_flatten_comp_par_generators (n : nat) (c : Expression) (set : bool)
        (body : Expression) (gens : list Generator) (env : EnvI) :
  node c = Comprehension set body gens ->
  forallb par_generator gens = true ->
  flatten_comp_rewrite forc n c env = (Ok c, env).
Proof.
  intros Hn Hall. unfold flatten_comp_rewrite. rewrite Hn.
  destruct (Ty.isOpt (type c) || (if set then isvarset_loop gens else false));
    [|reflexivity].
  unfold mbind. rewrite (split_generators_par n gens Hall). reflexivity.
Qed.

End FlattenCompFurther.

Lemma X25_flatten_comp_surrounding_witness :
  fst (flatten_comp_rewrite Sample.forc 3 comp_var
         (env_below constants.ids.forall_ comp_var))
  = Ok (Expr (Ty.mk TI_VAR BT_INT ST_PLAIN 1) []
          (Comprehension false
             (Expr Ty.varbool [] (BinOp where_p BOT_IMPL Sample.x None))
             [Gen [Sample.x_ref] (Some (Lit.new_SetLit_isv [(IntFin 1, IntFin 3)]))
                  None])).
Proof.
  rewrite (proj1 (X25_flatten_comp_surrounding Sample.forc 3 comp_var false Sample.x
                    [gen_i] (env_below constants.ids.forall_ comp_var)
                    [Gen [Sample.x_ref]
                         (Some (Lit.new_SetLit_isv [(IntFin 1, IntFin 3)])) None]
                    where_p [] (env_below constants.ids.forall_ comp_var) where_p
                    (env_below constants.ids.forall_ comp_var)
                    eq_refl eq_refl eq_refl eq_refl) eq_refl).
  reflexivity.
Defined.

Lemma X26_flatten_comp_par_generators_witness :
  flatten_comp_rewrite Sample.forc 3
    (Expr opt_array []
       (Comprehension false Sample.x
          [Gen [Sample.x_ref] (Some (Lit.new_SetLit_isv [(IntFin 1, IntFin 3)])) None]))
    Sample.env0
  = (Ok (Expr opt_array []
           (Comprehension false Sample.x
              [Gen [Sample.x_ref] (Some (Lit.new_SetLit_isv [(IntFin 1, IntFin 3)]))
                   None])),
     Sample.env0).
Proof.
  exact (X26_flatten_comp_par_generators Sample.forc 3
           (Expr opt_array []
              (Comprehension false Sample.x
                 [Gen [Sample.x_ref]
                      (Some (Lit.new_SetLit_isv [(IntFin 1, IntFin 3)])) None]))
           false Sample.x
           [Gen [Sample.x_ref] (Some (Lit.new_SetLit_isv [(IntFin 1, IntFin 3)])) None]
           Sample.env0 eq_refl eq_refl).
Defined.

(** ** The split of a where-condition into its par and its var part *)

Lemma perm_here {A : Type} (a r : list A) : Permutation (a ++ r) (a ++ r).
Proof. apply Permutation_refl. Qed.

Lemma perm_skip_block {A : Type} (a b r r' : list A) :
  Permutation (a ++ r') r -> Permutation (a ++ b ++ r') (b ++ r).
Proof.
  intros H. rewrite <- H. apply Permutation_app_swap_app.
Qed.

Lemma perm_take {A : Type} (a l r r' : list A) :
  Permutation (a ++ r') r -> Permutation l r' -> Permutation (a ++ l) r.
Proof.
  intros H1 H2. rewrite H2. exact H1.
Qed.

Ltac perm_extract :=
  repeat first [apply perm_here | apply perm_skip_block].

Ltac perm_blocks :=
  match goal with
  | |- Permutation ?l ?r =>
      rewrite <- (app_nil_r l), <- (app_nil_r r)
  end;
  rewrite <- ?app_assoc;
  repeat (eapply perm_take; [solve [perm_extract]|]);
  apply Permutation_refl.

Lemma conjuncts_nonempty (x : Expression) (l : list Expression) :
  conjuncts x l -> (1 <= List.length l)%nat.
Proof.
  induction 1 as [x _ | x _ _ | x l r d ll lr _ _ _ IHl _ IHr]; cbn; try lia.
  rewrite length_app. lia.
Qed.

Lemma conjunction_two (bo : Expression) (l : list Expression) :
  conjunction bo l -> (2 <= List.length l)%nat.
Proof.
  intros (l0 & r0 & d & ll & lr & _ & Hl & Hr & ->).
  apply conjuncts_nonempty in Hl, Hr. rewrite length_app. lia.
Qed.

Lemma conjunctions_size (todo : list Expression) (ls : list (list Expression)) :
  Forall2 conjunction todo ls ->
  (2 * List.length todo <= List.length (List.concat ls))%nat.
Proof.
  induction 1 as [|bo l todo ls Hbo _ IH]; [cbn; lia|].
  apply conjunction_two in Hbo. cbn [List.concat List.length].
  rewrite length_app. lia.
Qed.

Lemma split_step_conjuncts (x : Expression) (lx : list Expression) :
  conjuncts x lx ->
  forall td pw wh,
  exists tdx lsx px wx,
    split_step x (td, pw, wh) = (tdx ++ td, pw ++ px, wh ++ wx)
    /\ Forall2 conjunction tdx lsx
    /\ Permutation (px ++ wx ++ List.concat lsx) lx
    /\ Forall (fun y => Ty.isPar (type y) = true) px
    /\ Forall var_conjunct wx
    /\ (List.length px + List.length wx + List.length tdx = 1)%nat.
Proof.
  intros H td pw wh.
  destruct H as [x Hp | x Hp Ha | x l r d ll lr Hp Hn Hl Hr].
  - exists [], [], [x], []. unfold split_step. rewrite Hp.
    repeat split; try constructor; auto. rewrite app_nil_r. reflexivity.
  - exists [], [], [], [x]. unfold split_step. rewrite Hp, Ha.
    repeat split; try constructor; auto. rewrite app_nil_r. reflexivity.
    split; assumption.
  - exists [x], [ll ++ lr], [], []. unfold split_step. rewrite Hp.
    unfold is_and. rewrite Hn. rewrite !app_nil_r.
    repeat split; try constructor; auto.
    + exists l, r, d, ll, lr. repeat split; assumption.
    + cbn. rewrite app_nil_r. reflexivity.
Qed.

Lemma split_where_round (n : nat) (bo : Expression) (todo pw wh : list Expression)
      (l r : Expression) (op : BinOpType) (d : option FnRef) :
  node bo = BinOp l op r d ->
  split_where (S n) (bo :: todo) pw wh
  = (let '(td, pw', wh') := split_step l (split_step r (todo, pw, wh)) in
     split_where n td pw' wh').
Proof.
  intros Hn. cbn [split_where]. rewrite Hn. reflexivity.
Qed.

Lemma split_where_conjunctions (n : nat) :
  forall (todo : list Expression) (ls : list (list Expression))
         (pw wh : list Expression),
    Forall2 conjunction todo ls ->
    (List.length (List.concat ls) <= n + List.length todo)%nat ->
    exists pw' wh',
      split_where n todo pw wh = Ok (pw ++ pw', wh ++ wh')
      /\ Permutation (pw' ++ wh') (List.concat ls)
      /\ Forall (fun y => Ty.isPar (type y) = true) pw'
      /\ Forall var_conjunct wh'.
Proof.
  induction n as [|n IH]; intros todo ls pw wh Hall Hlen.
  - pose proof (conjunctions_size todo ls Hall) as Hsz.
    destruct Hall as [|bo l todo ls Hbo Hall].
    + exists [], []. rewrite !app_nil_r. repeat split; constructor.
    + cbn [List.length] in Hsz, Hlen. lia.
  - destruct Hall as [|bo lb todo ls Hbo Hall].
    + exists [], []. rewrite !app_nil_r. repeat split; constructor.
    + destruct Hbo as (l & r & d & ll & lr & Hn & Hl & Hr & ->).
      rewrite (split_where_round n bo todo pw wh l r BOT_AND d Hn).
      destruct (split_step_conjuncts r lr Hr todo pw wh)
        as (tdr & lsr & pr & wr & Er & Fr & Pr & Ppr & Pwr & Lr).
      rewrite Er.
      destruct (split_step_conjuncts l ll Hl (tdr ++ todo) (pw ++ pr) (wh ++ wr))
        as (tdl & lsl & pl & wl & El & Fl & Pl & Ppl & Pwl & Ll).
      rewrite El.
      assert (Hall' : Forall2 conjunction (tdl ++ tdr ++ todo) (lsl ++ lsr ++ ls)).
      { apply Forall2_app; [exact Fl|]. apply Forall2_app; assumption. }
      assert (Hlen' : (List.length (List.concat (lsl ++ lsr ++ ls))
                       <= n + List.length (tdl ++ tdr ++ todo))%nat).
      { apply Permutation_length in Pl, Pr.
        cbn [List.concat List.length] in Hlen.
        rewrite !concat_app, !length_app in *. lia. }
      destruct (IH (tdl ++ tdr ++ todo) (lsl ++ lsr ++ ls)
                   ((pw ++ pr) ++ pl) ((wh ++ wr) ++ wl) Hall' Hlen')
        as (pw2 & wh2 & E2 & P2 & Pp2 & Pw2).
      exists (pr ++ pl ++ pw2), (wr ++ wl ++ wh2).
      split; [|split; [|split]].
      * rewrite E2. rewrite <- !app_assoc. reflexivity.
      * cbn [List.concat]. rewrite !concat_app in P2.
        rewrite <- Pl, <- Pr.
        transitivity (pr ++ pl ++ wr ++ wl ++ (pw2 ++ wh2)); [perm_blocks|].
        rewrite P2. perm_blocks.
      * apply Forall_app. split; [exact Ppr|]. apply Forall_app. split; assumption.
      * apply Forall_app. split; [exact Pwr|]. apply Forall_app. split; assumption.
Qed.

(** X27. The split of a where-condition that is a conjunction
    ([flatten_comp]): with fuel for its conjuncts, the loop ends; every
    conjunct is put either in the par part or, after the conditions
    collected before, in the var part, none is lost and none is doubled;
    the par part holds par expressions only, and the var part holds var
    expressions that are not conjunctions. *)
Theorem X27_split_where_partition (n : nat) (w : Expression)
        (cs wh0 : list Expression) :
  conjunction w cs ->
  (List.length cs <= n)%nat ->
  exists pw wh,
    split_where n [w] [] wh0 = Ok (pw, wh0 ++ wh)
    /\ Permutation (pw ++ wh) cs
    /\ Forall (fun y => Ty.isPar (type y) = true) pw
    /\ Forall var_conjunct wh.
Proof.
  intros Hw Hlen.
  destruct (split_where_conjunctions n [w] [cs] [] wh0) as (pw & wh & E & P & Pp & Pw).
  - constructor; [exact Hw | constructor].
  - cbn [List.concat List.length]. rewrite app_nil_r. lia.
  - exists pw, wh. cbn [List.concat] in P. rewrite app_nil_r in P.
    repeat split; assumption.
Qed.

Lemma X27_split_where_partition_witness :
  exists pw wh,
    split_where 2 [p_and_true] [] [] = Ok (pw, [] ++ wh)
    /\ Permutation (pw ++ wh) [where_p; Lit.boollit true]
    /\ Forall (fun y => Ty.isPar (type y) = true) pw
    /\ Forall var_conjunct wh.
Proof.
  apply (X27_split_where_partition 2 p_and_true [where_p; Lit.boollit true] []).
  - exists where_p, (Lit.boollit true), None, [where_p], [Lit.boollit true].
    split; [reflexivity|]. split; [|split; [|reflexivity]].
    + apply conjuncts_atom; reflexivity.
    + apply conjuncts_par; reflexivity.
  - cbn. lia.
Defined.

(* ================================================================== *)
(** * Further properties of the flattener (flatten_par.cpp) *)

Section FlattenParFurther.
Variable forc : FlatOracles.
Variable ev : Evals.

(** X28. A parameter expression [e] that contains variables is flattened by
    [flat_cv_exp], in the context ROOT when the context is ROOT and in the
    context MIX otherwise.  (1) When this succeeds, the result is bound to
    its value and the definedness witness to the literal true.  (2) When it
    raises [ResultUndefinedError] and [e] is Boolean, the result is bound to
    the literal false and the witness to the literal true.  (3) When it
    raises [ResultUndefinedError] and [e] is not Boolean, the result is the
    dummy value of the type of [e] and the witness is bound to the literal
    false. *)
Theorem X28_flatten_par_cv (ctx : Ctx) (e : Expression) (r b : option VarDeclRef)
        (env : EnvI) :
  cv (type e) = true ->
  (forall ka env1 rr env2 rb env3,
      flat_cv_exp forc (cv_ctx ctx) e (csi_env e env) = (Ok ka, env1) ->
      bind forc ctx r ka env1 = (Ok rr, env2) ->
      bind forc Ctx_ b (Some constants.literalTrue) env2 = (Ok rb, env3) ->
      flatten_par forc ev ctx e r b env = (Ok (mkEE rr rb), csi_leave e env env3))
  /\ (forall msg env1 rr env2 rb env3,
         flat_cv_exp forc (cv_ctx ctx) e (csi_env e env)
         = (Throw (ResultUndefinedError msg), env1) ->
         Ty.isbool (type e) = true ->
         bind forc ctx r (Some constants.literalFalse) env1 = (Ok rr, env2) ->
         bind forc Ctx_ b (Some constants.literalTrue) env2 = (Ok rb, env3) ->
         flatten_par forc ev ctx e r b env = (Ok (mkEE rr rb), csi_leave e env env3))
  /\ (forall msg env1 d env2 rb env3,
         flat_cv_exp forc (cv_ctx ctx) e (csi_env e env)
         = (Throw (ResultUndefinedError msg), env1) ->
         Ty.isbool (type e) = false ->
         create_dummy_value forc (type e) env1 = (Ok d, env2) ->
         bind forc Ctx_ b (Some constants.literalFalse) env2 = (Ok rb, env3) ->
         flatten_par forc ev ctx e r b env
         = (Ok (mkEE (Some d) rb), csi_leave e env env3)).
Proof.
  intros Hcv. unfold flatten_par. rewrite Hcv. fold (cv_ctx ctx).
  split; [|split].
  - intros ka env1 rr env2 rb env3 Hka Hr Hb. rewrite with_csi_eq.
    match goal with
    | |- (fst (?m ?x), _) = _ => assert (Hm : m x = (Ok (mkEE rr rb), env3))
    end.
    { unfold catch_undefined. unfold mbind at 1. rewrite Hka.
      unfold mbind. rewrite Hr, Hb. reflexivity. }
    rewrite Hm. reflexivity.
  - intros msg env1 rr env2 rb env3 Hka Hbool Hr Hb. rewrite with_csi_eq.
    match goal with
    | |- (fst (?m ?x), _) = _ => assert (Hm : m x = (Ok (mkEE rr rb), env3))
    end.
    { unfold catch_undefined. unfold mbind at 1. rewrite Hka, Hbool.
      unfold mbind. rewrite Hr, Hb. reflexivity. }
    rewrite Hm. reflexivity.
  - intros msg env1 d env2 rb env3 Hka Hbool Hd Hb. rewrite with_csi_eq.
    match goal with
    | |- (fst (?m ?x), _) = _ => assert (Hm : m x = (Ok (mkEE (Some d) rb), env3))
    end.
    { unfold catch_undefined. unfold mbind at 1. rewrite Hka, Hbool.
      unfold mbind. rewrite Hd, Hb. reflexivity. }
    rewrite Hm. reflexivity.
Qed.

End FlattenParFurther.

Lemma X28_flatten_par_cv_witness :
  fst (flatten_par forc_undefined (evals Sample.orc 3) Ctx_ cv_bool None None Sample.env0)
  = Ok (mkEE (Some constants.literalFalse) (Some constants.literalTrue))
  /\ fst (flatten_par forc_undefined (evals Sample.orc 3) Ctx_ cv_int None None
            Sample.env0)
     = Ok (mkEE (Some (Lit.IntLit_a (IntFin 0))) (Some constants.literalFalse)).
Proof.
  destruct (X28_flatten_par_cv forc_undefined (evals Sample.orc 3) Ctx_ cv_bool
              None None Sample.env0 eq_refl) as (_ & H2 & _).
  destruct (X28_flatten_par_cv forc_undefined (evals Sample.orc 3) Ctx_ cv_int
              None None Sample.env0 eq_refl) as (_ & _ & H3).
  split.
  - erewrite H2; reflexivity.
  - erewrite H3; reflexivity.
Defined.

(* ================================================================== *)
(** * The parentheses of the pretty printer (prettyprinter.cpp) *)

Section Parentheses.
Import PrettyPrinter.

Lemma precedence_op_range (op : BinOpType) :
  200 <= precedence_op op <= 1200.
Proof. destruct op; cbn; lia. Qed.

(** X29. The parentheses that the printer puts around the operands of a
    binary operation: an operand that is neither a binary operation nor a
    let is never put in parentheses, and a let always is; an operand with
    the same operator as the operation is put in parentheses on the right
    and not on the left, except for the operators without associativity
    (comparisons, [in], [subset], [superset], [..]), where it is so on both
    sides, and for [++], where it is so on the left and not on the right. *)
Theorem X29_need_parentheses (bo l r : Expression) (op : BinOpType)
        (d : option FnRef) :
  node bo = BinOp l op r d ->
  exists ps,
    need_parentheses bo l r = Some ps
    /\ (atomic l = true -> parenthesised PN_LEFT ps = false)
    /\ (atomic r = true -> parenthesised PN_RIGHT ps = false)
    /\ (forall items in_, node l = Let items in_ -> parenthesised PN_LEFT ps = true)
    /\ (forall items in_, node r = Let items in_ -> parenthesised PN_RIGHT ps = true)
    /\ (forall x y d', node l = BinOp x op y d' ->
                       parenthesised PN_LEFT ps = negb (Assoc_eqb (assoc op) AS_LEFT))
    /\ (forall x y d', node r = BinOp x op y d' ->
                       parenthesised PN_RIGHT ps = negb (Assoc_eqb (assoc op) AS_RIGHT)).
Proof.
  intros Hn. unfold need_parentheses. rewrite Hn. eexists. split; [reflexivity|].
  pose proof (precedence_op_range op) as Hop.
  assert (Hbo : precedence bo = precedence_op op).
  { unfold precedence. rewrite Hn. reflexivity. }
  rewrite Hbo.
  assert (Hbits : forall a b : bool,
             parenthesised PN_LEFT (int_of_bool a + 2 * int_of_bool b) = a
             /\ parenthesised PN_RIGHT (int_of_bool a + 2 * int_of_bool b) = b).
  { intros [|] [|]; split; reflexivity. }
  assert (Hatom : forall e, atomic e = true -> precedence e = 0).
  { intros e. unfold atomic, precedence. destruct (node e); try discriminate; reflexivity. }
  assert (Hlet : forall e items in_, node e = Let items in_ -> precedence e = 1300).
  { intros e items in_ H. unfold precedence. rewrite H. reflexivity. }
  assert (Hsame : forall e x y d', node e = BinOp x op y d' ->
                                   precedence e = precedence_op op).
  { intros e x y d' H. unfold precedence. rewrite H. reflexivity. }
  repeat split.
  - intros H. rewrite (proj1 (Hbits _ _)), (Hatom l H).
    replace (precedence_op op <? 0) with false by (symmetry; apply Z.ltb_ge; lia).
    replace (precedence_op op =? 0) with false by (symmetry; apply Z.eqb_neq; lia).
    reflexivity.
  - intros H. rewrite (proj2 (Hbits _ _)), (Hatom r H).
    replace (precedence_op op <? 0) with false by (symmetry; apply Z.ltb_ge; lia).
    replace (precedence_op op =? 0) with false by (symmetry; apply Z.eqb_neq; lia).
    reflexivity.
  - intros items in_ H. rewrite (proj1 (Hbits _ _)), (Hlet l items in_ H).
    replace (precedence_op op <? 1300) with true by (symmetry; apply Z.ltb_lt; lia).
    reflexivity.
  - intros items in_ H. rewrite (proj2 (Hbits _ _)), (Hlet r items in_ H).
    replace (precedence_op op <? 1300) with true by (symmetry; apply Z.ltb_lt; lia).
    reflexivity.
  - intros x y d' H. rewrite (proj1 (Hbits _ _)), (Hsame l x y d' H).
    rewrite Z.ltb_irrefl, Z.eqb_refl. reflexivity.
  - intros x y d' H. rewrite (proj2 (Hbits _ _)), (Hsame r x y d' H).
    rewrite Z.ltb_irrefl, Z.eqb_refl. reflexivity.
Qed.

End Parentheses.

Lemma X29_need_parentheses_witness :
  exists ps,
    PrettyPrinter.need_parentheses
      (Sample.binop Ty.parint (Sample.int 1) BOT_MINUS
         (Sample.binop Ty.parint (Sample.int 2) BOT_MINUS (Sample.int 3)))
      (Sample.int 1)
      (Sample.binop Ty.parint (Sample.int 2) BOT_MINUS (Sample.int 3))
    = Some ps
    /\ PrettyPrinter.parenthesised PrettyPrinter.PN_LEFT ps = false
    /\ PrettyPrinter.parenthesised PrettyPrinter.PN_RIGHT ps = true.
Proof.
  destruct (X29_need_parentheses
              (Sample.binop Ty.parint (Sample.int 1) BOT_MINUS
                 (Sample.binop Ty.parint (Sample.int 2) BOT_MINUS (Sample.int 3)))
              (Sample.int 1)
              (Sample.binop Ty.parint (Sample.int 2) BOT_MINUS (Sample.int 3))
              BOT_MINUS None eq_refl) as (ps & H & Hl & _ & _ & _ & _ & Hr).
  exists ps. split; [exact H|]. split.
  - exact (Hl eq_refl).
  - exact (Hr (Sample.int 2) (Sample.int 3) None eq_refl).
Defined.

(* ================================================================== *)
(** * Further properties of the flattener (flatten_let.cpp) *)

Section FlattenLetFurther.
Variable orc : Oracles.
Variable forc : FlatOracles.
Variable ev : Evals.

Lemma flatten_let_item_state (t : Type_) (ctx : Ctx) (b : option VarDeclRef)
      (le : Expression) (s s' : LetState) (env env' : EnvI) :
  flatten_let_item orc forc ev t ctx b le s env = (Ok s', env') ->
  exists cs fm,
    ls_cs s' = ls_cs s ++ cs
    /\ ls_flatmap s' = ls_flatmap s ++ fm
    /\ List.length fm = List.length (let_decls [le]).
Proof.
  intros H. unfold flatten_let_item in H.
  unfold let_decls. cbn [flat_map]. rewrite app_nil_r.
  destruct (node le) eqn:Hn;
    try (destruct (BCtx_eqb (ctx_b ctx) C_ROOT
                   || ann_contains (ann le) constants.ann.promise_total);
         bind_inv H; inversion H; subst;
         eexists; exists []; cbn [ls_cs ls_flatmap];
         (split; [first [reflexivity | symmetry; apply app_nil_r]
                 | split; [symmetry; apply app_nil_r | reflexivity]])).
  bind_inv_as H as vd env1 Hvd.
  bind_inv_as H as p env2 Hr.
  destruct p as [let_e cs].
  bind_inv_as H as vd' env3 Hvd'.
  bind_inv_as H as u1 env4 Hmod1.
  bind_inv_as H as u2 env5 Hmod2.
  inversion H; subst; clear H.
  cbn [ls_cs ls_flatmap].
  assert (Hcs : exists cs', cs = ls_cs s ++ cs').
  { destruct (vd_e vd) as [vde|].
    - apply with_csi_inv in Hr. destruct Hr as (envc & Hc).
      bind_inv_as Hc as ee env6 Hee.
      bind_inv_as Hc as u3 env7 Hchk.
      bind_inv_as Hc as cs' env8 Hdom.
      bind_inv_as Hc as u4 env9 Hann.
      inversion Hc; subst; clear Hc.
      destruct (ti_domain (vd_ti vd)) as [dom|].
      + destruct (ee_r ee) as [er|]; [|discriminate Hdom].
        bind_inv_as Hdom as c env10 Hc1.
        bind_inv_as Hdom as ee2 env11 Hee2.
        inversion Hdom; subst.
        eexists. rewrite <- app_assoc. reflexivity.
      + inversion Hdom; subst. eexists; reflexivity.
    - bind_inv_as Hr as u3 env6 Hfree.
      apply with_csi_inv in Hr. destruct Hr as (envc & Hc).
      bind_inv_as Hc as ti env7 Hti.
      bind_inv_as Hc as nvd env8 Hnvd.
      bind_inv_as Hc as i env9 Hi.
      inversion Hc; subst.
      exists []. rewrite app_nil_r. reflexivity. }
  destruct Hcs as (cs' & ->).
  exists cs', [vd_flat vd']. repeat split; reflexivity.
Qed.

(** X30. The loop of [flatten_let] over the items of a let: when it ends
    normally, the constraints collected before are still there, in front
    of the new ones, and the list of the saved flat declarations has grown
    by exactly one entry for each declaration of the let, so that the
    final loop, which restores them, reaches every declaration. *)
Theorem X30_flatten_let_items_state (t : Type_) (ctx : Ctx) (b : option VarDeclRef)
        (items : list Expression) (s s' : LetState) (env env' : EnvI) :
  flatten_let_items orc forc ev t ctx b items s env = (Ok s', env') ->
  exists cs fm,
    ls_cs s' = ls_cs s ++ cs
    /\ ls_flatmap s' = ls_flatmap s ++ fm
    /\ List.length fm = List.length (let_decls items)
    /\ List.length (combine (let_decls items) fm) = List.length (let_decls items).
Proof.
  revert s env. induction items as [|le items IH]; intros s env H.
  - inversion H; subst. exists [], []. rewrite !app_nil_r. repeat split; reflexivity.
  - cbn [flatten_let_items] in H. bind_inv H.
    destruct (flatten_let_item_state t ctx b le s a env env0 Hm)
      as (cs1 & fm1 & Hc1 & Hf1 & Hl1).
    destruct (IH a env0 H) as (cs2 & fm2 & Hc2 & Hf2 & Hl2 & _).
    exists (cs1 ++ cs2), (fm1 ++ fm2).
    assert (Hlen : List.length (fm1 ++ fm2) = List.length (let_decls (le :: items))).
    { assert (Hd : let_decls (le :: items) = let_decls [le] ++ let_decls items).
      { unfold let_decls. cbn [flat_map]. rewrite app_nil_r. reflexivity. }
      rewrite Hd, !length_app. lia. }
    split; [|split; [|split]].
    + rewrite Hc2, Hc1, app_assoc. reflexivity.
    + rewrite Hf2, Hf1, app_assoc. reflexivity.
    + exact Hlen.
    + rewrite length_combine, Hlen. apply Nat.min_id.
Qed.

End FlattenLetFurther.

Lemma X30_flatten_let_items_state_witness :
  exists s' env',
    flatten_let_items Sample.orc Sample.forc (evals Sample.orc 3) Ty.varbool Ctx_ None
      [decl_x; constants.literalTrue] (mkLetState [] []) Sample.env0
    = (Ok s', env')
    /\ exists cs fm,
        ls_cs s' = ls_cs (mkLetState [] []) ++ cs
        /\ ls_flatmap s' = ls_flatmap (mkLetState [] []) ++ fm
        /\ List.length fm = List.length (let_decls [decl_x; constants.literalTrue])
        /\ List.length (combine (let_decls [decl_x; constants.literalTrue]) fm)
           = List.length (let_decls [decl_x; constants.literalTrue]).
Proof.
  eexists. eexists. split.
  - vm_compute. reflexivity.
  - eapply (X30_flatten_let_items_state Sample.orc Sample.forc (evals Sample.orc 3)
              Ty.varbool Ctx_ None [decl_x; constants.literalTrue] (mkLetState [] [])
              _ Sample.env0 _).
    vm_compute. reflexivity.
Defined.

(* ================================================================== *)
(** * Examples of the properties without premises *)

Lemma X3_surroundingCall_nested_witness :
  surroundingCall
    (csi_env comp_var
       (csi_env (Expr Ty.varint [] (Call constants.ids.sum [comp_var] None)) Sample.env0))
  = Some (Expr Ty.varint [] (Call constants.ids.sum [comp_var] None)).
Proof.
  exact (proj1 (X3_surroundingCall_nested
                  (Expr Ty.varint [] (Call constants.ids.sum [comp_var] None))
                  comp_var Sample.env0)).
Defined.


